(** * HelloPromise: a Promises/A+ container, embedded in Rocq

    This development embeds [src/HelloPromise.js] shallowly.  The class keeps
    three mutable fields per instance ([value], [state], [callbacks]); its
    methods are arrow functions closed over [this]; [_handleThen] allocates
    one mutable flag [wasCalled] per invocation; and [_executeCallbacks]
    hands a closure [fire] to [setTimeout].  The embedding therefore threads
    an explicit machine state holding

    - the heap of HelloPromise instances, addressed by allocation order,
    - the store of [wasCalled] flags, one cell per [_handleThen] call,
    - the store of foreign objects (only their [then] member matters here),
    - the FIFO queue of the host's timer tasks,

    and represents every closure the class creates by a constructor that
    records exactly the variables the closure captures.  Code supplied by the
    user of the class (executors, handlers, foreign [then] methods) is given
    as a small first-order syntax and run by an interpreter; the interpreter
    and the class call each other, so the whole is one fuel-indexed
    evaluator. *)

From Stdlib Require Import ZArith.
From stdpp Require Import base relations list strings.

Set Warnings "-register-all".

(** ** Values *)

(** The three possible states of the Promise (the enum [states]). *)
Inductive states := pending | rejected | resolved.

(** The two keys of a Callback object, used by [callback[member]]. *)
Inductive member_name := m_onFulfilled | m_onRejected.

(** JavaScript primitives.  Numbers are restricted to integers. *)
Inductive Prim :=
| undefined
| null
| PBool (b : bool)
| PNum (n : Z)
| PStr (s : string).

(** *** Syntax of user code

    User functions take [params] positional parameters.  Variables are
    referred to by position: index 0 is the innermost binding (the most
    recent [SLet], then the parameters of the enclosing function from left to
    right, then what that function captured). *)
Inductive Expr :=
| ELit (x : Prim)
| EVar (i : nat)
| EFun (params : nat) (body : Stmt)            (* function (..) { body } *)
| ECall (f a : Expr)                           (* f(a) *)
| EThen (p onF onR : Expr)                     (* p.then(onF, onR) *)
| ENew (executor : Expr)                       (* new HelloPromise(executor) *)
| EResolve (e : Expr)                          (* HelloPromise.resolve(e) *)
| EReject (e : Expr)                           (* HelloPromise.reject(e) *)
| EThenable (t : Expr)                         (* { then: t } *)
| ESetTimeout (f : Expr)                       (* setTimeout(f, 0) *)
| ESucc (e : Expr)                             (* e + 1 *)
| ELength (e : Expr)                           (* e.length *)
with Stmt :=
| SReturn (e : Expr)                           (* return e *)
| SThrow (e : Expr)                            (* throw e *)
| SExpr (e : Expr) (rest : Stmt)               (* e; rest *)
| SLet (e : Expr) (rest : Stmt)                (* const x = e; rest *)
| SEnd.                                        (* end of body *)

(** *** Run-time values

    [Fn] lists the closures created by the class, each with its captured
    variables:
    - [FResolver p], [FReject p]: the fields [_resolver] and [_reject] of
      instance [p];
    - [FMember fn fallback resolve reject]: the function returned by
      [member(fn, fallback)] inside [then], where [resolve] and [reject] are
      the executor's parameters;
    - [FOnceResolver p l], [FOnceReject p l]: the two arrows passed to a
      foreign [then] by [_handleThen] of instance [p], sharing flag [l];
    - [FFire p m]: the closure [fire] of [_executeCallbacks]. *)
Inductive Val :=
| VPrim (x : Prim)
| VTypeError (msg : string)                    (* new TypeError(msg) *)
| VPromise (p : nat)                           (* a HelloPromise instance *)
| VObject (o : nat)                            (* a foreign object *)
| VNative (f : Fn)
| VClosure (params : nat) (body : Stmt) (env : list Val)
with Fn :=
| FResolver (p : nat)
| FReject (p : nat)
| FMember (fn fallback resolve reject : Val)
| FOnceResolver (p l : nat)
| FOnceReject (p l : nat)
| FFire (p : nat) (member : member_name).

Coercion VPrim : Prim >-> Val.

(** Completion of a call: normal return or a thrown exception. *)
Inductive Outcome := Ret (v : Val) | Throw (e : Val).

(** The [then] member of a foreign object: missing, a data property, or an
    accessor whose successive reads produce the listed outcomes (and
    [undefined] once the list is used up). *)
Inductive ThenProp :=
| PAbsent
| PData (v : Val)
| PGetter (reads : list Outcome).

(** The typedef [Callback]. *)
Record Callback := mkCallback { onFulfilled : Val; onRejected : Val }.

(** The instance fields set by the constructor. *)
Record Promise := mkPromise {
  value : Val;
  state : states;
  callbacks : list Callback
}.

(** Ghost events.  They are appended by the evaluator and never read by it:
    erasing [trace] from the machine leaves every other component of every
    run unchanged. *)
Inductive Event :=
| EvRegister (turn p : nat) (cb : Callback)    (* callbacks.push(cb) on p *)
| EvFire (turn p : nat) (cb : Callback)        (* callbacks.shift() gave cb *)
| EvCall (turn depth : nat) (f : Val) (args : list Val)
| EvGetThen (turn o : nat).                    (* [value.then] read on o *)

Record Machine := mkMachine {
  promises : list Promise;
  latches : list bool;
  objects : list ThenProp;
  tasks : list Val;
  turn : nat;
  trace : list Event
}.

Definition initial : Machine := mkMachine [] [] [] [] 0 [].

Definition set_promises (f : list Promise -> list Promise) (m : Machine) : Machine :=
  mkMachine (f (promises m)) (latches m) (objects m) (tasks m) (turn m) (trace m).
Definition set_latches (f : list bool -> list bool) (m : Machine) : Machine :=
  mkMachine (promises m) (f (latches m)) (objects m) (tasks m) (turn m) (trace m).
Definition set_objects (f : list ThenProp -> list ThenProp) (m : Machine) : Machine :=
  mkMachine (promises m) (latches m) (f (objects m)) (tasks m) (turn m) (trace m).
Definition set_tasks (f : list Val -> list Val) (m : Machine) : Machine :=
  mkMachine (promises m) (latches m) (objects m) (f (tasks m)) (turn m) (trace m).
Definition set_turn (f : nat -> nat) (m : Machine) : Machine :=
  mkMachine (promises m) (latches m) (objects m) (tasks m) (f (turn m)) (trace m).
Definition log (e : Event) (m : Machine) : Machine :=
  mkMachine (promises m) (latches m) (objects m) (tasks m) (turn m) (trace m ++ [e]).

(** Computations that may call back into user code: [None] is "out of
    fuel". *)
Definition Comp := Machine -> option (Outcome * Machine).
Definition CallT := Val -> list Val -> Comp.

Definition done_ (m : Machine) : option (Outcome * Machine) := Some (Ret undefined, m).

(** ** The helpers at the top of the file *)

Definition isFunction (v : Val) : bool :=
  match v with VNative _ | VClosure _ _ _ => true | _ => false end.

(** [typeof value === 'object'] also holds of [null]. *)
Definition isObject (v : Val) : bool :=
  match v with
  | VPrim null | VTypeError _ | VPromise _ | VObject _ => true
  | _ => false
  end.

Definition isPromise (v : Val) : bool :=
  match v with VPromise _ => true | _ => false end.

Definition truthy (v : Val) : bool :=
  match v with
  | VPrim undefined | VPrim null => false
  | VPrim (PBool b) => b
  | VPrim (PNum n) => negb (Z.eqb n 0)
  | VPrim (PStr s) => negb (String.eqb s ""%string)
  | _ => true
  end.

(** [setTimeout(fn, 0)]: the host runs [fn] in a later turn, in submission
    order. *)
Definition runAsync (fn : Val) (m : Machine) : Machine :=
  set_tasks (fun q => q ++ [fn]) m.

(** ** The class

    Methods take the address [p] of [this].  JavaScript has no dangling
    references, so an address that is not allocated never reaches a method;
    the definitions leave the machine unchanged there. *)

Definition get_member (mb : member_name) (cb : Callback) : Val :=
  match mb with m_onFulfilled => onFulfilled cb | m_onRejected => onRejected cb end.

Definition set_promise (p : nat) (pr : Promise) : Machine -> Machine :=
  set_promises (fun h => <[p := pr]> h).

(** Allocation of a fresh instance as the constructor initialises it. *)
Definition new_promise : Promise := mkPromise null pending [].
Definition alloc_promise (m : Machine) : nat * Machine :=
  (length (promises m), set_promises (fun h => h ++ [new_promise]) m).

(** [_executeCallbacks]: bail while pending, otherwise pick the member by the
    state and schedule [fire]. *)
Definition _executeCallbacks (p : nat) (m : Machine) : Machine :=
  match promises m !! p with
  | Some pr =>
      match state pr with
      | pending => m
      | resolved => runAsync (VNative (FFire p m_onFulfilled)) m
      | rejected => runAsync (VNative (FFire p m_onRejected)) m
      end
  | None => m
  end.

(** [_addCallback]: push, then [_executeCallbacks]. *)
Definition _addCallback (p : nat) (cb : Callback) (m : Machine) : Machine :=
  match promises m !! p with
  | Some pr =>
      _executeCallbacks p
        (log (EvRegister (turn m) p cb)
           (set_promise p (mkPromise (value pr) (state pr) (callbacks pr ++ [cb])) m))
  | None => m
  end.

(** [_transition]: bail when already settled, otherwise store the value and
    the state and call [_executeCallbacks]. *)
Definition _transition (p : nat) (st : states) (v : Val) (m : Machine) : Machine :=
  match promises m !! p with
  | Some pr =>
      match state pr with
      | pending => _executeCallbacks p (set_promise p (mkPromise v st (callbacks pr)) m)
      | _ => m
      end
  | None => m
  end.

Definition _fulfill (p : nat) (v : Val) : Machine -> Machine := _transition p resolved v.
Definition _reject (p : nat) (reason : Val) : Machine -> Machine := _transition p rejected reason.

(** [then]: the executor passed to the constructor only builds the two
    [member] closures and calls [this._addCallback], which cannot throw, so
    the constructor's [catch] is never entered. *)
Definition then_ (q : nat) (onF onR : Val) (m : Machine) : nat * Machine :=
  let (p', m0) := alloc_promise m in
  let resolve := VNative (FResolver p') in
  let reject := VNative (FReject p') in
  let cb := mkCallback (VNative (FMember onF resolve resolve reject))
                       (VNative (FMember onR reject resolve reject)) in
  (p', _addCallback q cb m0).

(** [HelloPromise.reject]. *)
Definition reject (reason : Val) (m : Machine) : nat * Machine :=
  let (p, m0) := alloc_promise m in (p, _reject p reason m0).

(** *** Foreign objects *)

(** The expression [value.then].  Only foreign objects carry a [then] member
    in this model; functions and TypeError instances have none.  A read of an
    accessor consumes the next outcome of its list. *)
Definition get_then (v : Val) (m : Machine) : Outcome * Machine :=
  match v with
  | VObject o =>
      let m' := log (EvGetThen (turn m) o) m in
      match objects m !! o with
      | Some (PData t) => (Ret t, m')
      | Some (PGetter (r :: rs)) => (r, set_objects (fun h => <[o := PGetter rs]> h) m')
      | _ => (Ret undefined, m')
      end
  | _ => (Ret undefined, m)
  end.

(** *** The flag of [_handleThen] *)

Definition wasCalled (l : nat) (m : Machine) : bool :=
  match latches m !! l with Some b => b | None => false end.

(** [once]: note that the flag is written after [fn] has returned, and is
    not written at all when [fn] throws. *)
Definition once (l : nat) (fn : Comp) : Comp := fun m =>
  if wasCalled l m then done_ m
  else
    match fn m with
    | Some (Ret _, m') => done_ (set_latches (fun h => <[l := true]> h) m')
    | r => r
    end.

(** [try { body } catch (reason) { handler(reason) }]. *)
Definition try_catch (body : Comp) (handler : Val -> Comp) : Comp := fun m =>
  match body m with
  | Some (Throw reason, m') => handler reason m'
  | r => r
  end.

(** The reason used by [_resolver] when an instance is resolved with
    itself. *)
Definition self_error : Val :=
  VTypeError "The promise and its value refer to the same object".

Section Class.

(** How function values are invoked; tied to the evaluator below. *)
Variable call : CallT.

(** [_handleThen].  The flag [wasCalled] is a fresh cell [l]; the two arrow
    functions handed to [then] are [FOnceResolver p l] and [FOnceReject p l]. *)
Definition _handleThen (p : nat) (v : Val) : Comp := fun m =>
  let l := length (latches m) in
  let m0 := set_latches (fun h => h ++ [false]) m in
  try_catch
    (fun m1 =>
       match get_then v m1 with
       | (Throw e, m2) => Some (Throw e, m2)
       | (Ret t, m2) =>
           if isFunction t
           then
             match call t [VNative (FOnceResolver p l); VNative (FOnceReject p l)] m2 with
             | Some (Ret _, m3) => done_ m3
             | r => r
             end
           else once l (fun m3 => done_ (_fulfill p v m3)) m2
       end)
    (fun reason => once l (fun m3 => done_ (_reject p reason m3)))
    m0.

(** [_resolver]: 2.3.1 ([value === this]), 2.3.2 ([isPromise]), 2.3.3
    (object or function, and truthy), 2.3.4.  It returns what [value.then]
    returns in the second case.  An instance of the class carries the
    fields the class gave it, so [value.then] is there the method [then] of
    the class; the user code of this development cannot overwrite it. *)
Definition _resolver (p : nat) (v : Val) : Comp := fun m =>
  match v with
  | VPromise q =>
      if Nat.eqb q p
      then done_ (_reject p self_error m)
      else
        let (p', m') := then_ q (VNative (FResolver p)) (VNative (FReject p)) m in
        Some (Ret (VPromise p'), m')
  | _ =>
      if (isObject v || isFunction v) && truthy v
      then _handleThen p v m
      else done_ (_fulfill p v m)
  end.

(** [new HelloPromise(executor)] for an executor given as a value. *)
Definition construct (executor : Val) (m : Machine) : option (nat * Machine) :=
  let (p, m0) := alloc_promise m in
  match call executor [VNative (FResolver p); VNative (FReject p)] m0 with
  | Some (Ret _, m1) => Some (p, m1)
  | Some (Throw reason, m1) => Some (p, _reject p reason m1)
  | None => None
  end.

(** [HelloPromise.resolve]: the executor is [resolve => resolve(value)]. *)
Definition resolve (v : Val) (m : Machine) : option (nat * Machine) :=
  let (p, m0) := alloc_promise m in
  match _resolver p v m0 with
  | Some (Ret _, m1) => Some (p, m1)
  | Some (Throw reason, m1) => Some (p, _reject p reason m1)
  | None => None
  end.

(** *** The interpreter of user code *)

Definition lookup_var (env : list Val) (i : nat) : Val :=
  match env !! i with Some v => v | None => VPrim undefined end.

(** Binding of [params] parameters to the actual arguments; missing
    arguments are [undefined], extra ones are dropped. *)
Definition bind_params (params : nat) (args : list Val) : list Val :=
  take params (args ++ replicate params (VPrim undefined)).

Definition bindc (c : Comp) (k : Val -> Comp) : Comp := fun m =>
  match c m with
  | Some (Ret v, m') => k v m'
  | r => r
  end.

Definition of_new (r : option (nat * Machine)) : option (Outcome * Machine) :=
  match r with
  | Some (p, m) => Some (Ret (VPromise p), m)
  | None => None
  end.

Definition not_a_promise : Val := VTypeError "then is not a function".

Fixpoint eval (env : list Val) (e : Expr) : Comp :=
  match e with
  | ELit x => fun m => Some (Ret (VPrim x), m)
  | EVar i => fun m => Some (Ret (lookup_var env i), m)
  | EFun params body => fun m => Some (Ret (VClosure params body env), m)
  | ECall f a =>
      bindc (eval env f) (fun fv =>
      bindc (eval env a) (fun av => call fv [av]))
  | EThen p onF onR =>
      bindc (eval env p) (fun pv =>
      bindc (eval env onF) (fun fv =>
      bindc (eval env onR) (fun rv => fun m =>
        match pv with
        | VPromise q => let (p', m') := then_ q fv rv m in Some (Ret (VPromise p'), m')
        | _ => Some (Throw not_a_promise, m)
        end)))
  | ENew executor =>
      bindc (eval env executor) (fun ev => fun m => of_new (construct ev m))
  | EResolve e1 =>
      bindc (eval env e1) (fun v => fun m => of_new (resolve v m))
  | EReject e1 =>
      bindc (eval env e1) (fun v => fun m =>
        let (p, m') := reject v m in Some (Ret (VPromise p), m'))
  | EThenable t =>
      bindc (eval env t) (fun tv => fun m =>
        Some (Ret (VObject (length (objects m))),
              set_objects (fun h => h ++ [PData tv]) m))
  | ESetTimeout f =>
      bindc (eval env f) (fun fv => fun m => done_ (runAsync fv m))
  | ESucc e1 =>
      bindc (eval env e1) (fun v => fun m =>
        match v with
        | VPrim (PNum n) => Some (Ret (VPrim (PNum (n + 1))), m)
        | _ => Some (Ret (VPrim undefined), m)
        end)
  | ELength e1 =>
      bindc (eval env e1) (fun v => fun m =>
        match v with
        | VPrim (PStr s) => Some (Ret (VPrim (PNum (Z.of_nat (String.length s)))), m)
        | _ => Some (Ret (VPrim undefined), m)
        end)
  end.

Fixpoint exec (env : list Val) (s : Stmt) : Comp :=
  match s with
  | SReturn e => eval env e
  | SThrow e => bindc (eval env e) (fun v => fun m => Some (Throw v, m))
  | SExpr e rest => bindc (eval env e) (fun _ => exec env rest)
  | SLet e rest => bindc (eval env e) (fun v => exec (v :: env) rest)
  | SEnd => done_
  end.

(** Body of a [member(fn, fallback)] closure applied to [v]. *)
Definition member (fn fallback resolve reject v : Val) : Comp :=
  if isFunction fn
  then
    try_catch
      (bindc (call fn [v]) (fun r =>
       bindc (call resolve [r]) (fun _ => done_)))
      (fun reason => bindc (call reject [reason]) (fun _ => done_))
  else call fallback [v].

End Class.

(** ** The evaluator

    [call fuel depth f args] invokes the function value [f].  [fuel] bounds
    the number of nested invocations and loop iterations still allowed;
    [depth] counts the invocations of function values that are active around
    this one and is only recorded in the trace.  [fire] is the body of the
    closure [fire]: the [while] loop of [_executeCallbacks]. *)
Fixpoint call (fuel depth : nat) (f : Val) (args : list Val) (m : Machine)
  : option (Outcome * Machine) :=
  match fuel with
  | 0 => None
  | S n =>
      let m0 := log (EvCall (turn m) depth f args) m in
      let inner := call n (S depth) in
      let arg := lookup_var args 0 in
      match f with
      | VNative (FResolver p) => _resolver inner p arg m0
      | VNative (FReject p) => done_ (_reject p arg m0)
      | VNative (FMember fn fallback res rej) => member inner fn fallback res rej arg m0
      | VNative (FOnceResolver p l) => once l (_resolver inner p arg) m0
      | VNative (FOnceReject p l) => once l (fun m1 => done_ (_reject p arg m1)) m0
      | VNative (FFire p mb) => fire n (S depth) p mb m0
      | VClosure params body env => exec inner (bind_params params args ++ env) body m0
      | _ => Some (Throw (VTypeError "not a function"), m0)
      end
  end
with fire (fuel depth : nat) (p : nat) (mb : member_name) (m : Machine)
  : option (Outcome * Machine) :=
  match fuel with
  | 0 => None
  | S n =>
      match promises m !! p with
      | Some pr =>
          match callbacks pr with
          | [] => done_ m
          | cb :: rest =>
              let m1 := log (EvFire (turn m) p cb)
                          (set_promise p (mkPromise (value pr) (state pr) rest) m) in
              match call n depth (get_member mb cb) [value pr] m1 with
              | Some (Ret _, m2) => fire n depth p mb m2
              | r => r
              end
          end
      | None => done_ m
      end
  end.

(** ** The host's event loop *)

(** One turn: the oldest task is removed and run to completion.  An
    exception escaping the task is reported by the host and dropped. *)
Definition run_task (fuel : nat) (m : Machine) : option Machine :=
  match tasks m with
  | [] => Some m
  | t :: rest =>
      match call fuel 0 t [] (set_turn S (set_tasks (fun _ => rest) m)) with
      | Some (_, m') => Some m'
      | None => None
      end
  end.

Fixpoint run_tasks (turns fuel : nat) (m : Machine) : option Machine :=
  match turns with
  | 0 => Some m
  | S k =>
      match run_task fuel m with
      | Some m' => run_tasks k fuel m'
      | None => None
      end
  end.

(** The main script runs in the current turn (turn 0 from [initial]) with
    the given variables in scope; it is the invocation at depth 0, so the
    functions it calls run at depth 1. *)
Definition run_main (fuel : nat) (env : list Val) (s : Stmt) (m : Machine)
  : option (Outcome * Machine) :=
  exec (call fuel 1) env s m.

(** ** Observations *)

Definition state_of (p : nat) (m : Machine) : option states :=
  state <$> promises m !! p.
Definition value_of (p : nat) (m : Machine) : option Val :=
  value <$> promises m !! p.
Definition callbacks_of (p : nat) (m : Machine) : list Callback :=
  match promises m !! p with Some pr => callbacks pr | None => [] end.

(** ** Vocabulary of the statements *)

(** A settlement attempt: a call of [_fulfill] or of [_reject]. *)
Inductive Attempt := AFulfill (v : Val) | AReject (reason : Val).

Definition attempt (p : nat) (a : Attempt) : Machine -> Machine :=
  match a with
  | AFulfill v => _fulfill p v
  | AReject reason => _reject p reason
  end.

Definition attempts (p : nat) (l : list Attempt) (m : Machine) : Machine :=
  foldl (fun m' a => attempt p a m') m l.

Definition target (a : Attempt) : states :=
  match a with AFulfill _ => resolved | AReject _ => rejected end.
Definition payload (a : Attempt) : Val :=
  match a with AFulfill v => v | AReject reason => reason end.

(** Whether reading [v.then] in [m] yields a callable. *)
Definition has_callable_then (v : Val) (m : Machine) : bool :=
  match fst (get_then v m) with
  | Ret t => isFunction t
  | Throw _ => false
  end.

(** The events in which some function value or handler runs. *)
Definition runs_code (e : Event) : bool :=
  match e with EvFire _ _ _ | EvCall _ _ _ _ => true | _ => false end.

(** Reactions registered on, and fired from, instance [p], in trace order. *)
Definition registered (p : nat) (m : Machine) : list Callback :=
  omap (fun e => match e with
                 | EvRegister _ q cb => if Nat.eqb q p then Some cb else None
                 | _ => None
                 end) (trace m).
Definition fired (p : nat) (m : Machine) : list Callback :=
  omap (fun e => match e with
                 | EvFire _ q cb => if Nat.eqb q p then Some cb else None
                 | _ => None
                 end) (trace m).

(** Queue discipline: the reactions registered so far are those already
    fired followed by those still waiting, in this order. *)
Definition fifo (m : Machine) : Prop :=
  forall p, registered p m = fired p m ++ callbacks_of p m.

(** *** Elementary updates of the machine

    Every change the evaluator makes to the machine is one of these. *)
Inductive step : Machine -> Machine -> Prop :=
| step_call t d f args m :
    step m (log (EvCall t d f args) m)
| step_alloc m :
    step m (snd (alloc_promise m))
| step_transition p st v m :
    step m (_transition p st v m)
| step_register p cb m :
    step m (_addCallback p cb m)
| step_shift p pr cb rest m :
    promises m !! p = Some pr -> callbacks pr = cb :: rest ->
    step m (log (EvFire (turn m) p cb)
              (set_promise p (mkPromise (value pr) (state pr) rest) m))
| step_latch_new m :
    step m (set_latches (fun h => h ++ [false]) m)
| step_latch_set l m :
    step m (set_latches (fun h => <[l := true]> h) m)
| step_get_then v m :
    step m (snd (get_then v m))
| step_object t m :
    step m (set_objects (fun h => h ++ [PData t]) m)
| step_async fn m :
    step m (runAsync fn m)
| step_turn rest m :
    step m (set_turn S (set_tasks (fun _ => rest) m)).

(** A computation is [sound] when it changes the machine by elementary
    updates only. *)
Definition sound (c : Comp) : Prop :=
  forall m o m', c m = Some (o, m') -> rtc step m m'.

(** An instance [p] settled in state [st] with payload [v]. *)
Definition settled_as (p : nat) (st : states) (v : Val) (m : Machine) : Prop :=
  exists pr, promises m !! p = Some pr /\ state pr = st /\ value pr = v.

(** The reaction that [then] registers for handlers [onF], [onR] when the
    instance it returns is [p']. *)
Definition reaction (p' : nat) (onF onR : Val) : Callback :=
  mkCallback
    (VNative (FMember onF (VNative (FResolver p')) (VNative (FResolver p')) (VNative (FReject p'))))
    (VNative (FMember onR (VNative (FReject p')) (VNative (FResolver p')) (VNative (FReject p')))).

Definition handler_of (mb : member_name) (onF onR : Val) : Val :=
  match mb with m_onFulfilled => onF | m_onRejected => onR end.

(** A foreign object whose [then] accessor throws. *)
Definition throwing_getter : Machine :=
  mkMachine [] [] [PGetter [Throw (VPrim (PStr "boom"))]] [] 0 [].

(** *** Sample programs *)

(** [new HelloPromise((resolve) => { resolve(1) }).then(x => x + 1)]. *)
Definition prog_increment : Stmt :=
  SLet (ENew (EFun 2 (SExpr (ECall (EVar 0) (ELit (PNum 1))) SEnd)))
    (SLet (EThen (EVar 0) (EFun 1 (SReturn (ESucc (EVar 0)))) (ELit undefined))
       SEnd).

(** [HelloPromise.reject("boom").then(undefined, r => r.length)]. *)
Definition prog_recover : Stmt :=
  SLet (EReject (ELit (PStr "boom")))
    (SLet (EThen (EVar 0) (ELit undefined) (EFun 1 (SReturn (ELength (EVar 0)))))
       SEnd).

(** The main script followed by [turns] turns of the event loop. *)
Definition run_program (turns fuel : nat) (s : Stmt) (m : Machine) : option Machine :=
  match run_main fuel [] s m with
  | Some (_, m1) => run_tasks turns fuel m1
  | None => None
  end.

(** Two reactions on one fulfilled instance:
    [const P = HelloPromise.resolve(1);
     P.then(x => "first"); P.then(x => "second")]. *)
Definition prog_two_reactions : Stmt :=
  SLet (EResolve (ELit (PNum 1)))
    (SExpr (EThen (EVar 0) (EFun 1 (SReturn (ELit (PStr "first")))) (ELit undefined))
       (SExpr (EThen (EVar 0) (EFun 1 (SReturn (ELit (PStr "second")))) (ELit undefined))
          SEnd)).

(** A thenable that calls its resolve callback twice, one call after the
    other:
    [HelloPromise.resolve({ then(res, rej) { res("first"); res("second") } })]. *)
Definition prog_resolve_twice : Stmt :=
  SLet (EThenable (EFun 2
          (SExpr (ECall (EVar 0) (ELit (PStr "first")))
             (SExpr (ECall (EVar 0) (ELit (PStr "second"))) SEnd))))
    (SLet (EResolve (EVar 0)) SEnd).

(** A thenable that calls its resolve callback twice, the second call made
    while the first is still running:
    [HelloPromise.resolve({ then(res, rej) {
        res({ then(r2, j2) { res("second"); r2("first") } }) } })]. *)
Definition prog_resolve_reentrant : Stmt :=
  SLet (EThenable (EFun 2
          (SExpr (ECall (EVar 0)
                    (EThenable (EFun 2
                       (SExpr (ECall (EVar 2) (ELit (PStr "second")))
                          (SExpr (ECall (EVar 0) (ELit (PStr "first"))) SEnd)))))
             SEnd)))
    (SLet (EResolve (EVar 0)) SEnd).

(** The calls made to the two callbacks sharing flag [l], in trace order,
    with their arguments. *)
Definition latch_calls (l : nat) (m : Machine) : list (Val * list Val) :=
  omap (fun e =>
          match e with
          | EvCall _ _ (VNative (FOnceResolver _ l') as f) args
          | EvCall _ _ (VNative (FOnceReject _ l') as f) args =>
              if Nat.eqb l' l then Some (f, args) else None
          | _ => None
          end) (trace m).

(** A handler that registers another reaction on the instance being
    drained:
    [const P = HelloPromise.resolve(1);
     P.then(x => { P.then(y => "inner") })]. *)
Definition inner_handler : Expr := EFun 1 (SReturn (ELit (PStr "inner"))).
Definition prog_register_in_drain : Stmt :=
  SLet (EResolve (ELit (PNum 1)))
    (SExpr (EThen (EVar 0)
              (EFun 1 (SExpr (EThen (EVar 1) inner_handler (ELit undefined)) SEnd))
              (ELit undefined))
       SEnd).





(** The machine after the main script of [prog_two_reactions], and after
    three further turns. *)
Definition two_reactions_main : Machine :=
  Eval vm_compute in
    match run_main 6 [] prog_two_reactions initial with
    | Some (_, m) => m
    | None => initial
    end.
Definition two_reactions_end : Machine :=
  Eval vm_compute in
    match run_tasks 3 6 two_reactions_main with
    | Some m => m
    | None => initial
    end.

(** *** Values that do not contain the drain closure

    [fire] is created by [_executeCallbacks] and passed to [setTimeout]
    only; it is never stored in an instance, passed as an argument or
    returned.  [clean v] says that [v] does not contain it. *)
Fixpoint clean (v : Val) : bool :=
  match v with
  | VNative f => clean_fn f
  | VClosure _ _ env => forallb clean env
  | _ => true
  end
with clean_fn (f : Fn) : bool :=
  match f with
  | FMember fn fallback res rej => clean fn && clean fallback && clean res && clean rej
  | FFire _ _ => false
  | _ => true
  end.

Definition clean_outcome (o : Outcome) : bool :=
  match o with Ret v | Throw v => clean v end.
Definition clean_prop (ob : ThenProp) : bool :=
  match ob with
  | PAbsent => true
  | PData v => clean v
  | PGetter reads => forallb clean_outcome reads
  end.
Definition clean_cb (cb : Callback) : bool :=
  clean (onFulfilled cb) && clean (onRejected cb).
Definition clean_promise (pr : Promise) : bool :=
  clean (value pr) && forallb clean_cb (callbacks pr).
(** Whether [t] may wait in the task queue of a machine with heap [h]: a
    drain closure must belong to a settled instance and carry the member for
    its state, as [_executeCallbacks] builds it; any other task must be
    clean. *)
Definition task_ok (h : list Promise) (t : Val) : bool :=
  match t with
  | VNative (FFire p mb) =>
      match h !! p with
      | Some pr =>
          match state pr, mb with
          | resolved, m_onFulfilled | rejected, m_onRejected => true
          | _, _ => false
          end
      | None => false
      end
  | _ => clean t
  end.

(** A machine in which the drain closure occurs in the task queue only, and
    there only for settled instances. *)
Definition wf (m : Machine) : bool :=
  forallb clean_promise (promises m)
  && forallb clean_prop (objects m)
  && forallb (task_ok (promises m)) (tasks m).

Definition is_fire_event (e : Event) : bool :=
  match e with EvFire _ _ _ => true | _ => false end.

(** The reactions fired so far, with the turn and the instance. *)
Definition fire_events (m : Machine) : list Event :=
  List.filter is_fire_event (trace m).

(** A computation is [quiet] when, on a well-formed machine, it fires no
    reaction, stays within the turn, and keeps the machine well formed. *)
Definition quiet (c : Comp) : Prop :=
  forall m o m',
    wf m = true -> c m = Some (o, m') ->
    wf m' = true /\ clean_outcome o = true
    /\ fire_events m' = fire_events m /\ turn m' = turn m.

(** An update of the machine that fires nothing, stays within the turn and
    keeps the machine well formed. *)
Definition quiet_update (g : Machine -> Machine) : Prop :=
  forall m,
    wf m = true ->
    wf (g m) = true /\ fire_events (g m) = fire_events m /\ turn (g m) = turn m.

(** Every reaction fired so far was fired in a turn after [t0] whose task
    (the invocation at depth 0) is the drain closure of its instance, and
    that instance is settled. *)
Definition fired_in_drain_turns (t0 : nat) (m : Machine) : Prop :=
  forall t p cb,
    In (EvFire t p cb) (trace m) ->
    t0 < t
    /\ (exists mb, In (EvCall t 0 (VNative (FFire p mb)) []) (trace m))
    /\ (exists pr, promises m !! p = Some pr /\ state pr <> pending).

(** The machine after the main script of [prog_register_in_drain], and after
    one further turn. *)
Definition register_in_drain_main : Machine :=
  Eval vm_compute in
    match run_main 5 [] prog_register_in_drain initial with
    | Some (_, m) => m
    | None => initial
    end.
Definition register_in_drain_end : Machine :=
  Eval vm_compute in
    match run_tasks 1 5 register_in_drain_main with
    | Some m => m
    | None => initial
    end.

(** A foreign object whose [then] accessor returns a different function on
    each read: first [(res) => { res("one") }], then
    [(res) => { res("two") }]. *)
Definition then_one : Val :=
  VClosure 2 (SExpr (ECall (EVar 0) (ELit (PStr "one"))) SEnd) [].
Definition then_two : Val :=
  VClosure 2 (SExpr (ECall (EVar 0) (ELit (PStr "two"))) SEnd) [].
Definition two_faced_getter : Machine :=
  mkMachine [] [] [PGetter [Ret then_one; Ret then_two]] [] 0 [].

(** [then()] without handlers:
    [HelloPromise.resolve(5).then(); HelloPromise.reject("r").then()]. *)
Definition prog_passthrough : Stmt :=
  SLet (EResolve (ELit (PNum 5)))
    (SLet (EThen (EVar 0) (ELit undefined) (ELit undefined))
       (SLet (EReject (ELit (PStr "r")))
          (SLet (EThen (EVar 0) (ELit undefined) (ELit undefined)) SEnd))).

(** A handler returning a thenable that calls back in a later turn:
    [const A = HelloPromise.resolve(1);
     const B = A.then(x => ({ then(res) { setTimeout(() => res("y"), 0) } }));
     const C = B.then(v => v)]. *)
Definition prog_unwrap_async : Stmt :=
  SLet (EResolve (ELit (PNum 1)))
    (SLet (EThen (EVar 0)
             (EFun 1 (SReturn (EThenable (EFun 2
                (SExpr (ESetTimeout
                          (EFun 0 (SExpr (ECall (EVar 0) (ELit (PStr "y"))) SEnd)))
                   SEnd)))))
             (ELit undefined))
       (SLet (EThen (EVar 0) (EFun 1 (SReturn (EVar 0))) (ELit undefined)) SEnd)).

(** ** Further vocabulary: invariants of whole runs *)

(** A property of machines kept by each update the class and the interpreter
    perform, in the form in which they perform it. *)
Record Primitive (I : Machine -> Prop) : Prop := mkPrimitive {
  prim_call : forall t d f args m, I m -> I (log (EvCall t d f args) m);
  prim_alloc : forall m, I m -> I (snd (alloc_promise m));
  prim_fulfill : forall p v m, I m -> I (_fulfill p v m);
  prim_reject : forall p v m, I m -> I (_reject p v m);
  prim_then : forall q onF onR m, I m -> I (snd (then_ q onF onR m));
  prim_shift : forall p pr cb rest m,
    promises m !! p = Some pr -> callbacks pr = cb :: rest -> I m ->
    I (log (EvFire (turn m) p cb)
         (set_promise p (mkPromise (value pr) (state pr) rest) m));
  prim_latch_new : forall m, I m -> I (set_latches (fun h => h ++ [false]) m);
  prim_latch_set : forall l m, I m -> I (set_latches (fun h => <[l := true]> h) m);
  prim_get_then : forall v m, I m -> I (snd (get_then v m));
  prim_object : forall t m, I m -> I (set_objects (fun h => h ++ [PData t]) m);
  prim_async : forall fn m, I m -> I (runAsync fn m)
}.

(** A computation keeps [I]. *)
Definition keeps (I : Machine -> Prop) (c : Comp) : Prop :=
  forall m o m', c m = Some (o, m') -> I m -> I m'.

(** Every queued callback was built by [then]. *)
Definition reactions_only (m : Machine) : Prop :=
  forall p pr cb,
    promises m !! p = Some pr -> In cb (callbacks pr) ->
    exists p' onF onR, cb = reaction p' onF onR.

(** A pending instance holds the constructor's [null]. *)
Definition pending_null (m : Machine) : Prop :=
  forall p pr, promises m !! p = Some pr -> state pr = pending -> value pr = VPrim null.

(** The member that [_executeCallbacks] selects for a settled state. *)
Definition member_of (st : states) : member_name :=
  match st with resolved => m_onFulfilled | _ => m_onRejected end.

(** No reaction is stranded: every settled instance, other than the exempt
    one [x], that still has queued reactions has its drain in the task
    queue. *)
Definition drains_pending (x : option nat) (m : Machine) : Prop :=
  forall q pr,
    x <> Some q ->
    promises m !! q = Some pr -> state pr <> pending -> callbacks pr <> [] ->
    In (VNative (FFire q (member_of (state pr)))) (tasks m).

(** The functions of the class that a user can get hold of: the settling
    functions, the two callbacks given to a thenable, and the members of a
    reaction (whose fallback and settling functions are settling functions
    of the class). *)
Definition settler (v : Val) : bool :=
  match v with VNative (FResolver _) | VNative (FReject _) => true | _ => false end.
Definition guarded (f : Val) : bool :=
  match f with
  | VNative (FResolver _) | VNative (FReject _)
  | VNative (FOnceResolver _ _) | VNative (FOnceReject _ _) => true
  | VNative (FMember _ fallback res rej) => settler fallback && settler res && settler rej
  | _ => false
  end.

(** An executor that settles and then throws:
    [(resolve, reject) => { resolve(1); throw "late" }], and the machine in
    which its call from the constructor ends. *)
Definition resolve_then_throw : Val :=
  VClosure 2 (SExpr (ECall (EVar 0) (ELit (PNum 1))) (SThrow (ELit (PStr "late")))) [].
Definition resolve_then_throw_end : Machine :=
  Eval vm_compute in
    match call 3 1 resolve_then_throw [VNative (FResolver 0); VNative (FReject 0)]
            (snd (alloc_promise initial)) with
    | Some (_, m) => m
    | None => initial
    end.

(** The flags of [m0] are still there in [m], and those set are still set. *)
Definition flags_kept (m0 m : Machine) : Prop :=
  length (latches m0) <= length (latches m)
  /\ forall l, wasCalled l m0 = true -> wasCalled l m = true.

(** A machine with one pending instance and one unset flag, and the machine
    after the resolve callback of that flag was called with [1]. *)
Definition one_flag : Machine := mkMachine [new_promise] [false] [] [] 0 [].
Definition one_flag_end : Machine :=
  Eval vm_compute in
    match call 1 0 (VNative (FOnceResolver 0 0)) [VPrim (PNum 1)] one_flag with
    | Some (_, m) => m
    | None => initial
    end.

(** A machine with two pending instances and nothing scheduled. *)
Definition two_pending : Machine := mkMachine [new_promise; new_promise] [] [] [] 0 [].

(** The machine after the first turn that follows the main script of
    [prog_two_reactions]. *)
Definition two_reactions_turn1 : Machine :=
  Eval vm_compute in
    match run_task 6 two_reactions_main with
    | Some m => m
    | None => initial
    end.

(** The machine is in turn [t0], and every registration recorded in its
    trace is one of [old] or was made in turn [t0]. *)
Definition registers_in_turn (t0 : nat) (old : list Event) (m : Machine) : Prop :=
  turn m = t0
  /\ forall t p cb,
       In (EvRegister t p cb) (trace m) -> In (EvRegister t p cb) old \/ t = t0.

(** The turn that follows the main script of [prog_register_in_drain]: the
    machine in which the drain of instance 0 starts, and the machine in
    which the member of its first reaction has returned. *)
Definition register_in_drain_start : Machine :=
  Eval vm_compute in
    match tasks register_in_drain_main with
    | t :: rest =>
        log (EvCall 1 0 t []) (set_turn S (set_tasks (fun _ => rest) register_in_drain_main))
    | [] => initial
    end.
Definition register_in_drain_handled : Machine :=
  Eval vm_compute in
    match promises register_in_drain_start !! 0 with
    | Some (mkPromise v st (cb :: rest)) =>
        match call 3 1 (onFulfilled cb) [v]
                (log (EvFire 1 0 cb)
                   (set_promise 0 (mkPromise v st rest) register_in_drain_start)) with
        | Some (_, m) => m
        | None => initial
        end
    | _ => initial
    end.

(** The reaction that the main script of [prog_register_in_drain] registers
    on instance 0. *)
Definition register_in_drain_cb : Callback :=
  reaction 1
    (VClosure 1 (SExpr (EThen (EVar 1) inner_handler (ELit undefined)) SEnd) [VPromise 0])
    (VPrim undefined).







(** * Properties *)

Arguments then_ : simpl never.
Arguments reject : simpl never.
Arguments construct : simpl never.
Arguments resolve : simpl never.
Arguments _transition : simpl never.
Arguments _addCallback : simpl never.
Arguments _executeCallbacks : simpl never.
Arguments get_then : simpl never.

(** ** Basic facts about the heap *)

Lemma lookup_set_promise p pr m :
  p < length (promises m) ->
  promises (set_promise p pr m) !! p = Some pr.
Proof. intros H. simpl. by apply list_lookup_insert_eq. Qed.

Lemma executeCallbacks_promises p m :
  promises (_executeCallbacks p m) = promises m.
Proof.
  unfold _executeCallbacks.
  destruct (promises m !! p) as [pr|]; [|done].
  by destruct (state pr).
Qed.

Lemma transition_settled p st v m pr :
  promises m !! p = Some pr -> state pr <> pending ->
  _transition p st v m = m.
Proof.
  intros Hp Hs. unfold _transition. rewrite Hp.
  by destruct (state pr).
Qed.

Lemma transition_pending p st v m pr :
  promises m !! p = Some pr -> state pr = pending ->
  promises (_transition p st v m) = <[p := mkPromise v st (callbacks pr)]> (promises m).
Proof.
  intros Hp Hs. unfold _transition. rewrite Hp, Hs.
  by rewrite executeCallbacks_promises.
Qed.

Lemma transition_unallocated p st v m :
  promises m !! p = None -> _transition p st v m = m.
Proof. intros Hp. unfold _transition. by rewrite Hp. Qed.

Lemma attempt_transition p a :
  attempt p a = _transition p (target a) (payload a).
Proof. by destruct a. Qed.

Lemma target_settled a : target a <> pending.
Proof. by destruct a. Qed.

Lemma attempts_settled p l m pr :
  promises m !! p = Some pr -> state pr <> pending ->
  attempts p l m = m.
Proof.
  intros Hp Hs. induction l as [|a l IH]; [done|].
  unfold attempts in *. simpl.
  rewrite attempt_transition, (transition_settled _ _ _ _ _ Hp Hs). exact IH.
Qed.

(** ** The evaluator changes the machine by elementary updates only *)

Section Soundness.

Lemma sound_ret o : sound (fun m => Some (o, m)).
Proof. intros m o' m' [= <- <-]. apply rtc_refl. Qed.

Lemma sound_done (g : Machine -> Machine) :
  (forall m, rtc step m (g m)) -> sound (fun m => done_ (g m)).
Proof. intros H m o m' [= <- <-]. apply H. Qed.

Lemma sound_bindc c k :
  sound c -> (forall v, sound (k v)) -> sound (bindc c k).
Proof.
  intros Hc Hk m o m'. unfold bindc.
  destruct (c m) as [[[v|e] m1]|] eqn:E; [|intros [= <- <-]; eauto|done].
  intros H. eapply rtc_trans; [eapply Hc, E|eapply Hk, H].
Qed.

Lemma sound_try_catch c h :
  sound c -> (forall v, sound (h v)) -> sound (try_catch c h).
Proof.
  intros Hc Hh m o m'. unfold try_catch.
  destruct (c m) as [[[v|e] m1]|] eqn:E; [intros [= <- <-]; eauto| |done].
  intros H. eapply rtc_trans; [eapply Hc, E|eapply Hh, H].
Qed.

Lemma sound_once l fn : sound fn -> sound (once l fn).
Proof.
  intros Hf m o m'. unfold once.
  destruct (wasCalled l m); [intros [= <- <-]; apply rtc_refl|].
  destruct (fn m) as [[[v|e] m1]|] eqn:E; [|intros [= <- <-]; eauto|done].
  intros [= <- <-]. eapply rtc_r; [eapply Hf, E|apply step_latch_set].
Qed.

Lemma then_steps q onF onR m : rtc step m (snd (then_ q onF onR m)).
Proof.
  unfold then_. cbn.
  eapply rtc_l; [apply step_alloc|]. apply rtc_once, step_register.
Qed.

Lemma reject_steps reason m : rtc step m (snd (reject reason m)).
Proof.
  unfold reject. cbn.
  eapply rtc_l; [apply step_alloc|]. apply rtc_once, step_transition.
Qed.

Variable call : CallT.
Hypothesis call_sound : forall f args, sound (call f args).

Lemma sound_handleThen p v : sound (_handleThen call p v).
Proof.
  intros m o m' H. unfold _handleThen in H.
  eapply rtc_l; [apply step_latch_new|].
  revert H. apply sound_try_catch.
  - intros m1 o1 m1'.
    pose proof (step_get_then v m1) as Hg.
    destruct (get_then v m1) as [[t|e] m2]; simpl in Hg.
    + destruct (isFunction t).
      * destruct (call t _ m2) as [[[r|e] m3]|] eqn:E; [| |done];
          intros [= <- <-]; (eapply rtc_l; [exact Hg|eapply call_sound, E]).
      * intros H. eapply rtc_l; [exact Hg|]. revert H.
        apply sound_once, sound_done. intros; apply rtc_once, step_transition.
    + intros [= <- <-]. by apply rtc_once.
  - intros reason. apply sound_once, sound_done.
    intros; apply rtc_once, step_transition.
Qed.

Lemma sound_resolver p v : sound (_resolver call p v).
Proof.
  intros m o m'. unfold _resolver.
  assert (Hh : forall H : _handleThen call p v m = Some (o, m'), rtc step m m')
    by (apply sound_handleThen).
  assert (Hf : forall H : done_ (_fulfill p v m) = Some (o, m'), rtc step m m')
    by (intros [= <- <-]; apply rtc_once, step_transition).
  destruct v as [x| | q | | |]; try (destruct (_ && _); [exact Hh|exact Hf]).
  destruct (q =? p).
  - intros [= <- <-]. apply rtc_once, step_transition.
  - pose proof (then_steps q (VNative (FResolver p)) (VNative (FReject p)) m) as Ht.
    destruct (then_ q _ _ m) as [p' m1]. intros [= <- <-]. exact Ht.
Qed.

Lemma construct_steps ex m p m' :
  construct call ex m = Some (p, m') -> rtc step m m'.
Proof.
  unfold construct. cbn.
  destruct (call ex _ _) as [[[r|e] m1]|] eqn:E; [| |done]; intros [= <- <-].
  - eapply rtc_l; [apply step_alloc|]. eapply call_sound, E.
  - eapply rtc_l; [apply step_alloc|].
    eapply rtc_r; [eapply call_sound, E|apply step_transition].
Qed.

Lemma resolve_steps v m p m' :
  resolve call v m = Some (p, m') -> rtc step m m'.
Proof.
  unfold resolve. cbn.
  destruct (_resolver call _ v _) as [[[r|e] m1]|] eqn:E; [| |done]; intros [= <- <-].
  - eapply rtc_l; [apply step_alloc|]. eapply sound_resolver, E.
  - eapply rtc_l; [apply step_alloc|].
    eapply rtc_r; [eapply sound_resolver, E|apply step_transition].
Qed.

Lemma sound_eval env e : sound (eval call env e).
Proof.
  revert env. induction e; intros env; cbn [eval];
    try (apply sound_ret);
    repeat (apply sound_bindc; [by auto|intros ?]).
  - apply call_sound.
  - intros m o m'. cbv beta.
    destruct v as [| |q| | |]; try (intros [= <- <-]; apply rtc_refl).
    pose proof (then_steps q v0 v1 m) as Ht.
    destruct (then_ q v0 v1 m) as [p' m1]. intros [= <- <-]. exact Ht.
  - intros m o m'. cbv beta. destruct (construct call v m) as [[p m1]|] eqn:E; [|done].
    intros [= <- <-]. eapply construct_steps, E.
  - intros m o m'. cbv beta. destruct (resolve call v m) as [[p m1]|] eqn:E; [|done].
    intros [= <- <-]. eapply resolve_steps, E.
  - intros m o m'. cbv beta. pose proof (reject_steps v m) as Ht.
    destruct (reject v m) as [p m1]. intros [= <- <-]. exact Ht.
  - intros m o m' [= <- <-]. apply rtc_once, step_object.
  - apply sound_done. intros; apply rtc_once, step_async.
  - intros m o m'. destruct v as [[| | |n|]| | | | |]; intros [= <- <-]; apply rtc_refl.
  - intros m o m'. destruct v as [[| | | |s]| | | | |]; intros [= <- <-]; apply rtc_refl.
Qed.

Lemma sound_exec env s : sound (exec call env s).
Proof.
  revert env. induction s; intros env; cbn [exec].
  - apply sound_eval.
  - apply sound_bindc; [apply sound_eval|intros v; apply sound_ret].
  - apply sound_bindc; [apply sound_eval|auto].
  - apply sound_bindc; [apply sound_eval|auto].
  - apply (sound_ret (Ret (VPrim undefined))).
Qed.

Lemma sound_member fn fb res rej v : sound (member call fn fb res rej v).
Proof.
  unfold member. destruct (isFunction fn); [|apply call_sound].
  apply sound_try_catch.
  - repeat (apply sound_bindc; [apply call_sound|intros ?]).
    apply (sound_ret (Ret (VPrim undefined))).
  - intros reason. apply sound_bindc; [apply call_sound|intros ?].
    apply (sound_ret (Ret (VPrim undefined))).
Qed.

End Soundness.

Lemma call_fire_sound fuel :
  (forall d f args, sound (call fuel d f args))
  /\ (forall d p mb, sound (fire fuel d p mb)).
Proof.
  induction fuel as [|n [IHc IHf]]; [by split|].
  split.
  - intros d f args m o m' H. cbn [call] in H.
    eapply rtc_l; [apply (step_call (turn m) d f args)|]. revert H.
    set (m0 := log _ m). clearbody m0. clear m. revert m0 o m'.
    change (sound (fun m0 =>
      match f with
      | VNative (FResolver p) => _resolver (call n (S d)) p (lookup_var args 0) m0
      | VNative (FReject p) => done_ (_reject p (lookup_var args 0) m0)
      | VNative (FMember fn fallback res rej) =>
          member (call n (S d)) fn fallback res rej (lookup_var args 0) m0
      | VNative (FOnceResolver p l) =>
          once l (_resolver (call n (S d)) p (lookup_var args 0)) m0
      | VNative (FOnceReject p l) =>
          once l (fun m1 => done_ (_reject p (lookup_var args 0) m1)) m0
      | VNative (FFire p mb) => fire n (S d) p mb m0
      | VClosure params body env =>
          exec (call n (S d)) (bind_params params args ++ env) body m0
      | _ => Some (Throw (VTypeError "not a function"), m0)
      end)).
    destruct f as [x|msg|q|ob|[p|p|fn fb res rej|p l|p l|p mb]|params body env];
      try (apply sound_ret).
    + by apply sound_resolver.
    + apply sound_done. intros; apply rtc_once, step_transition.
    + by apply sound_member.
    + by apply sound_once, sound_resolver.
    + apply sound_once, sound_done. intros; apply rtc_once, step_transition.
    + apply IHf.
    + by apply sound_exec.
  - intros d p mb m o m' H. cbn [fire] in H.
    destruct (promises m !! p) as [pr|] eqn:Hp; [|injection H as <- <-; apply rtc_refl].
    destruct (callbacks pr) as [|cb rest] eqn:Hc; [injection H as <- <-; apply rtc_refl|].
    eapply rtc_l; [by eapply step_shift|].
    destruct (call n d _ _ _) as [[[r|e] m2]|] eqn:E; [| |done].
    + eapply rtc_trans; [eapply IHc, E|eapply IHf, H].
    + injection H as <- <-. eapply IHc, E.
Qed.

Lemma call_steps fuel d f args m o m' :
  call fuel d f args m = Some (o, m') -> rtc step m m'.
Proof. apply call_fire_sound. Qed.

Lemma run_task_steps fuel m m' :
  run_task fuel m = Some m' -> rtc step m m'.
Proof.
  unfold run_task. destruct (tasks m) as [|t rest]; [intros [= <-]; apply rtc_refl|].
  destruct (call fuel 0 t [] _) as [[o m1]|] eqn:E; [|done].
  intros [= <-]. eapply rtc_l; [apply (step_turn rest)|]. eapply call_steps, E.
Qed.

Lemma run_tasks_steps turns fuel m m' :
  run_tasks turns fuel m = Some m' -> rtc step m m'.
Proof.
  revert m. induction turns as [|k IH]; intros m; simpl.
  - intros [= <-]. apply rtc_refl.
  - destruct (run_task fuel m) as [m1|] eqn:E; [|done].
    intros H. eapply rtc_trans; [eapply run_task_steps, E|eapply IH, H].
Qed.

Lemma run_main_steps fuel env s m o m' :
  run_main fuel env s m = Some (o, m') -> rtc step m m'.
Proof. apply sound_exec. intros f args. apply call_fire_sound. Qed.

Lemma steps_preserve (I : Machine -> Prop) :
  (forall m m', step m m' -> I m -> I m') ->
  forall m m', rtc step m m' -> I m -> I m'.
Proof. intros Hs m m' H. induction H; eauto. Qed.

(** ** How the elementary updates act on one instance *)

Lemma executeCallbacks_trace p m : trace (_executeCallbacks p m) = trace m.
Proof.
  unfold _executeCallbacks.
  destruct (promises m !! p) as [pr|]; [|done]. by destruct (state pr).
Qed.

Lemma transition_trace p st v m : trace (_transition p st v m) = trace m.
Proof.
  unfold _transition. destruct (promises m !! p) as [pr|]; [|done].
  destruct (state pr); try done. by rewrite executeCallbacks_trace.
Qed.

Lemma transition_promises p st v m :
  promises (_transition p st v m)
  = match promises m !! p with
    | Some pr =>
        match state pr with
        | pending => <[p := mkPromise v st (callbacks pr)]> (promises m)
        | _ => promises m
        end
    | None => promises m
    end.
Proof.
  unfold _transition. destruct (promises m !! p) as [pr|]; [|done].
  destruct (state pr); try done. by rewrite executeCallbacks_promises.
Qed.

Lemma addCallback_promises p cb m :
  promises (_addCallback p cb m)
  = match promises m !! p with
    | Some pr => <[p := mkPromise (value pr) (state pr) (callbacks pr ++ [cb])]> (promises m)
    | None => promises m
    end.
Proof.
  unfold _addCallback. destruct (promises m !! p) as [pr|]; [|done].
  by rewrite executeCallbacks_promises.
Qed.

Lemma addCallback_trace p cb m :
  trace (_addCallback p cb m)
  = match promises m !! p with
    | Some _ => trace m ++ [EvRegister (turn m) p cb]
    | None => trace m
    end.
Proof.
  unfold _addCallback. destruct (promises m !! p) as [pr|]; [|done].
  by rewrite executeCallbacks_trace.
Qed.

Lemma get_then_promises v m : promises (snd (get_then v m)) = promises m.
Proof.
  unfold get_then. destruct v as [| | |o| |]; try done.
  destruct (objects m !! o) as [[|t|[|r rs]]|]; done.
Qed.

Lemma get_then_trace v m :
  trace (snd (get_then v m))
  = match v with VObject o => trace m ++ [EvGetThen (turn m) o] | _ => trace m end.
Proof.
  unfold get_then. destruct v as [| | |o| |]; try done.
  destruct (objects m !! o) as [[|t|[|r rs]]|]; done.
Qed.

(** Once settled, an instance keeps its state and payload under every
    elementary update. *)
Lemma step_settled p st v m m' :
  st <> pending -> step m m' -> settled_as p st v m -> settled_as p st v m'.
Proof.
  intros Hst Hstep (pr & Hp & Hs & Hv).
  assert (Hlt : p < length (promises m)) by (by eapply lookup_lt_Some).
  destruct Hstep as [t d f args m| m | q st' v' m | q cb m | q pr' cb rest m Hq Hc
                    | m | l m | w m | t m | fn m | rest m];
    try (by exists pr).
  - exists pr. split; [|done]. cbn. by rewrite lookup_app_l.
  - rewrite <- Hs in Hst. destruct (decide (q = p)) as [->|Hne].
    + rewrite (transition_settled _ _ _ _ _ Hp Hst). by exists pr.
    + unfold settled_as. rewrite transition_promises.
      destruct (promises m !! q) as [pq|]; [|by exists pr].
      destruct (state pq); try (by exists pr).
      exists pr. by rewrite list_lookup_insert_ne.
  - unfold settled_as. rewrite addCallback_promises.
    destruct (decide (q = p)) as [->|Hne].
    + rewrite Hp. eexists. rewrite list_lookup_insert_eq by done. done.
    + destruct (promises m !! q) as [pq|]; [|by exists pr].
      exists pr. by rewrite list_lookup_insert_ne.
  - unfold settled_as. cbn. destruct (decide (q = p)) as [->|Hne].
    + rewrite Hp in Hq. injection Hq as <-.
      eexists. rewrite list_lookup_insert_eq by done. done.
    + exists pr. by rewrite list_lookup_insert_ne.
  - exists pr. by rewrite get_then_promises.
Qed.

Lemma steps_settled p st v m m' :
  st <> pending -> rtc step m m' -> settled_as p st v m -> settled_as p st v m'.
Proof. intros Hst. apply steps_preserve. intros; by eapply step_settled. Qed.

(** C1. Exactly-once settlement: on a pending instance the first attempt
    stores its state and payload and keeps the registered reactions; every
    later attempt, [_fulfill] or [_reject], in any order and number, returns
    the machine as it found it; and no later invocation of any function,
    whether of the class or of its user, changes the state or the payload. *)
Theorem settles_at_most_once p m pr a rest :
  promises m !! p = Some pr -> state pr = pending ->
  promises (attempt p a m) !! p
    = Some (mkPromise (payload a) (target a) (callbacks pr))
  /\ attempts p (a :: rest) m = attempt p a m
  /\ (forall fuel d f args o m',
        call fuel d f args (attempt p a m) = Some (o, m') ->
        settled_as p (target a) (payload a) m').
Proof.
  intros Hp Hs.
  assert (Hlt : p < length (promises m)) by (by eapply lookup_lt_Some).
  assert (H1 : promises (attempt p a m) !! p
               = Some (mkPromise (payload a) (target a) (callbacks pr))).
  { rewrite attempt_transition, (transition_pending _ _ _ _ _ Hp Hs).
    by apply list_lookup_insert_eq. }
  split; [exact H1|]. split.
  - change (attempts p (a :: rest) m) with (attempts p rest (attempt p a m)).
    eapply attempts_settled; [exact H1|]. simpl. apply target_settled.
  - intros fuel d f args o m' Hcall.
    eapply steps_settled; [apply target_settled|eapply call_steps, Hcall|].
    eexists. split; [exact H1|done].
Qed.

Lemma settles_at_most_once_witness :
  let m := snd (alloc_promise initial) in
  let later := [AReject (VPrim (PStr "late")); AFulfill (VPrim (PNum 2))] in
  promises (attempt 0 (AFulfill (VPrim (PNum 1))) m) !! 0
    = Some (mkPromise (VPrim (PNum 1)) resolved [])
  /\ attempts 0 (AFulfill (VPrim (PNum 1)) :: later) m
     = attempt 0 (AFulfill (VPrim (PNum 1))) m.
Proof.
  intros m later.
  destruct (settles_at_most_once 0 m new_promise (AFulfill (VPrim (PNum 1))) later)
    as (H1 & H2 & _); [reflexivity|reflexivity|].
  split; [exact H1|exact H2].
Defined.

(** ** The queue discipline is an invariant *)

Lemma registered_log p e m :
  registered p (log e m)
  = registered p m
    ++ match e with
       | EvRegister _ q cb => if Nat.eqb q p then [cb] else []
       | _ => []
       end.
Proof.
  unfold registered. cbn. rewrite omap_app. f_equal.
  destruct e as [t q cb| | |]; try done. cbn. by destruct (q =? p).
Qed.

Lemma fired_log p e m :
  fired p (log e m)
  = fired p m
    ++ match e with
       | EvFire _ q cb => if Nat.eqb q p then [cb] else []
       | _ => []
       end.
Proof.
  unfold fired. cbn. rewrite omap_app. f_equal.
  destruct e as [|t q cb| |]; try done. cbn. by destruct (q =? p).
Qed.

Lemma registered_trace p m m' : trace m' = trace m -> registered p m' = registered p m.
Proof. unfold registered. by intros ->. Qed.

Lemma fired_trace p m m' : trace m' = trace m -> fired p m' = fired p m.
Proof. unfold fired. by intros ->. Qed.

Lemma callbacks_of_promises p m m' :
  promises m' = promises m -> callbacks_of p m' = callbacks_of p m.
Proof. unfold callbacks_of. by intros ->. Qed.

Lemma fifo_same m m' :
  trace m' = trace m -> promises m' = promises m -> fifo m -> fifo m'.
Proof.
  intros Ht Hp H p.
  rewrite (registered_trace _ _ _ Ht), (fired_trace _ _ _ Ht),
    (callbacks_of_promises _ _ _ Hp). apply H.
Qed.

Lemma step_fifo m m' : step m m' -> fifo m -> fifo m'.
Proof.
  intros Hstep H.
  destruct Hstep as [t d f args m| m | q st' v' m | q cb m | q pr' cb rest m Hq Hc
                    | m | l m | w m | t m | fn m | rest m];
    try (by apply (fifo_same m)).
  - intros p. rewrite registered_log, fired_log, !app_nil_r. apply H.
  - intros p. specialize (H p).
    rewrite (registered_trace p m), (fired_trace p m) by done.
    unfold callbacks_of in *. cbn.
    destruct (decide (p < length (promises m))) as [Hlt|Hge].
    + by rewrite lookup_app_l.
    + rewrite (lookup_ge_None_2 (promises m)) in H by lia.
      rewrite lookup_app_r by lia.
      by destruct (p - length (promises m)) as [|[|k]].
  - intros p. specialize (H p). unfold callbacks_of in *.
    rewrite (registered_trace p m), (fired_trace p m) by apply transition_trace.
    rewrite transition_promises.
    destruct (promises m !! q) as [pq|] eqn:Hq; [|done].
    destruct (state pq); try done.
    destruct (decide (q = p)) as [->|Hne].
    + rewrite Hq in H. rewrite list_lookup_insert_eq by (by eapply lookup_lt_Some). done.
    + by rewrite list_lookup_insert_ne.
  - intros p. specialize (H p). unfold callbacks_of in *.
    unfold registered, fired in *.
    rewrite addCallback_trace, addCallback_promises.
    destruct (promises m !! q) as [pq|] eqn:Hq; [|done].
    rewrite !omap_app. cbn.
    destruct (decide (q = p)) as [->|Hne].
    + rewrite Hq in H. rewrite list_lookup_insert_eq by (by eapply lookup_lt_Some).
      rewrite Nat.eqb_refl. cbn. rewrite H, app_nil_r. by rewrite app_assoc.
    + rewrite list_lookup_insert_ne by done.
      apply Nat.eqb_neq in Hne. rewrite Hne. cbn. by rewrite !app_nil_r.
  - intros p. specialize (H p). rewrite registered_log, fired_log, app_nil_r.
    rewrite (registered_trace p m) by done. rewrite (fired_trace p m) by done.
    unfold callbacks_of in *. cbn.
    destruct (decide (q = p)) as [->|Hne].
    + rewrite Hq in H. rewrite list_lookup_insert_eq by (by eapply lookup_lt_Some).
      rewrite Nat.eqb_refl. cbn. rewrite H, Hc. by rewrite <- app_assoc.
    + rewrite list_lookup_insert_ne by done.
      apply Nat.eqb_neq in Hne. rewrite Hne. by rewrite app_nil_r.
  - intros p. specialize (H p).
    unfold registered, fired, callbacks_of in *.
    rewrite get_then_trace, get_then_promises.
    destruct w; try done. by rewrite !omap_app, !app_nil_r.
Qed.

Lemma steps_fifo m m' : rtc step m m' -> fifo m -> fifo m'.
Proof. apply steps_preserve, step_fifo. Qed.

Lemma fifo_initial : fifo initial.
Proof. intros p. unfold callbacks_of. cbn. by rewrite lookup_nil. Qed.

(** ** Unfolding the evaluator at the closures of the class *)

Lemma call_resolver n d p args m :
  call (S n) d (VNative (FResolver p)) args m
  = _resolver (call n (S d)) p (lookup_var args 0)
      (log (EvCall (turn m) d (VNative (FResolver p)) args) m).
Proof. reflexivity. Qed.

Lemma call_reject n d p args m :
  call (S n) d (VNative (FReject p)) args m
  = done_ (_reject p (lookup_var args 0)
             (log (EvCall (turn m) d (VNative (FReject p)) args) m)).
Proof. reflexivity. Qed.

Lemma call_member n d fn fb res rej args m :
  call (S n) d (VNative (FMember fn fb res rej)) args m
  = member (call n (S d)) fn fb res rej (lookup_var args 0)
      (log (EvCall (turn m) d (VNative (FMember fn fb res rej)) args) m).
Proof. reflexivity. Qed.

Lemma call_once_resolver n d p l args m :
  call (S n) d (VNative (FOnceResolver p l)) args m
  = once l (_resolver (call n (S d)) p (lookup_var args 0))
      (log (EvCall (turn m) d (VNative (FOnceResolver p l)) args) m).
Proof. reflexivity. Qed.

Lemma call_once_reject n d p l args m :
  call (S n) d (VNative (FOnceReject p l)) args m
  = once l (fun m1 => done_ (_reject p (lookup_var args 0) m1))
      (log (EvCall (turn m) d (VNative (FOnceReject p l)) args) m).
Proof. reflexivity. Qed.


(** ** Settlement of one instance *)

Lemma transition_lookup p st v m pr :
  promises m !! p = Some pr -> state pr = pending ->
  promises (_transition p st v m) !! p = Some (mkPromise v st (callbacks pr)).
Proof.
  intros Hp Hs. rewrite (transition_pending _ _ _ _ _ Hp Hs).
  apply list_lookup_insert_eq. by eapply lookup_lt_Some.
Qed.

(** C5. Self-resolution: calling the resolving function of a pending
    instance with the instance itself returns (for every positive fuel, so it
    cannot hang) and leaves the instance rejected with the TypeError, its
    reactions kept; whatever the state before, the instance is not pending
    afterwards and it is never fulfilled by this call. *)
Theorem self_resolution_rejects n d p m pr :
  promises m !! p = Some pr ->
  exists m',
    call (S n) d (VNative (FResolver p)) [VPromise p] m = Some (Ret (VPrim undefined), m')
    /\ (state pr = pending ->
        promises m' !! p = Some (mkPromise self_error rejected (callbacks pr)))
    /\ (state pr <> pending -> promises m' !! p = Some pr)
    /\ state_of p m' <> Some pending.
Proof.
  intros Hp. rewrite call_resolver. cbn [lookup_var lookup list_lookup].
  unfold _resolver. rewrite Nat.eqb_refl.
  set (m0 := log _ m).
  assert (Hp0 : promises m0 !! p = Some pr) by done.
  eexists. split; [reflexivity|].
  split; [|split].
  - intros Hs. by apply transition_lookup.
  - intros Hs. unfold _reject. by rewrite (transition_settled _ _ _ _ _ Hp0 Hs).
  - unfold state_of, _reject. destruct (state pr) eqn:Hs.
    + by rewrite (transition_lookup _ _ _ _ _ Hp0 Hs).
    + rewrite (transition_settled _ _ _ _ pr Hp0) by (by rewrite Hs).
      rewrite Hp0. cbn. by rewrite Hs.
    + rewrite (transition_settled _ _ _ _ pr Hp0) by (by rewrite Hs).
      rewrite Hp0. cbn. by rewrite Hs.
Qed.

Lemma self_resolution_rejects_witness :
  exists m',
    call 1 0 (VNative (FResolver 0)) [VPromise 0] (snd (alloc_promise initial))
      = Some (Ret (VPrim undefined), m')
    /\ promises m' !! 0 = Some (mkPromise self_error rejected []).
Proof.
  destruct (self_resolution_rejects 0 0 0 (snd (alloc_promise initial)) new_promise)
    as (m' & Hrun & Hrej & _); [reflexivity|].
  exists m'. split; [exact Hrun|]. apply Hrej. reflexivity.
Defined.

(** ** Reading [then] and the flag *)

Lemma get_then_latches v m : latches (snd (get_then v m)) = latches m.
Proof.
  unfold get_then. destruct v as [| | |o| |]; try done.
  destruct (objects m !! o) as [[|t|[|r rs]]|]; done.
Qed.

Lemma get_then_set_latches f v m :
  get_then v (set_latches f m)
  = (fst (get_then v m), set_latches f (snd (get_then v m))).
Proof.
  unfold get_then. destruct v as [| | |o| |]; try done. cbn.
  destruct (objects m !! o) as [[|t|[|r rs]]|]; done.
Qed.

Lemma wasCalled_fresh m m' :
  latches m' = latches m ++ [false] -> wasCalled (length (latches m)) m' = false.
Proof.
  intros H. unfold wasCalled. rewrite H.
  rewrite lookup_app_r by lia. by rewrite Nat.sub_diag.
Qed.

Lemma executeCallbacks_latches p m : latches (_executeCallbacks p m) = latches m.
Proof.
  unfold _executeCallbacks.
  destruct (promises m !! p) as [pr|]; [|done]. by destruct (state pr).
Qed.

Lemma transition_latches p st v m : latches (_transition p st v m) = latches m.
Proof.
  unfold _transition. destruct (promises m !! p) as [pr|]; [|done].
  destruct (state pr); try done. by rewrite executeCallbacks_latches.
Qed.

(** [_handleThen] with the flag evaluated: the member [then] is read once,
    in the machine [m1] right after the flag is allocated, and the rest of
    the call is determined by the outcome [r] of that one read. *)
Lemma handleThen_read_once call p v m :
  let l := length (latches m) in
  let r := fst (get_then v m) in
  let m1 := set_latches (fun h => h ++ [false]) (snd (get_then v m)) in
  let mark := set_latches (fun h => <[l := true]> h) in
  _handleThen call p v m
  = match r with
    | Throw e => done_ (mark (_reject p e m1))
    | Ret t =>
        if isFunction t
        then
          match call t [VNative (FOnceResolver p l); VNative (FOnceReject p l)] m1 with
          | Some (Ret _, m3) => done_ m3
          | Some (Throw e, m3) => once l (fun m4 => done_ (_reject p e m4)) m3
          | None => None
          end
        else done_ (mark (_fulfill p v m1))
    end.
Proof.
  intros l r m1 mark. unfold _handleThen, try_catch.
  rewrite get_then_set_latches. fold r. fold m1.
  assert (Hl : wasCalled (length (latches m)) m1 = false).
  { apply wasCalled_fresh. cbn. by rewrite get_then_latches. }
  destruct r as [t|e].
  - destruct (isFunction t).
    + by destruct (call t _ m1) as [[[x|e] m3]|].
    + unfold once. by rewrite Hl.
  - unfold once. by rewrite Hl.
Qed.

Lemma handleThen_no_throw call p v m e m' :
  _handleThen call p v m <> Some (Throw e, m').
Proof.
  rewrite handleThen_read_once. cbv zeta.
  destruct (fst (get_then v m)) as [t|e0]; [|done].
  destruct (isFunction t); [|done].
  destruct (call t _ _) as [[[x|e1] m3]|]; try done.
  unfold once. by destruct (wasCalled _ m3).
Qed.

Lemma resolver_no_throw call p v m e m' :
  _resolver call p v m <> Some (Throw e, m').
Proof.
  unfold _resolver.
  destruct v as [x| |q| | |];
    try (destruct (_ && _); [apply handleThen_no_throw|done]).
  destruct (q =? p); [done|]. by destruct (then_ q _ _ m).
Qed.

Lemma get_then_fst_objects v m m' :
  objects m' = objects m -> fst (get_then v m') = fst (get_then v m).
Proof.
  intros H. unfold get_then. destruct v as [| | |o| |]; try done.
  rewrite H. destruct (objects m !! o) as [[|t|[|r rs]]|]; done.
Qed.

(** ** Ordinary values *)

Lemma resolver_ordinary call p v t m pr :
  isPromise v = false -> fst (get_then v m) = Ret t -> isFunction t = false ->
  promises m !! p = Some pr -> state pr = pending ->
  exists m',
    _resolver call p v m = Some (Ret (VPrim undefined), m')
    /\ promises m' !! p = Some (mkPromise v resolved (callbacks pr))
    /\ length (promises m') = length (promises m).
Proof.
  intros Hv Hr Ht Hp Hs.
  assert (Hdirect : exists m', done_ (_fulfill p v m) = Some (Ret (VPrim undefined), m')
            /\ promises m' !! p = Some (mkPromise v resolved (callbacks pr))
            /\ length (promises m') = length (promises m)).
  { eexists. split; [reflexivity|]. split; [by apply transition_lookup|].
    unfold _fulfill. rewrite (transition_pending _ _ _ _ _ Hp Hs). apply length_insert. }
  assert (Hthen : exists m', _handleThen call p v m = Some (Ret (VPrim undefined), m')
            /\ promises m' !! p = Some (mkPromise v resolved (callbacks pr))
            /\ length (promises m') = length (promises m)).
  { rewrite handleThen_read_once. cbv zeta. rewrite Hr, Ht.
    eexists. split; [reflexivity|]. cbn [promises set_latches].
    assert (Hp1 : promises (set_latches (fun h => h ++ [false]) (snd (get_then v m))) !! p
                  = Some pr) by (cbn; by rewrite get_then_promises).
    split; [by apply transition_lookup|].
    unfold _fulfill. rewrite (transition_pending _ _ _ _ _ Hp1 Hs), length_insert.
    cbn. by rewrite get_then_promises. }
  unfold _resolver.
  destruct v as [x| |q| | |]; try done; by destruct (_ && _).
Qed.

(** C7 (amended). A value that is not an instance of the class and whose
    [then] member is read without an exception and is not callable (for
    primitives the member is not read at all) fulfills the instance it is
    resolved with, directly and with exactly that value; [resolve] of such a
    value returns a new instance fulfilled with it. *)
Theorem ordinary_value_fulfills call v t m :
  isPromise v = false -> fst (get_then v m) = Ret t -> isFunction t = false ->
  (forall p pr, promises m !! p = Some pr -> state pr = pending ->
     exists m',
       _resolver call p v m = Some (Ret (VPrim undefined), m')
       /\ promises m' !! p = Some (mkPromise v resolved (callbacks pr)))
  /\ (exists m',
        resolve call v m = Some (length (promises m), m')
        /\ promises m' !! length (promises m) = Some (mkPromise v resolved [])).
Proof.
  intros Hv Hr Ht. split.
  - intros p pr Hp Hs.
    destruct (resolver_ordinary call p v t m pr) as (m' & H1 & H2 & _); eauto.
  - unfold resolve. cbn [alloc_promise].
    set (m0 := set_promises _ m).
    destruct (resolver_ordinary call (length (promises m)) v t m0 new_promise)
      as (m' & H1 & H2 & _); try done.
    + by rewrite (get_then_fst_objects v m m0).
    + cbn. rewrite lookup_app_r by lia. by rewrite Nat.sub_diag.
    + rewrite H1. eauto.
Qed.

Lemma ordinary_value_fulfills_witness :
  exists m',
    resolve (call 1 1) (VPrim (PNum 7)) initial = Some (0, m')
    /\ promises m' !! 0 = Some (mkPromise (VPrim (PNum 7)) resolved []).
Proof.
  apply (ordinary_value_fulfills (call 1 1) (VPrim (PNum 7)) (VPrim undefined) initial);
    reflexivity.
Defined.

(** C7 as stated fails: an object whose [then] accessor throws is not an
    instance of the class and has no callable [then] member, yet resolving
    with it rejects the new instance with the thrown value. *)
Lemma throwing_getter_is_not_fulfilled :
  isPromise (VObject 0) = false
  /\ has_callable_then (VObject 0) throwing_getter = false
  /\ exists m',
       resolve (call 1 1) (VObject 0) throwing_getter = Some (0, m')
       /\ promises m' !! 0 = Some (mkPromise (VPrim (PStr "boom")) rejected []).
Proof.
  split; [done|]. split; [done|].
  eexists. split; [vm_compute; reflexivity|]. vm_compute; reflexivity.
Qed.

(** ** Rejection *)

Lemma reject_lookup reason m :
  promises (snd (reject reason m)) !! length (promises m)
  = Some (mkPromise reason rejected []).
Proof.
  unfold reject. cbn [alloc_promise snd].
  set (m0 := set_promises _ m).
  apply (transition_lookup _ _ _ m0 new_promise); [|done].
  cbn. rewrite lookup_app_r by lia. by rewrite Nat.sub_diag.
Qed.

(** C8. [reject(r)] returns a new instance that is rejected with exactly
    [r]: nothing is read from [r] (no [then] lookup, no call, no reaction
    registered, the object and flag stores untouched), whatever [r] is; the
    only other effect is the scheduling of the (empty) drain; and the
    instance stays rejected with [r] through every later turn. *)
Theorem reject_keeps_reason reason m turns fuel m' :
  run_tasks turns fuel (snd (reject reason m)) = Some m' ->
  let p := length (promises m) in
  let m0 := snd (reject reason m) in
  fst (reject reason m) = p
  /\ promises m0 = promises m ++ [mkPromise reason rejected []]
  /\ objects m0 = objects m /\ latches m0 = latches m /\ trace m0 = trace m
  /\ tasks m0 = tasks m ++ [VNative (FFire p m_onRejected)]
  /\ settled_as p rejected reason m'.
Proof.
  intros Hrun p m0.
  assert (Hm0 : m0 = mkMachine (promises m ++ [mkPromise reason rejected []])
                  (latches m) (objects m)
                  (tasks m ++ [VNative (FFire p m_onRejected)]) (turn m) (trace m)).
  { unfold m0, reject, _reject, _transition, _executeCallbacks.
    cbn [alloc_promise snd set_promises promises].
    rewrite lookup_app_r by lia. rewrite Nat.sub_diag. cbn.
    rewrite list_lookup_insert_eq by (rewrite length_app; cbn; lia). cbn.
    unfold runAsync, set_tasks, set_promise, set_promises. cbn. f_equal.
    rewrite insert_app_r_alt by lia. by rewrite Nat.sub_diag. }
  split; [done|]. rewrite Hm0. repeat (split; [done|]).
  eapply steps_settled; [done|eapply run_tasks_steps, Hrun|].
  eexists. split; [apply reject_lookup|done].
Qed.

Lemma reject_keeps_reason_witness :
  exists m',
    run_tasks 2 3 (snd (reject (VObject 0) throwing_getter)) = Some m'
    /\ settled_as 0 rejected (VObject 0) m'.
Proof.
  eexists. split; [vm_compute; reflexivity|].
  apply (reject_keeps_reason (VObject 0) throwing_getter 2 3). vm_compute; reflexivity.
Defined.

(** ** Duck-typed thenables *)

(** C10. Inside [_handleThen] the member [then] is read exactly once: the
    call equals a continuation that starts from the machine [m1] reached by
    that single read and that depends on the object only through the outcome
    [r] of the read.  An accessor therefore advances by exactly one read and
    the trace gains exactly one read event before anything else happens.  If
    the read throws, the (fresh, hence unfired) flag lets the rejection
    through: a pending instance ends rejected with the thrown value. *)
Theorem then_member_read_once call p v m pr :
  promises m !! p = Some pr -> state pr = pending ->
  let l := length (latches m) in
  let r := fst (get_then v m) in
  let m1 := set_latches (fun h => h ++ [false]) (snd (get_then v m)) in
  let mark := set_latches (fun h => <[l := true]> h) in
  _handleThen call p v m
  = match r with
    | Throw e => done_ (mark (_reject p e m1))
    | Ret t =>
        if isFunction t
        then
          match call t [VNative (FOnceResolver p l); VNative (FOnceReject p l)] m1 with
          | Some (Ret _, m3) => done_ m3
          | Some (Throw e, m3) => once l (fun m4 => done_ (_reject p e m4)) m3
          | None => None
          end
        else done_ (mark (_fulfill p v m1))
    end
  /\ (forall o, v = VObject o ->
        trace m1 = trace m ++ [EvGetThen (turn m) o]
        /\ forall x rs, objects m !! o = Some (PGetter (x :: rs)) ->
             r = x /\ objects m1 = <[o := PGetter rs]> (objects m))
  /\ (forall e, r = Throw e ->
        promises (mark (_reject p e m1)) !! p
        = Some (mkPromise e rejected (callbacks pr))).
Proof.
  intros Hp Hs l r m1 mark. split; [apply handleThen_read_once|]. split.
  - intros o ->. subst r m1. unfold get_then. split.
    + by destruct (objects m !! o) as [[|t|[|x rs]]|].
    + intros x rs ->. done.
  - intros e _. cbn [promises mark set_latches]. apply transition_lookup; [|done].
    subst m1. cbn. by rewrite get_then_promises.
Qed.

Lemma then_member_read_once_witness :
  exists m',
    _handleThen (call 1 1) 0 (VObject 0) (snd (alloc_promise throwing_getter))
      = Some (Ret (VPrim undefined), m')
    /\ promises m' !! 0 = Some (mkPromise (VPrim (PStr "boom")) rejected [])
    /\ objects m' = [PGetter []].
Proof.
  destruct (then_member_read_once (call 1 1) 0 (VObject 0)
              (snd (alloc_promise throwing_getter)) new_promise)
    as (Hrun & _ & Hrej); [reflexivity|reflexivity|].
  eexists. split; [exact Hrun|]. split; [|reflexivity].
  exact (Hrej (VPrim (PStr "boom")) eq_refl).
Defined.

(** An accessor that would answer differently on a second read is asked
    once: the first function is the one called, the second stays unread. *)
Example two_faced_getter_is_read_once :
  (fun r => (promises (snd r), objects (snd r)))
    <$> resolve (call 3 1) (VObject 0) two_faced_getter
  = Some ([mkPromise (VPrim (PStr "one")) resolved []], [PGetter [Ret then_two]]).
Proof. vm_compute. reflexivity. Qed.

(** ** Chaining *)

Lemma then_promises q onF onR m pq :
  promises m !! q = Some pq ->
  promises (snd (then_ q onF onR m))
  = <[q := mkPromise (value pq) (state pq)
             (callbacks pq ++ [reaction (length (promises m)) onF onR])]>
      (promises m ++ [new_promise]).
Proof.
  intros Hq. unfold then_. cbn [alloc_promise snd].
  rewrite addCallback_promises. cbn [promises set_promises].
  rewrite lookup_app_l by (by eapply lookup_lt_Some). by rewrite Hq.
Qed.

Lemma then_new_instance q onF onR m pq :
  promises m !! q = Some pq ->
  let p' := length (promises m) in
  fst (then_ q onF onR m) = p'
  /\ promises m !! p' = None
  /\ promises (snd (then_ q onF onR m)) !! p' = Some new_promise
  /\ callbacks_of q (snd (then_ q onF onR m))
     = callbacks_of q m ++ [reaction p' onF onR].
Proof.
  intros Hq p'.
  assert (Hlt : q < length (promises m)) by (by eapply lookup_lt_Some).
  split; [done|]. split; [by apply lookup_ge_None_2|].
  unfold callbacks_of. rewrite (then_promises _ _ _ _ _ Hq), Hq. split.
  - rewrite list_lookup_insert_ne by (unfold p'; lia).
    rewrite lookup_app_r by lia. by rewrite Nat.sub_diag.
  - rewrite list_lookup_insert_eq by (rewrite length_app; lia). done.
Qed.

(** C4. [then] returns at once a new pending instance [p'] and appends one
    reaction to the source [q].  Fired with the payload [v], the member of
    that reaction selected by the state behaves as follows.  If the matching
    handler [h] is callable it is invoked with [v]; when it returns [r] the
    Resolution Procedure [_resolver] of [p'] runs on [r]; when it throws [e],
    [p'] is rejected with [e].  If [h] is not callable, a fulfillment value
    goes to [_resolver] of [p'] and a rejection reason goes to [_reject] of
    [p'] unchanged.  Such a call of [_reject] leaves the still pending [p']
    rejected with exactly the value it was given. *)
Theorem then_forwards q onF onR m pq :
  promises m !! q = Some pq ->
  let p' := length (promises m) in
  let res := VNative (FResolver p') in
  let rej := VNative (FReject p') in
  (fst (then_ q onF onR m) = p'
   /\ promises m !! p' = None
   /\ promises (snd (then_ q onF onR m)) !! p' = Some new_promise
   /\ callbacks_of q (snd (then_ q onF onR m))
      = callbacks_of q m ++ [reaction p' onF onR])
  /\ (forall n d mb v m1,
       let h := handler_of mb onF onR in
       let f := get_member mb (reaction p' onF onR) in
       let m2 := log (EvCall (turn m1) d f [v]) m1 in
       call (S (S n)) d f [v] m1
       = if isFunction h
         then
           match call (S n) (S d) h [v] m2 with
           | Some (Ret r, m3) =>
               match _resolver (call n (S (S d))) p' r
                       (log (EvCall (turn m3) (S d) res [r]) m3) with
               | Some (_, m4) => done_ m4
               | None => None
               end
           | Some (Throw e, m3) =>
               done_ (_reject p' e (log (EvCall (turn m3) (S d) rej [e]) m3))
           | None => None
           end
         else
           match mb with
           | m_onFulfilled =>
               _resolver (call n (S (S d))) p' v (log (EvCall (turn m2) (S d) res [v]) m2)
           | m_onRejected =>
               done_ (_reject p' v (log (EvCall (turn m2) (S d) rej [v]) m2))
           end)
  /\ (forall e ev m3 pr',
        promises m3 !! p' = Some pr' -> state pr' = pending ->
        promises (_reject p' e (log ev m3)) !! p'
        = Some (mkPromise e rejected (callbacks pr'))).
Proof.
  intros Hq p' res rej.
  split; [by apply (then_new_instance q onF onR m pq)|].
  split; [|intros e ev m3 pr' Hp Hs; by apply transition_lookup].
  intros n d mb v m1 h f m2.
  {
    assert (Hcall : call (S (S n)) d f [v] m1
              = member (call (S n) (S d)) h
                  (match mb with m_onFulfilled => res | m_onRejected => rej end)
                  res rej v m2) by (by destruct mb).
    rewrite Hcall. unfold member.
    destruct (isFunction h).
    + unfold try_catch, bindc.
      destruct (call (S n) (S d) h [v] m2) as [[[r|e] m3]|]; [| |done].
      * subst res. rewrite call_resolver. cbn [lookup_var lookup list_lookup].
        pose proof (resolver_no_throw (call n (S (S d))) p' r
          (log (EvCall (turn m3) (S d) (VNative (FResolver p')) [r]) m3)) as Hnt.
        destruct (_resolver _ p' r _) as [[[x|e] m4]|]; [done| |done].
        by destruct (Hnt e m4).
      * subst rej. by rewrite call_reject.
    + destruct mb; [subst res; by rewrite call_resolver|subst rej; by rewrite call_reject].
  }
Qed.

Lemma then_forwards_witness :
  let h := VClosure 1 (SReturn (ESucc (EVar 0))) [] in
  let m := snd (reject (VPrim (PNum 1)) initial) in
  fst (then_ 0 (VPrim undefined) h m) = 1
  /\ callbacks_of 0 (snd (then_ 0 (VPrim undefined) h m))
     = [reaction 1 (VPrim undefined) h].
Proof.
  intros h m.
  destruct (then_forwards 0 (VPrim undefined) h m
              (mkPromise (VPrim (PNum 1)) rejected []))
    as [(H1 & _ & _ & H4) _]; [reflexivity|].
  split; [exact H1|exact H4].
Defined.

(** The two scenarios of the specification, run to the end. *)
Example increment_fulfills_with_2 :
  promises <$> run_program 3 4 prog_increment initial
  = Some [mkPromise (VPrim (PNum 1)) resolved [];
          mkPromise (VPrim (PNum 2)) resolved []].
Proof. vm_compute. reflexivity. Qed.

Example recover_fulfills_with_4 :
  promises <$> run_program 3 4 prog_recover initial
  = Some [mkPromise (VPrim (PStr "boom")) rejected [];
          mkPromise (VPrim (PNum 4)) resolved []].
Proof. vm_compute. reflexivity. Qed.

Example no_handlers_pass_through :
  promises <$> run_program 4 4 prog_passthrough initial
  = Some [mkPromise (VPrim (PNum 5)) resolved [];
          mkPromise (VPrim (PNum 5)) resolved [];
          mkPromise (VPrim (PStr "r")) rejected [];
          mkPromise (VPrim (PStr "r")) rejected []].
Proof. vm_compute. reflexivity. Qed.

Example thenable_result_is_unwrapped :
  promises <$> run_program 6 5 prog_unwrap_async initial
  = Some [mkPromise (VPrim (PNum 1)) resolved [];
          mkPromise (VPrim (PStr "y")) resolved [];
          mkPromise (VPrim (PStr "y")) resolved []].
Proof. vm_compute. reflexivity. Qed.

(** ** Draining *)

Lemma fire_empty n d p mb m :
  callbacks_of p m = [] -> fire (S n) d p mb m = done_ m.
Proof.
  unfold callbacks_of. cbn [fire].
  destruct (promises m !! p) as [pr|]; [|done]. by intros ->.
Qed.

Lemma fire_returns_empty fuel d p mb m x m' :
  fire fuel d p mb m = Some (Ret x, m') -> callbacks_of p m' = [].
Proof.
  revert m. induction fuel as [|n IH]; intros m; [done|]. cbn [fire].
  unfold callbacks_of at 1.
  destruct (promises m !! p) as [pr|] eqn:Hp.
  - destruct (callbacks pr) as [|cb rest] eqn:Hc.
    + intros [= <- <-]. unfold callbacks_of. by rewrite Hp.
    + destruct (call n d _ _ _) as [[[r|e] m2]|]; [apply IH|done|done].
  - intros [= <- <-]. unfold callbacks_of. by rewrite Hp.
Qed.

Lemma fire_steps fuel d p mb m o m' :
  fire fuel d p mb m = Some (o, m') -> rtc step m m'.
Proof. apply call_fire_sound. Qed.

Example two_reactions_fire_in_order :
  fired 0 <$> run_program 3 6 prog_two_reactions initial
  = Some [reaction 1 (VClosure 1 (SReturn (ELit (PStr "first"))) [VPromise 0])
            (VPrim undefined);
          reaction 2 (VClosure 1 (SReturn (ELit (PStr "second"))) [VPromise 0])
            (VPrim undefined)].
Proof. vm_compute. reflexivity. Qed.

(** ** The flag shared by the two callbacks *)

(** Once the flag is set, either callback only returns. *)
Lemma flag_set_blocks n d p l args m :
  wasCalled l m = true ->
  call (S n) d (VNative (FOnceResolver p l)) args m
    = done_ (log (EvCall (turn m) d (VNative (FOnceResolver p l)) args) m)
  /\ call (S n) d (VNative (FOnceReject p l)) args m
     = done_ (log (EvCall (turn m) d (VNative (FOnceReject p l)) args) m).
Proof.
  intros Hw. rewrite call_once_resolver, call_once_reject. unfold once.
  assert (H : forall e, wasCalled l (log e m) = true) by (intros e; exact Hw).
  by rewrite !H.
Qed.

(** Calls made one after the other: the second is ignored. *)
Example resolve_twice_uses_first :
  exists m',
    run_main 3 [] prog_resolve_twice initial = Some (Ret (VPrim undefined), m')
    /\ latch_calls 0 m'
       = [(VNative (FOnceResolver 0 0), [VPrim (PStr "first")]);
          (VNative (FOnceResolver 0 0), [VPrim (PStr "second")])]
    /\ promises m' = [mkPromise (VPrim (PStr "first")) resolved []].
Proof. eexists. split; [vm_compute; reflexivity|]. repeat split; vm_compute; reflexivity. Qed.

(** C2 fails on the code.  [once] sets [wasCalled] only after [fn] has
    returned, so a call of either callback made while the first call is
    still running is let through.  Here the thenable's resolve callback is
    called first with the inner thenable (object 1) and then, from inside
    that call, with "second"; the inner thenable afterwards resolves with
    "first".  The instance ends fulfilled with "second", the value of the
    second invocation. *)
Theorem latch_lets_nested_call_through :
  exists m',
    run_main 5 [] prog_resolve_reentrant initial = Some (Ret (VPrim undefined), m')
    /\ latch_calls 0 m'
       = [(VNative (FOnceResolver 0 0), [VObject 1]);
          (VNative (FOnceResolver 0 0), [VPrim (PStr "second")])]
    /\ latch_calls 1 m' = [(VNative (FOnceResolver 0 1), [VPrim (PStr "first")])]
    /\ promises m' = [mkPromise (VPrim (PStr "second")) resolved []].
Proof. eexists. split; [vm_compute; reflexivity|]. repeat split; vm_compute; reflexivity. Qed.

(** ** Registration during a drain *)

(** C3 as stated fails: the reaction that a handler registers on the
    instance being drained is registered in turn 1 and is fired, and its
    handler invoked, in that same turn 1 by the [while] loop of [fire]. *)
Lemma registered_in_drain_fires_same_turn :
  exists m',
    run_program 1 5 prog_register_in_drain initial = Some m'
    /\ let inner := VClosure 1 (SReturn (ELit (PStr "inner")))
                      [VPrim (PNum 1); VPromise 0] in
       In (EvRegister 1 0 (reaction 2 inner (VPrim undefined))) (trace m')
       /\ In (EvFire 1 0 (reaction 2 inner (VPrim undefined))) (trace m')
       /\ In (EvCall 1 2 inner [VPrim (PNum 1)]) (trace m').
Proof.
  eexists. split; [vm_compute; reflexivity|]. cbv zeta. cbn.
  repeat split; repeat (first [left; reflexivity|right]).
Qed.

(** ** Chains of thenables *)


(** *** Unwrapping a chain of any length *)

Lemma transition_pending_eq p st v m pr :
  promises m !! p = Some pr -> state pr = pending ->
  _transition p st v m
  = match st with
    | pending => fun m' => m'
    | resolved => runAsync (VNative (FFire p m_onFulfilled))
    | rejected => runAsync (VNative (FFire p m_onRejected))
    end (set_promise p (mkPromise v st (callbacks pr)) m).
Proof.
  intros Hp Hs. unfold _transition, _executeCallbacks. rewrite Hp, Hs.
  rewrite lookup_set_promise by (by eapply lookup_lt_Some). cbn [state].
  by destruct st.
Qed.






Lemma executeCallbacks_turn p m : turn (_executeCallbacks p m) = turn m.
Proof.
  unfold _executeCallbacks.
  destruct (promises m !! p) as [pr|]; [|done]. by destruct (state pr).
Qed.

Lemma executeCallbacks_tasks p m :
  tasks (_executeCallbacks p m) = tasks m
  \/ exists mb, tasks (_executeCallbacks p m) = tasks m ++ [VNative (FFire p mb)].
Proof.
  unfold _executeCallbacks.
  destruct (promises m !! p) as [pr|]; [|by left].
  destruct (state pr); [by left|right; by eexists..].
Qed.

Lemma then_no_code_runs q onF onR m pq :
  promises m !! q = Some pq ->
  let m' := snd (then_ q onF onR m) in
  trace m' = trace m ++ [EvRegister (turn m) q (reaction (length (promises m)) onF onR)]
  /\ turn m' = turn m
  /\ (tasks m' = tasks m \/ exists mb, tasks m' = tasks m ++ [VNative (FFire q mb)]).
Proof.
  intros Hq m'. subst m'. unfold then_. cbn [alloc_promise snd].
  set (m0 := set_promises _ m).
  assert (Hq0 : promises m0 !! q = Some pq).
  { cbn. rewrite lookup_app_l by (by eapply lookup_lt_Some). done. }
  split; [|split].
  - rewrite addCallback_trace, Hq0. done.
  - unfold _addCallback. rewrite Hq0. by rewrite executeCallbacks_turn.
  - unfold _addCallback. rewrite Hq0. set (m1 := log _ _).
    destruct (executeCallbacks_tasks q m1) as [H|[mb H]]; rewrite H;
      [by left|right; by exists mb].
Qed.

Lemma filter_runs_code_register evs t p cb :
  List.filter runs_code (evs ++ [EvRegister t p cb]) = List.filter runs_code evs.
Proof. rewrite List.filter_app. cbn. by rewrite app_nil_r. Qed.

(** ** The drain closure stays with the scheduler *)

Lemma forallb_Forall {A} (f : A -> bool) l :
  forallb f l = true <-> Forall (fun x => f x = true) l.
Proof.
  induction l as [|a l IH]; cbn; [by split|].
  rewrite andb_true_iff, IH. split.
  - intros [H1 H2]. by constructor.
  - intros H. by inversion H.
Qed.

Lemma wf_parts m :
  wf m = true <->
  Forall (fun pr => clean_promise pr = true) (promises m)
  /\ Forall (fun ob => clean_prop ob = true) (objects m)
  /\ Forall (fun t => task_ok (promises m) t = true) (tasks m).
Proof.
  unfold wf. rewrite !andb_true_iff, !forallb_Forall. tauto.
Qed.

Lemma task_ok_clean h t : clean t = true -> task_ok h t = true.
Proof. destruct t as [| | | |[| | | | |p mb]|]; done. Qed.

Lemma task_ok_insert h p old pr t :
  h !! p = Some old -> state pr = state old \/ state old = pending ->
  task_ok h t = true -> task_ok (<[p := pr]> h) t = true.
Proof.
  intros Hp Hst. destruct t as [| | | |[| | | | |q mb]|]; try done. cbn.
  destruct (decide (p = q)) as [<-|Hne].
  - rewrite Hp, list_lookup_insert_eq by (by eapply lookup_lt_Some).
    destruct Hst as [->| ->]; [done|by destruct mb].
  - by rewrite list_lookup_insert_ne.
Qed.

Lemma task_ok_app h x t : task_ok h t = true -> task_ok (h ++ [x]) t = true.
Proof.
  destruct t as [| | | |[| | | | |q mb]|]; try done. cbn.
  destruct (h !! q) as [pr|] eqn:Hq; [|done].
  by rewrite (lookup_app_l_Some _ _ _ _ Hq).
Qed.

Lemma wf_same m m' :
  promises m' = promises m -> objects m' = objects m -> tasks m' = tasks m ->
  wf m' = wf m.
Proof. unfold wf. by intros -> -> ->. Qed.

Lemma fire_events_log e m :
  is_fire_event e = false -> fire_events (log e m) = fire_events m.
Proof.
  intros H. unfold fire_events. cbn. rewrite List.filter_app. cbn.
  by rewrite H, app_nil_r.
Qed.

Lemma fire_events_same m m' : trace m' = trace m -> fire_events m' = fire_events m.
Proof. unfold fire_events. by intros ->. Qed.

Lemma quiet_update_log e : is_fire_event e = false -> quiet_update (log e).
Proof. intros H m Hm. split; [done|]. split; [by apply fire_events_log|done]. Qed.

Lemma quiet_update_same (g : Machine -> Machine) :
  (forall m, promises (g m) = promises m /\ objects (g m) = objects m
             /\ tasks (g m) = tasks m /\ trace (g m) = trace m /\ turn (g m) = turn m) ->
  quiet_update g.
Proof.
  intros H m Hm. destruct (H m) as (H1 & H2 & H3 & H4 & H5).
  split; [by rewrite (wf_same m)|]. split; [by apply fire_events_same|done].
Qed.

Lemma quiet_update_compose g1 g2 :
  quiet_update g1 -> quiet_update g2 -> quiet_update (fun m => g2 (g1 m)).
Proof.
  intros H1 H2 m Hm. destruct (H1 m Hm) as (Ha & Hb & Hc).
  destruct (H2 (g1 m) Ha) as (Hd & He & Hf).
  split; [done|]. split; congruence.
Qed.

Lemma wf_lookup m p pr :
  wf m = true -> promises m !! p = Some pr -> clean_promise pr = true.
Proof.
  intros Hm Hp. apply wf_parts in Hm as (H & _ & _).
  rewrite Forall_lookup in H. by eapply H.
Qed.

Lemma quiet_set_promise p old pr m :
  wf m = true -> promises m !! p = Some old ->
  state pr = state old \/ state old = pending ->
  clean_promise pr = true ->
  wf (set_promise p pr m) = true
  /\ fire_events (set_promise p pr m) = fire_events m
  /\ turn (set_promise p pr m) = turn m.
Proof.
  intros Hm Hp Hst Hpr. split; [|done].
  apply wf_parts in Hm as (H1 & H2 & H3). apply wf_parts.
  split; [cbn; by apply Forall_insert|]. split; [done|]. cbn.
  eapply Forall_impl; [exact H3|]. intros t. by apply (task_ok_insert _ _ old).
Qed.

Lemma quiet_runAsync fn m :
  wf m = true -> task_ok (promises m) fn = true ->
  wf (runAsync fn m) = true
  /\ fire_events (runAsync fn m) = fire_events m
  /\ turn (runAsync fn m) = turn m.
Proof.
  intros Hm Hfn. split; [|done].
  apply wf_parts in Hm as (H1 & H2 & H3). apply wf_parts. split; [done|]. split; [done|].
  cbn. apply Forall_app. split; [done|]. by constructor.
Qed.

Lemma quiet_update_runAsync fn : clean fn = true -> quiet_update (runAsync fn).
Proof. intros Hfn m Hm. apply quiet_runAsync; [done|]. by apply task_ok_clean. Qed.

Lemma quiet_update_alloc : quiet_update (fun m => snd (alloc_promise m)).
Proof.
  intros m Hm. split; [|done].
  apply wf_parts in Hm as (H1 & H2 & H3). apply wf_parts.
  split; [cbn; apply Forall_app; split; [done|]; by constructor|]. split; [done|]. cbn.
  eapply Forall_impl; [exact H3|]. intros t. apply task_ok_app.
Qed.

Lemma quiet_update_executeCallbacks p : quiet_update (_executeCallbacks p).
Proof.
  intros m Hm. unfold _executeCallbacks.
  destruct (promises m !! p) as [pr|] eqn:Hp; [|done].
  destruct (state pr) eqn:Hs; [done| |];
    (apply quiet_runAsync; [done|]; cbn; by rewrite Hp, Hs).
Qed.

Lemma quiet_update_transition p st v :
  clean v = true -> quiet_update (_transition p st v).
Proof.
  intros Hv m Hm. unfold _transition.
  destruct (promises m !! p) as [pr|] eqn:Hp; [|done].
  destruct (state pr) eqn:Hs; [|done..].
  destruct (quiet_set_promise p pr (mkPromise v st (callbacks pr)) m Hm Hp)
    as (H1 & H2 & H3); [by right| |].
  { pose proof (wf_lookup _ _ _ Hm Hp) as Hc. unfold clean_promise in *. cbn.
    apply andb_true_iff in Hc as [_ Hc]. by rewrite Hv, Hc. }
  destruct (quiet_update_executeCallbacks p _ H1) as (H4 & H5 & H6).
  split; [done|]. split; congruence.
Qed.

Lemma quiet_update_addCallback p cb :
  clean_cb cb = true -> quiet_update (_addCallback p cb).
Proof.
  intros Hcb m Hm. unfold _addCallback.
  destruct (promises m !! p) as [pr|] eqn:Hp; [|done].
  set (pr' := mkPromise _ _ _). set (e := EvRegister _ _ _).
  destruct (quiet_set_promise p pr pr' m Hm Hp) as (H1 & H2 & H3); [by left| |].
  { pose proof (wf_lookup _ _ _ Hm Hp) as Hc. unfold clean_promise in *. cbn.
    apply andb_true_iff in Hc as [Hv Hc]. rewrite Hv. cbn.
    rewrite forallb_app, Hc. cbn. by rewrite Hcb. }
  destruct (quiet_update_log e eq_refl _ H1) as (H4 & H5 & H6).
  destruct (quiet_update_executeCallbacks p _ H4) as (H7 & H8 & H9).
  split; [done|]. split; congruence.
Qed.

Lemma quiet_update_then q onF onR :
  clean onF = true -> clean onR = true ->
  quiet_update (fun m => snd (then_ q onF onR m)).
Proof.
  intros HF HR m Hm. unfold then_. cbn [alloc_promise snd].
  destruct (quiet_update_alloc m Hm) as (H1 & H2 & H3). cbn [alloc_promise snd] in *.
  set (cb := mkCallback _ _).
  destruct (quiet_update_addCallback q cb) with (m := set_promises (fun h => h ++ [new_promise]) m)
    as (H4 & H5 & H6); [|done|].
  - unfold clean_cb. cbn. by rewrite HF, HR.
  - split; [done|]. split; congruence.
Qed.

Lemma quiet_update_reject reason :
  clean reason = true -> quiet_update (fun m => snd (reject reason m)).
Proof.
  intros Hr m Hm. unfold reject. cbn [alloc_promise snd].
  destruct (quiet_update_alloc m Hm) as (H1 & H2 & H3). cbn [alloc_promise snd] in *.
  destruct (quiet_update_transition (length (promises m)) rejected reason Hr _ H1)
    as (H4 & H5 & H6).
  split; [done|]. split; unfold _reject; congruence.
Qed.

Lemma quiet_update_object t :
  clean t = true -> quiet_update (set_objects (fun h => h ++ [PData t])).
Proof.
  intros Ht m Hm. split; [|done].
  apply wf_parts in Hm as (H1 & H2 & H3). apply wf_parts. split; [done|]. split; [|done].
  cbn. apply Forall_app. split; [done|]. by constructor.
Qed.

Lemma quiet_get_then v m :
  wf m = true ->
  wf (snd (get_then v m)) = true
  /\ clean_outcome (fst (get_then v m)) = true
  /\ fire_events (snd (get_then v m)) = fire_events m
  /\ turn (snd (get_then v m)) = turn m.
Proof.
  intros Hm. unfold get_then. destruct v as [| | |o| |]; try done.
  pose proof Hm as Hm'. apply wf_parts in Hm' as (H1 & H2 & H3).
  destruct (objects m !! o) as [[|t|[|r rs]]|] eqn:Ho; cbn [fst snd];
    try (split; [done|]; split; [|by split; [apply fire_events_log|]]); try done.
  - rewrite Forall_lookup in H2. by apply (H2 _ _ Ho).
  - rewrite Forall_lookup in H2. specialize (H2 _ _ Ho). cbn in H2.
    apply andb_true_iff in H2 as [Hr Hrs].
    split; [|split; [done|by split; [apply fire_events_log|]]].
    apply wf_parts. split; [done|]. split; [|done]. cbn.
    apply Forall_insert; [|done]. rewrite Forall_lookup. intros i x Hi.
    by apply (proj1 (Forall_lookup _ _) (proj1 (proj2 (proj1 (wf_parts m) Hm))) i x).
Qed.

Lemma quiet_ret o : clean_outcome o = true -> quiet (fun m => Some (o, m)).
Proof. intros Ho m o' m' Hm [= <- <-]. done. Qed.

Lemma quiet_done g : quiet_update g -> quiet (fun m => done_ (g m)).
Proof.
  intros Hg m o m' Hm [= <- <-]. destruct (Hg m Hm) as (H1 & H2 & H3). done.
Qed.

Lemma quiet_bindc c k :
  quiet c -> (forall v, clean v = true -> quiet (k v)) -> quiet (bindc c k).
Proof.
  intros Hc Hk m o m' Hm. unfold bindc.
  destruct (c m) as [[[v|e] m1]|] eqn:E; [| |done].
  - destruct (Hc _ _ _ Hm E) as (H1 & H2 & H3 & H4). intros H.
    destruct (Hk v H2 _ _ _ H1 H) as (H5 & H6 & H7 & H8).
    split; [done|]. split; [done|]. split; congruence.
  - intros [= <- <-]. by apply (Hc _ _ _ Hm E).
Qed.

Lemma quiet_try_catch c h :
  quiet c -> (forall v, clean v = true -> quiet (h v)) -> quiet (try_catch c h).
Proof.
  intros Hc Hh m o m' Hm. unfold try_catch.
  destruct (c m) as [[[v|e] m1]|] eqn:E; [| |done].
  - intros [= <- <-]. by apply (Hc _ _ _ Hm E).
  - destruct (Hc _ _ _ Hm E) as (H1 & H2 & H3 & H4). intros H.
    destruct (Hh e H2 _ _ _ H1 H) as (H5 & H6 & H7 & H8).
    split; [done|]. split; [done|]. split; congruence.
Qed.

Lemma quiet_once l fn : quiet fn -> quiet (once l fn).
Proof.
  intros Hf m o m' Hm. unfold once.
  destruct (wasCalled l m); [intros [= <- <-]; done|].
  destruct (fn m) as [[[v|e] m1]|] eqn:E; [| |done].
  - intros [= <- <-]. by destruct (Hf _ _ _ Hm E) as (H1 & H2 & H3 & H4).
  - intros [= <- <-]. by apply (Hf _ _ _ Hm E).
Qed.

Lemma quiet_after g c : quiet_update g -> quiet c -> quiet (fun m => c (g m)).
Proof.
  intros Hg Hc m o m' Hm H. destruct (Hg m Hm) as (H1 & H2 & H3).
  destruct (Hc _ _ _ H1 H) as (H4 & H5 & H6 & H7).
  split; [done|]. split; [done|]. split; congruence.
Qed.

Lemma clean_lookup_var env i :
  forallb clean env = true -> clean (lookup_var env i) = true.
Proof.
  intros H. unfold lookup_var. destruct (env !! i) as [v|] eqn:E; [|done].
  apply forallb_Forall in H. rewrite Forall_lookup in H. by apply (H i v).
Qed.

Lemma clean_bind_params params args :
  forallb clean args = true -> forallb clean (bind_params params args) = true.
Proof.
  intros H. unfold bind_params. apply forallb_Forall. apply Forall_take.
  apply Forall_app. split; [by apply forallb_Forall|].
  by apply Forall_replicate.
Qed.

Section Quiet.

Variable call : CallT.
Hypothesis call_quiet :
  forall f args, clean f = true -> forallb clean args = true -> quiet (call f args).

Lemma quiet_handleThen_body p v l :
  clean v = true ->
  quiet (try_catch
           (fun m1 =>
              match get_then v m1 with
              | (Throw e, m2) => Some (Throw e, m2)
              | (Ret t, m2) =>
                  if isFunction t
                  then
                    match call t [VNative (FOnceResolver p l); VNative (FOnceReject p l)] m2 with
                    | Some (Ret _, m3) => done_ m3
                    | r => r
                    end
                  else once l (fun m3 => done_ (_fulfill p v m3)) m2
              end)
           (fun reason => once l (fun m3 => done_ (_reject p reason m3)))).
Proof.
  intros Hv. apply quiet_try_catch.
  - intros m o m' Hm.
    destruct (quiet_get_then v m Hm) as (H1 & H2 & H3 & H4).
    destruct (get_then v m) as [[t|e] m2]; cbn [fst snd] in *.
    + destruct (isFunction t).
      * destruct (call t _ m2) as [[[r|e] m3]|] eqn:E; [| |done];
          intros [= <- <-];
          destruct (call_quiet t [VNative (FOnceResolver p l); VNative (FOnceReject p l)]
                      H2 eq_refl _ _ _ H1 E) as (H5 & H6 & H7 & H8);
          (split; [done|]; split; [done|]; split; congruence).
      * intros H.
        destruct (quiet_once l (fun m3 => done_ (_fulfill p v m3))) with (m := m2) (o := o) (m' := m')
          as (H5 & H6 & H7 & H8); try done.
        -- apply quiet_done. by apply quiet_update_transition.
        -- split; [done|]. split; [done|]. split; congruence.
    + intros [= <- <-]. done.
  - intros reason Hr. apply quiet_once, quiet_done. by apply quiet_update_transition.
Qed.

Lemma quiet_handleThen p v : clean v = true -> quiet (_handleThen call p v).
Proof.
  intros Hv m o m' Hm H. unfold _handleThen in H.
  destruct (quiet_handleThen_body p v (length (latches m)) Hv
              (set_latches (fun h => h ++ [false]) m) o m') as (H1 & H2 & H3 & H4); done.
Qed.

Lemma quiet_resolver p v : clean v = true -> quiet (_resolver call p v).
Proof.
  intros Hv m o m' Hm. unfold _resolver.
  assert (Hh : _handleThen call p v m = Some (o, m') ->
               wf m' = true /\ clean_outcome o = true
               /\ fire_events m' = fire_events m /\ turn m' = turn m)
    by (by apply quiet_handleThen).
  assert (Hf : done_ (_fulfill p v m) = Some (o, m') ->
               wf m' = true /\ clean_outcome o = true
               /\ fire_events m' = fire_events m /\ turn m' = turn m).
  { apply (quiet_done (_fulfill p v) (quiet_update_transition p resolved v Hv) m o m' Hm). }
  destruct v as [x| |q| | |]; try (destruct (_ && _); [exact Hh|exact Hf]).
  destruct (q =? p).
  - apply (quiet_done (_reject p self_error)
             (quiet_update_transition p rejected self_error eq_refl) m o m' Hm).
  - destruct (quiet_update_then q (VNative (FResolver p)) (VNative (FReject p))
                eq_refl eq_refl m Hm) as (H1 & H2 & H3).
    destruct (then_ q _ _ m) as [p' m1]. intros [= <- <-]. done.
Qed.

Lemma quiet_construct ex :
  clean ex = true -> quiet (fun m => of_new (construct call ex m)).
Proof.
  intros Hex m o m' Hm. unfold construct. cbn [alloc_promise].
  destruct (quiet_update_alloc m Hm) as (H1 & H2 & H3). cbn [alloc_promise snd] in *.
  destruct (call ex _ _) as [[[r|e] m1]|] eqn:E; [| |done]; cbn [of_new];
    intros [= <- <-];
    destruct (call_quiet ex [VNative (FResolver (length (promises m)));
                             VNative (FReject (length (promises m)))]
                Hex eq_refl _ _ _ H1 E) as (H5 & H6 & H7 & H8).
  - split; [done|]. split; [done|]. split; congruence.
  - destruct (quiet_update_transition (length (promises m)) rejected e H6 m1 H5)
      as (H9 & H10 & H11).
    split; [done|]. split; [done|]. unfold _reject. split; congruence.
Qed.

Lemma quiet_resolve v :
  clean v = true -> quiet (fun m => of_new (resolve call v m)).
Proof.
  intros Hv m o m' Hm. unfold resolve. cbn [alloc_promise].
  destruct (quiet_update_alloc m Hm) as (H1 & H2 & H3). cbn [alloc_promise snd] in *.
  destruct (_resolver call _ v _) as [[[r|e] m1]|] eqn:E; [| |done]; cbn [of_new];
    intros [= <- <-];
    destruct (quiet_resolver _ v Hv _ _ _ H1 E) as (H5 & H6 & H7 & H8).
  - split; [done|]. split; [done|]. split; congruence.
  - destruct (quiet_update_transition (length (promises m)) rejected e H6 m1 H5)
      as (H9 & H10 & H11).
    split; [done|]. split; [done|]. unfold _reject. split; congruence.
Qed.

Lemma quiet_eval env e : forallb clean env = true -> quiet (eval call env e).
Proof.
  intros Henv. induction e; cbn [eval];
    repeat (apply quiet_bindc; [by auto|intros ? ?]).
  - by apply quiet_ret.
  - apply quiet_ret. by apply clean_lookup_var.
  - by apply quiet_ret.
  - apply call_quiet; [done|]. cbn. by rewrite H0.
  - intros m o m' Hm. destruct v as [| |q| | |]; try (intros [= <- <-]; done).
    destruct (quiet_update_then q v0 v1 H0 H1 m Hm) as (H2 & H3 & H4).
    destruct (then_ q v0 v1 m) as [p' m1]. intros [= <- <-]. done.
  - by apply quiet_construct.
  - by apply quiet_resolve.
  - intros m o m' Hm. destruct (quiet_update_reject v H m Hm) as (H2 & H3 & H4).
    destruct (reject v m) as [p m1]. intros [= <- <-]. done.
  - intros m o m' Hm [= <- <-].
    destruct (quiet_update_object v H m Hm) as (H2 & H3 & H4). done.
  - by apply quiet_done, quiet_update_runAsync.
  - intros m o m' Hm. destruct v as [[| | |n|]| | | | |]; intros [= <- <-]; done.
  - intros m o m' Hm. destruct v as [[| | | |s]| | | | |]; intros [= <- <-]; done.
Qed.

Lemma quiet_exec env s : forallb clean env = true -> quiet (exec call env s).
Proof.
  revert env. induction s; intros env Henv; cbn [exec].
  - by apply quiet_eval.
  - apply quiet_bindc; [by apply quiet_eval|]. intros v Hv. by apply quiet_ret.
  - apply quiet_bindc; [by apply quiet_eval|]. intros v Hv. by apply IHs.
  - apply quiet_bindc; [by apply quiet_eval|]. intros v Hv. apply IHs. cbn. by rewrite Hv.
  - by apply (quiet_ret (Ret (VPrim undefined))).
Qed.

Lemma quiet_member fn fb res rej v :
  clean fn = true -> clean fb = true -> clean res = true -> clean rej = true ->
  clean v = true ->
  quiet (member call fn fb res rej v).
Proof.
  intros Hfn Hfb Hres Hrej Hv. unfold member.
  destruct (isFunction fn); [|apply call_quiet; [done|cbn; by rewrite Hv]].
  apply quiet_try_catch.
  - apply quiet_bindc; [apply call_quiet; [done|cbn; by rewrite Hv]|].
    intros r Hr. apply quiet_bindc; [apply call_quiet; [done|cbn; by rewrite Hr]|].
    intros ? ?. by apply (quiet_ret (Ret (VPrim undefined))).
  - intros reason Hr. apply quiet_bindc; [apply call_quiet; [done|cbn; by rewrite Hr]|].
    intros ? ?. by apply (quiet_ret (Ret (VPrim undefined))).
Qed.

End Quiet.

Lemma call_quiet fuel : forall d f args,
  clean f = true -> forallb clean args = true -> quiet (call fuel d f args).
Proof.
  induction fuel as [|n IH]; intros d f args Hf Hargs; [done|].
  assert (Harg : clean (lookup_var args 0) = true) by (by apply clean_lookup_var).
  assert (Hinner : forall f' args', clean f' = true -> forallb clean args' = true ->
                     quiet (call n (S d) f' args')) by (intros; by apply IH).
  intros m o m' Hm H. cbn [call] in H.
  set (e := EvCall (turn m) d f args) in H.
  assert (Hm0 : wf (log e m) = true) by done.
  assert (Hfe : fire_events (log e m) = fire_events m) by (by apply fire_events_log).
  cut (wf m' = true /\ clean_outcome o = true
       /\ fire_events m' = fire_events (log e m) /\ turn m' = turn (log e m)).
  { intros (H1 & H2 & H3 & H4). split; [done|]. split; [done|].
    split; [congruence|exact H4]. }
  revert H. generalize (log e m) Hm0. clear Hm0 Hfe e. intros m0 Hm0 H.
  destruct f as [x|msg|q|ob|[p|p|fn fb res rej|p l|p l|p mb]|params body env];
    try (injection H as <- <-; done).
  - by apply (quiet_resolver _ Hinner p _ Harg m0).
  - apply (quiet_done (_reject p (lookup_var args 0))
             (quiet_update_transition p rejected _ Harg) m0 o m' Hm0 H).
  - cbn in Hf. apply andb_true_iff in Hf as [Hf Hrej].
    apply andb_true_iff in Hf as [Hf Hres]. apply andb_true_iff in Hf as [Hfn Hfb].
    by apply (quiet_member _ Hinner fn fb res rej _ Hfn Hfb Hres Hrej Harg m0).
  - by apply (quiet_once l _ (quiet_resolver _ Hinner p _ Harg) m0).
  - apply (quiet_once l (fun m1 => done_ (_reject p (lookup_var args 0) m1))); [|done..].
    apply quiet_done. by apply quiet_update_transition.
  - done.
  - apply (quiet_exec _ Hinner (bind_params params args ++ env) body); [|done..].
    rewrite forallb_app. apply andb_true_iff. split; [by apply clean_bind_params|done].
Qed.

Lemma fire_events_In t p cb m :
  In (EvFire t p cb) (trace m) <-> In (EvFire t p cb) (fire_events m).
Proof. unfold fire_events. rewrite List.filter_In. tauto. Qed.

(** A drain fires reactions of its own instance only, all in the current
    turn. *)
Lemma fire_drains fuel : forall d p mb m o m',
  wf m = true -> fire fuel d p mb m = Some (o, m') ->
  wf m' = true /\ turn m' = turn m
  /\ exists cbs, fire_events m' = fire_events m ++ map (EvFire (turn m) p) cbs.
Proof.
  induction fuel as [|n IH]; intros d p mb m o m' Hm H; [done|]. cbn [fire] in H.
  destruct (promises m !! p) as [pr|] eqn:Hp;
    [|injection H as <- <-; split; [done|]; split; [done|]; exists []; by rewrite app_nil_r].
  destruct (callbacks pr) as [|cb rest] eqn:Hc;
    [injection H as <- <-; split; [done|]; split; [done|]; exists []; by rewrite app_nil_r|].
  pose proof (wf_lookup _ _ _ Hm Hp) as Hpr. unfold clean_promise in Hpr.
  rewrite Hc in Hpr. cbn in Hpr.
  apply andb_true_iff in Hpr as [Hv Hcbs]. apply andb_true_iff in Hcbs as [Hcb Hrest].
  set (m1 := log _ _) in H.
  assert (Hm1 : wf m1 = true).
  { apply (quiet_set_promise p pr (mkPromise (value pr) (state pr) rest) m Hm Hp);
      [by left|].
    unfold clean_promise. cbn. by rewrite Hv, Hrest. }
  assert (Hfe1 : fire_events m1 = fire_events m ++ [EvFire (turn m) p cb]).
  { unfold fire_events, m1. cbn. by rewrite List.filter_app. }
  assert (Htu1 : turn m1 = turn m) by done.
  assert (Hh : clean (get_member mb cb) = true).
  { unfold clean_cb in Hcb. apply andb_true_iff in Hcb as [? ?]. by destruct mb. }
  destruct (call n d _ _ m1) as [[[r|e] m2]|] eqn:E; [| |done].
  - destruct (call_quiet n d _ [value pr] Hh ltac:(cbn; by rewrite Hv) _ _ _ Hm1 E)
      as (H1 & H2 & H3 & H4).
    destruct (IH d p mb m2 o m' H1 H) as (H5 & H6 & cbs & H7).
    split; [done|]. split; [congruence|].
    exists (cb :: cbs). rewrite H7, H3, Hfe1, H4. cbn. by rewrite <- app_assoc.
  - injection H as <- <-.
    destruct (call_quiet n d _ [value pr] Hh ltac:(cbn; by rewrite Hv) _ _ _ Hm1 E)
      as (H1 & H2 & H3 & H4).
    split; [done|]. split; [congruence|].
    exists [cb]. by rewrite H3, Hfe1.
Qed.

Lemma step_trace m m' : step m m' -> exists evs, trace m' = trace m ++ evs.
Proof.
  intros [t d f args m0| m0 | q st' v' m0 | q cb m0 | q pr' cb rest m0 Hq Hc
         | m0 | l m0 | w m0 | t m0 | fn m0 | rest m0];
    try (exists []; by rewrite app_nil_r); try (by eexists).
  - exists []. by rewrite transition_trace, app_nil_r.
  - rewrite addCallback_trace. destruct (promises m0 !! q); [by eexists|].
    exists []. by rewrite app_nil_r.
  - rewrite get_then_trace. destruct w; try (exists []; by rewrite app_nil_r).
    by eexists.
Qed.

Lemma steps_trace m m' : rtc step m m' -> exists evs, trace m' = trace m ++ evs.
Proof.
  induction 1 as [m|m m1 m2 H1 _ (evs2 & IH)]; [exists []; by rewrite app_nil_r|].
  destruct (step_trace _ _ H1) as (evs1 & Hevs1).
  exists (evs1 ++ evs2). by rewrite IH, Hevs1, app_assoc.
Qed.

Lemma run_task_drain_turns t0 fuel m m' :
  wf m = true -> t0 <= turn m -> fired_in_drain_turns t0 m ->
  run_task fuel m = Some m' ->
  wf m' = true /\ t0 <= turn m' /\ fired_in_drain_turns t0 m'.
Proof.
  intros Hm Ht0 Hinv. unfold run_task.
  destruct (tasks m) as [|t rest] eqn:Hta; [by intros [= <-]|].
  set (m1 := set_turn S (set_tasks (fun _ => rest) m)).
  assert (Hm1 : wf m1 = true /\ task_ok (promises m) t = true).
  { apply wf_parts in Hm as (H1 & H2 & H3). rewrite Hta in H3.
    inversion H3; subst. split; [|done]. by apply wf_parts. }
  destruct Hm1 as [Hm1 Ht].
  destruct (call fuel 0 t [] m1) as [[o m2]|] eqn:E; [|done]. intros [= <-].
  pose proof (call_steps _ _ _ _ _ _ _ E) as Hsteps.
  destruct (steps_trace _ _ Hsteps) as (evs & Hevs).
  assert (Hold : forall e, In e (trace m) -> In e (trace m2)).
  { intros e He. rewrite Hevs. apply in_or_app. by left. }
  assert (Hstay : forall p,
            (exists pr, promises m !! p = Some pr /\ state pr <> pending) ->
            exists pr, promises m2 !! p = Some pr /\ state pr <> pending).
  { intros p (pr & Hp & Hs).
    destruct (steps_settled p (state pr) (value pr) m1 m2 Hs Hsteps) as (pr' & ? & ? & ?);
      [by exists pr|].
    exists pr'. split; [done|congruence]. }
  assert (Hcases : clean t = true
                   \/ exists p mb pr, t = VNative (FFire p mb)
                        /\ promises m !! p = Some pr /\ state pr <> pending).
  { destruct t as [| | | |[| | | | |p mb]|]; try (by left). right. cbn in Ht.
    destruct (promises m !! p) as [pr|] eqn:Hp; [|done].
    exists p, mb, pr. split; [done|]. split; [done|]. by destruct (state pr). }
  destruct Hcases as [Hclean|(p & mb & pr & -> & Hp & Hs)].
  - destruct (call_quiet fuel 0 t [] Hclean eq_refl _ _ _ Hm1 E) as (H1 & H2 & H3 & H4).
    split; [done|]. split; [rewrite H4; cbn; lia|].
    intros t' p cb Hin. apply fire_events_In in Hin. rewrite H3 in Hin.
    apply (fire_events_In t' p cb m1) in Hin.
    destruct (Hinv t' p cb Hin) as (Hlt & (mb & Hcall) & Hset).
    split; [done|]. split; [exists mb; by apply Hold|by apply Hstay].
  - destruct fuel as [|n]; [done|]. cbn [call] in E.
    set (m0 := log _ m1) in E.
    destruct (fire_drains n 1 p mb m0 o m2 Hm1 E) as (H1 & H2 & cbs & H3).
    assert (Hfe0 : fire_events m0 = fire_events m)
      by (unfold m0; by rewrite fire_events_log).
    rewrite Hfe0 in H3.
    split; [done|]. split; [rewrite H2; cbn; lia|].
    intros t' q cb Hin. apply fire_events_In in Hin. rewrite H3 in Hin.
    apply in_app_or in Hin as [Hin|Hin].
    + apply (fire_events_In t' q cb m) in Hin.
      destruct (Hinv t' q cb Hin) as (Hlt & (mb' & Hcall) & Hset).
      split; [done|]. split; [exists mb'; by apply Hold|by apply Hstay].
    + apply in_map_iff in Hin as (cb' & [= <- <- <-] & _).
      split; [cbn; lia|]. split; [|apply Hstay; by exists pr].
      exists mb.
      destruct (steps_trace _ _ (fire_steps _ _ _ _ _ _ _ E)) as (evs' & ->).
      apply in_or_app. left. cbn. apply in_or_app. right. by left.
Qed.

Lemma run_tasks_drain_turns t0 turns fuel : forall m m',
  wf m = true -> t0 <= turn m -> fired_in_drain_turns t0 m ->
  run_tasks turns fuel m = Some m' ->
  wf m' = true /\ t0 <= turn m' /\ fired_in_drain_turns t0 m'.
Proof.
  induction turns as [|k IH]; intros m m' Hm Ht0 Hinv; cbn [run_tasks].
  - by intros [= <-].
  - destruct (run_task fuel m) as [m1|] eqn:E; [|done]. intros H.
    destruct (run_task_drain_turns _ _ _ _ Hm Ht0 Hinv E) as (H1 & H2 & H3).
    by apply (IH m1).
Qed.

Lemma transition_turn p st v m : turn (_transition p st v m) = turn m.
Proof.
  unfold _transition. destruct (promises m !! p) as [pr|]; [|done].
  destruct (state pr); try done. by rewrite executeCallbacks_turn.
Qed.

Lemma transition_tasks p st v m :
  tasks (_transition p st v m) = tasks m
  \/ exists mb, tasks (_transition p st v m) = tasks m ++ [VNative (FFire p mb)].
Proof.
  unfold _transition. destruct (promises m !! p) as [pr|]; [|by left].
  destruct (state pr); try (by left).
  set (m1 := set_promise _ _ _).
  destruct (executeCallbacks_tasks p m1) as [H|[mb H]]; rewrite H;
    [by left|right; by exists mb].
Qed.

(** In a well-formed machine the drain waiting at the head of the queue
    belongs to a settled instance and carries the member for its state, so
    [fire] passes the settled payload to the matching member of each
    reaction. *)
Lemma drain_task_matches_state m p mb rest :
  wf m = true -> tasks m = VNative (FFire p mb) :: rest ->
  exists pr,
    promises m !! p = Some pr
    /\ (state pr = resolved /\ mb = m_onFulfilled
        \/ state pr = rejected /\ mb = m_onRejected).
Proof.
  intros Hm Hta. apply wf_parts in Hm as (_ & _ & H3). rewrite Hta in H3.
  inversion H3 as [|t l Ht _]; subst. cbn in Ht.
  destruct (promises m !! p) as [pr|]; [|done]. exists pr. split; [done|].
  destruct (state pr), mb; try done; [by right|by left].
Qed.

Lemma program_fires_in_drain_turns fuel turns env s m o m1 m2 :
  wf m = true -> forallb clean env = true -> trace m = [] ->
  run_main fuel env s m = Some (o, m1) ->
  run_tasks turns fuel m1 = Some m2 ->
  fire_events m1 = [] /\ fired_in_drain_turns (turn m) m2.
Proof.
  intros Hm Henv Htr Hmain Hrun.
  destruct (quiet_exec (call fuel 1) (call_quiet fuel 1) env s Henv m o m1 Hm Hmain)
    as (H1 & H2 & H3 & H4).
  assert (Hnone : fire_events m1 = []).
  { rewrite H3. unfold fire_events. by rewrite Htr. }
  split; [exact Hnone|].
  eapply (run_tasks_drain_turns (turn m) turns fuel m1 m2); try done.
  - lia.
  - intros t p cb Hin. apply fire_events_In in Hin. rewrite Hnone in Hin. done.
Qed.

Lemma fired_In p m :
  fired p m <> [] -> exists t cb, In (EvFire t p cb) (trace m).
Proof.
  unfold fired. induction (trace m) as [|e l IH]; cbn; [done|].
  destruct e as [t q cb|t q cb|t d f args|t o]; cbn;
    try (intros H; destruct (IH H) as (t' & cb' & Hin); exists t', cb'; by right).
  destruct (q =? p) eqn:E.
  - intros _. apply Nat.eqb_eq in E as ->. exists t, cb. by left.
  - intros H. destruct (IH H) as (t' & cb' & Hin). exists t', cb'. by right.
Qed.

(** * Further properties of the class *)

(** ** Invariants of the evaluator, generically *)

Section Invariant.

Variable I : Machine -> Prop.
Hypothesis HI : Primitive I.

Lemma keeps_ret o : keeps I (fun m => Some (o, m)).
Proof. by intros m o' m' [= <- <-]. Qed.

Lemma keeps_done (g : Machine -> Machine) :
  (forall m, I m -> I (g m)) -> keeps I (fun m => done_ (g m)).
Proof. intros H m o m' [= <- <-]. apply H. Qed.

Lemma keeps_bindc c k : keeps I c -> (forall v, keeps I (k v)) -> keeps I (bindc c k).
Proof.
  intros Hc Hk m o m'. unfold bindc.
  destruct (c m) as [[[v|e] m1]|] eqn:E; [| |done].
  - intros H Hm. eapply Hk; [exact H|]. by eapply Hc.
  - intros [= <- <-]. by eapply Hc.
Qed.

Lemma keeps_try_catch c h :
  keeps I c -> (forall v, keeps I (h v)) -> keeps I (try_catch c h).
Proof.
  intros Hc Hh m o m'. unfold try_catch.
  destruct (c m) as [[[v|e] m1]|] eqn:E; [| |done].
  - intros [= <- <-]. by eapply Hc.
  - intros H Hm. eapply Hh; [exact H|]. by eapply Hc.
Qed.

Lemma keeps_once l fn : keeps I fn -> keeps I (once l fn).
Proof.
  intros Hf m o m'. unfold once.
  destruct (wasCalled l m); [by intros [= <- <-]|].
  destruct (fn m) as [[[v|e] m1]|] eqn:E; [| |done]; intros [= <- <-] Hm.
  - apply (prim_latch_set I HI). by eapply Hf.
  - by eapply Hf.
Qed.

Lemma keeps_static_reject reason m : I m -> I (snd (reject reason m)).
Proof.
  intros Hm. unfold reject. cbn [alloc_promise snd].
  apply (prim_reject I HI). by apply (prim_alloc I HI m).
Qed.

Variable call : CallT.
Hypothesis call_keeps : forall f args, keeps I (call f args).

Lemma keeps_handleThen p v : keeps I (_handleThen call p v).
Proof.
  intros m o m' H Hm. unfold _handleThen in H.
  pose proof (prim_latch_new I HI m Hm) as Hm0.
  revert H Hm0. generalize (set_latches (fun h => h ++ [false]) m).
  generalize (length (latches m)). intros l m0. revert m0 o m'.
  apply keeps_try_catch.
  - intros m1 o1 m1' H Hm1.
    pose proof (prim_get_then I HI v m1 Hm1) as Hg.
    destruct (get_then v m1) as [[t|e] m2]; cbn [snd] in Hg.
    + destruct (isFunction t).
      * destruct (call t _ m2) as [[[r|e] m3]|] eqn:E; [| |done];
          injection H as <- <-; by eapply call_keeps.
      * revert H Hg. apply keeps_once, keeps_done. apply (prim_fulfill I HI).
    + by injection H as <- <-.
  - intros reason. apply keeps_once, keeps_done. apply (prim_reject I HI).
Qed.

Lemma keeps_resolver p v : keeps I (_resolver call p v).
Proof.
  intros m o m' H Hm. unfold _resolver in H.
  assert (Hh : _handleThen call p v m = Some (o, m') -> I m')
    by (intros H'; by eapply keeps_handleThen).
  assert (Hf : done_ (_fulfill p v m) = Some (o, m') -> I m')
    by (intros [= <- <-]; by apply (prim_fulfill I HI)).
  destruct v as [x| |q| | |]; try (destruct (_ && _); [by apply Hh|by apply Hf]).
  destruct (q =? p).
  - injection H as <- <-. by apply (prim_reject I HI).
  - pose proof (prim_then I HI q (VNative (FResolver p)) (VNative (FReject p)) m Hm) as Ht.
    destruct (then_ q _ _ m) as [p' m1]. by injection H as <- <-.
Qed.

Lemma keeps_construct ex : keeps I (fun m => of_new (construct call ex m)).
Proof.
  intros m o m' H Hm. unfold construct in H. cbn [alloc_promise] in H.
  pose proof (prim_alloc I HI m Hm) as Hm0. cbn [alloc_promise snd] in Hm0.
  destruct (call ex _ _) as [[[r|e] m1]|] eqn:E; [| |done]; cbn [of_new] in H;
    injection H as <- <-.
  - by eapply call_keeps.
  - apply (prim_reject I HI). by eapply call_keeps.
Qed.

Lemma keeps_resolve v : keeps I (fun m => of_new (resolve call v m)).
Proof.
  intros m o m' H Hm. unfold resolve in H. cbn [alloc_promise] in H.
  pose proof (prim_alloc I HI m Hm) as Hm0. cbn [alloc_promise snd] in Hm0.
  destruct (_resolver call _ v _) as [[[r|e] m1]|] eqn:E; [| |done]; cbn [of_new] in H;
    injection H as <- <-.
  - by eapply keeps_resolver.
  - apply (prim_reject I HI). by eapply keeps_resolver.
Qed.

Lemma keeps_eval env e : keeps I (eval call env e).
Proof.
  revert env. induction e; intros env; cbn [eval];
    try (apply keeps_ret);
    repeat (apply keeps_bindc; [by auto|intros ?]).
  - apply call_keeps.
  - intros m o m' H Hm. destruct v as [| |q| | |]; try (by injection H as <- <-).
    pose proof (prim_then I HI q v0 v1 m Hm) as Ht.
    destruct (then_ q v0 v1 m) as [p' m1]. by injection H as <- <-.
  - apply keeps_construct.
  - apply keeps_resolve.
  - intros m o m' H Hm. pose proof (keeps_static_reject v m Hm) as Ht.
    destruct (reject v m) as [p m1]. by injection H as <- <-.
  - intros m o m' [= <- <-] Hm. by apply (prim_object I HI).
  - apply keeps_done. apply (prim_async I HI).
  - intros m o m' H Hm. by destruct v as [[| | |n|]| | | | |]; injection H as <- <-.
  - intros m o m' H Hm. by destruct v as [[| | | |s]| | | | |]; injection H as <- <-.
Qed.

Lemma keeps_exec env s : keeps I (exec call env s).
Proof.
  revert env. induction s; intros env; cbn [exec].
  - apply keeps_eval.
  - apply keeps_bindc; [apply keeps_eval|intros v; apply keeps_ret].
  - apply keeps_bindc; [apply keeps_eval|auto].
  - apply keeps_bindc; [apply keeps_eval|auto].
  - apply (keeps_ret (Ret (VPrim undefined))).
Qed.

Lemma keeps_member fn fb res rej v : keeps I (member call fn fb res rej v).
Proof.
  unfold member. destruct (isFunction fn); [|apply call_keeps].
  apply keeps_try_catch.
  - repeat (apply keeps_bindc; [apply call_keeps|intros ?]).
    apply (keeps_ret (Ret (VPrim undefined))).
  - intros reason. apply keeps_bindc; [apply call_keeps|intros ?].
    apply (keeps_ret (Ret (VPrim undefined))).
Qed.

End Invariant.

Lemma call_fire_keeps I (HI : Primitive I) fuel :
  (forall d f args, keeps I (call fuel d f args))
  /\ (forall d p mb, keeps I (fire fuel d p mb)).
Proof.
  induction fuel as [|n [IHc IHf]]; [by split|].
  split.
  - intros d f args m o m' H Hm. cbn [call] in H.
    pose proof (prim_call I HI (turn m) d f args m Hm) as Hm0.
    revert H Hm0. generalize (log (EvCall (turn m) d f args) m). clear m Hm.
    intros m0. revert m0 o m'.
    change (keeps I (fun m0 =>
      match f with
      | VNative (FResolver p) => _resolver (call n (S d)) p (lookup_var args 0) m0
      | VNative (FReject p) => done_ (_reject p (lookup_var args 0) m0)
      | VNative (FMember fn fallback res rej) =>
          member (call n (S d)) fn fallback res rej (lookup_var args 0) m0
      | VNative (FOnceResolver p l) =>
          once l (_resolver (call n (S d)) p (lookup_var args 0)) m0
      | VNative (FOnceReject p l) =>
          once l (fun m1 => done_ (_reject p (lookup_var args 0) m1)) m0
      | VNative (FFire p mb) => fire n (S d) p mb m0
      | VClosure params body env =>
          exec (call n (S d)) (bind_params params args ++ env) body m0
      | _ => Some (Throw (VTypeError "not a function"), m0)
      end)).
    destruct f as [x|msg|q|ob|[p|p|fn fb res rej|p l|p l|p mb]|params body env];
      try (apply keeps_ret).
    + by apply keeps_resolver.
    + apply keeps_done. apply (prim_reject I HI).
    + by apply keeps_member.
    + by apply keeps_once, keeps_resolver.
    + by apply keeps_once, keeps_done, (prim_reject I HI).
    + apply IHf.
    + by apply keeps_exec.
  - intros d p mb m o m' H Hm. cbn [fire] in H.
    destruct (promises m !! p) as [pr|] eqn:Hp; [|by injection H as <- <-].
    destruct (callbacks pr) as [|cb rest] eqn:Hc; [by injection H as <- <-|].
    pose proof (prim_shift I HI p pr cb rest m Hp Hc Hm) as Hm1.
    destruct (call n d _ _ _) as [[[r|e] m2]|] eqn:E; [| |done].
    + eapply IHf; [exact H|]. by eapply IHc.
    + injection H as <- <-. by eapply IHc.
Qed.

Lemma call_keeps I (HI : Primitive I) fuel d f args : keeps I (call fuel d f args).
Proof. by apply call_fire_keeps. Qed.

Lemma fire_keeps I (HI : Primitive I) fuel d p mb : keeps I (fire fuel d p mb).
Proof. by apply call_fire_keeps. Qed.

Lemma run_main_keeps I (HI : Primitive I) fuel env s : keeps I (run_main fuel env s).
Proof. apply keeps_exec; [done|]. intros f args. by apply call_keeps. Qed.

(** ** Three invariants *)

Lemma callbacks_insert_cases (h : list Promise) p pr q pq :
  <[p := pr]> h !! q = Some pq -> (q = p /\ pq = pr) \/ (q <> p /\ h !! q = Some pq).
Proof.
  intros H. destruct (decide (q = p)) as [->|Hne].
  - left. split; [done|].
    destruct (decide (p < length h)) as [Hlt|Hge].
    + rewrite list_lookup_insert_eq in H by done. congruence.
    + rewrite list_insert_ge in H by lia. apply lookup_lt_Some in H. lia.
  - right. split; [done|]. by rewrite list_lookup_insert_ne in H.
Qed.

Lemma reactions_only_same m m' :
  promises m' = promises m -> reactions_only m -> reactions_only m'.
Proof. unfold reactions_only. by intros ->. Qed.

Lemma reactions_only_set_promise p old pr m :
  promises m !! p = Some old ->
  (forall cb, In cb (callbacks pr) ->
     In cb (callbacks old) \/ exists p' onF onR, cb = reaction p' onF onR) ->
  reactions_only m -> reactions_only (set_promise p pr m).
Proof.
  intros Hp Hcbs H q pq cb Hq Hin. cbn in Hq.
  apply callbacks_insert_cases in Hq as [[-> ->]|[Hne Hq]].
  - destruct (Hcbs cb Hin) as [Hold|Hnew]; [by eapply H|done].
  - by eapply H.
Qed.

Lemma reactions_only_executeCallbacks p m :
  reactions_only m -> reactions_only (_executeCallbacks p m).
Proof. apply reactions_only_same, executeCallbacks_promises. Qed.

Lemma reactions_only_transition p st v m :
  reactions_only m -> reactions_only (_transition p st v m).
Proof.
  intros H. unfold _transition. destruct (promises m !! p) as [pr|] eqn:Hp; [|done].
  destruct (state pr); [|done..].
  apply reactions_only_executeCallbacks.
  apply (reactions_only_set_promise p pr); [done| |done]. intros cb Hin. by left.
Qed.

Lemma reactions_only_alloc m :
  reactions_only m -> reactions_only (snd (alloc_promise m)).
Proof.
  intros H q pq cb Hq Hin. cbn in Hq.
  apply lookup_app_Some in Hq as [Hq|[_ Hq]]; [by eapply H|].
  destruct (q - length (promises m)) as [|k]; [|done].
  injection Hq as <-. done.
Qed.

Lemma reactions_only_primitive : Primitive reactions_only.
Proof.
  constructor; try (intros; by eapply reactions_only_same; [|eassumption]).
  - apply reactions_only_alloc.
  - intros. by apply reactions_only_transition.
  - intros. by apply reactions_only_transition.
  - intros q onF onR m H. unfold then_. cbn [alloc_promise snd].
    pose proof (reactions_only_alloc m H) as H0. cbn [alloc_promise snd] in H0.
    set (m0 := set_promises _ m) in *. unfold _addCallback.
    destruct (promises m0 !! q) as [pr|] eqn:Hq; [|done].
    apply reactions_only_executeCallbacks.
    match goal with
    | |- reactions_only (log _ ?x) => apply (reactions_only_same x); [done|]
    end.
    apply (reactions_only_set_promise q pr); [done| |done].
    intros cb Hin. cbn in Hin. apply in_app_or in Hin as [Hin|[<-|[]]]; [by left|].
    right. by eexists _, _, _.
  - intros p pr cb rest m Hp Hc H.
    match goal with
    | |- reactions_only (log _ ?x) => apply (reactions_only_same x); [done|]
    end.
    apply (reactions_only_set_promise p pr); [done| |done].
    intros cb' Hin. left. rewrite Hc. by right.
  - intros v m H. eapply reactions_only_same; [apply get_then_promises|done].
Qed.

Lemma run_task_keeps I (HI : Primitive I) fuel m m' :
  (forall rest m0, I m0 -> I (set_turn S (set_tasks (fun _ => rest) m0))) ->
  run_task fuel m = Some m' -> I m -> I m'.
Proof.
  intros Hturn. unfold run_task. destruct (tasks m) as [|t rest]; [by intros [= <-]|].
  destruct (call fuel 0 t [] _) as [[o m1]|] eqn:E; [|done]. intros [= <-] Hm.
  eapply call_keeps; [done|exact E|]. by apply Hturn.
Qed.

Lemma run_tasks_keeps I (HI : Primitive I) turns fuel : forall m m',
  (forall rest m0, I m0 -> I (set_turn S (set_tasks (fun _ => rest) m0))) ->
  run_tasks turns fuel m = Some m' -> I m -> I m'.
Proof.
  induction turns as [|k IH]; intros m m' Hturn; cbn [run_tasks]; [by intros [= <-]|].
  destruct (run_task fuel m) as [m1|] eqn:E; [|done]. intros H Hm.
  eapply IH; [done|exact H|]. by eapply run_task_keeps.
Qed.

(** ** Nothing is thrown out of the class *)

Lemma once_no_throw l (fn : Comp) :
  (forall m e m', fn m <> Some (Throw e, m')) ->
  forall m e m', once l fn m <> Some (Throw e, m').
Proof.
  intros Hf m e m'. unfold once. destruct (wasCalled l m); [done|].
  pose proof (Hf m) as Hm. destruct (fn m) as [[[v|e0] m1]|]; [done| |done].
  by destruct (Hm e0 m1).
Qed.

Lemma settler_no_throw fuel d f args m e m' :
  settler f = true -> call fuel d f args m <> Some (Throw e, m').
Proof.
  intros Hf. destruct fuel as [|n]; [done|].
  destruct f as [| | | |[p|p| | | |]|]; try (discriminate Hf).
  - rewrite call_resolver. apply resolver_no_throw.
  - by rewrite call_reject.
Qed.

Lemma guarded_no_throw fuel d f args m e m' :
  guarded f = true -> call fuel d f args m <> Some (Throw e, m').
Proof.
  intros Hf. destruct fuel as [|n]; [done|].
  destruct f as [| | | |[p|p|fn fb res rej|p l|p l|]|]; try (discriminate Hf).
  - rewrite call_resolver. apply resolver_no_throw.
  - by rewrite call_reject.
  - cbn in Hf. apply andb_true_iff in Hf as [Hf Hrej].
    apply andb_true_iff in Hf as [Hfb Hres].
    rewrite call_member. unfold member.
    destruct (isFunction fn); [|by apply settler_no_throw].
    unfold try_catch, bindc.
    destruct (call n (S d) fn _ _) as [[[r|e0] m1]|]; [| |done].
    + pose proof (settler_no_throw n (S d) res [r] m1) as Hr.
      destruct (call n (S d) res [r] m1) as [[[x|e1] m2]|]; [done| |done].
      pose proof (settler_no_throw n (S d) rej [e1] m2) as Hj.
      destruct (call n (S d) rej [e1] m2) as [[[y|e2] m3]|]; [done| |done].
      by destruct (Hj e2 m3 Hrej).
    + pose proof (settler_no_throw n (S d) rej [e0] m1) as Hj.
      destruct (call n (S d) rej [e0] m1) as [[[y|e2] m3]|]; [done| |done].
      by destruct (Hj e2 m3 Hrej).
  - rewrite call_once_resolver. apply once_no_throw. intros. apply resolver_no_throw.
  - rewrite call_once_reject. by apply once_no_throw.
Qed.



(** ** Drains *)

Lemma reaction_member_guarded mb p' onF onR :
  guarded (get_member mb (reaction p' onF onR)) = true.
Proof. by destruct mb. Qed.

Lemma fire_no_throw fuel : forall d p mb m e m',
  reactions_only m -> fire fuel d p mb m <> Some (Throw e, m').
Proof.
  induction fuel as [|n IH]; intros d p mb m e m' Hm; [done|]. cbn [fire].
  destruct (promises m !! p) as [pr|] eqn:Hp; [|done].
  destruct (callbacks pr) as [|cb rest] eqn:Hc; [done|].
  destruct (Hm p pr cb Hp) as (p' & onF & onR & ->); [rewrite Hc; by left|].
  pose proof (prim_shift _ reactions_only_primitive p pr _ rest m Hp Hc Hm) as Hm1.
  set (m1 := log _ _) in *.
  pose proof (guarded_no_throw n d (get_member mb (reaction p' onF onR)) [value pr] m1)
    as Hnt.
  destruct (call n d _ _ m1) as [[[r|e0] m2]|] eqn:E; [| |done].
  - apply IH. by eapply (call_keeps _ reactions_only_primitive).
  - by destruct (Hnt e0 m2 (reaction_member_guarded _ _ _ _)).
Qed.

(** X2. In every machine reached by a main script and any number of turns,
    every queued callback was built by [then], and therefore no drain ever
    throws: an exception of a user's handler never reaches the host's
    timer. *)
Theorem drains_never_throw turns fuel env s m o m1 m2 :
  reactions_only m ->
  run_main fuel env s m = Some (o, m1) ->
  run_tasks turns fuel m1 = Some m2 ->
  reactions_only m2
  /\ (forall n d p mb e m3, fire n d p mb m2 <> Some (Throw e, m3))
  /\ (forall n p mb e m3, call n 0 (VNative (FFire p mb)) [] m2 <> Some (Throw e, m3)).
Proof.
  intros Hm Hmain Hrun.
  assert (H2 : reactions_only m2).
  { eapply (run_tasks_keeps _ reactions_only_primitive); [|exact Hrun|].
    - intros rest m0 H. by apply (reactions_only_same m0).
    - by eapply (run_main_keeps _ reactions_only_primitive). }
  split; [exact H2|]. split.
  - intros n d p mb e m3. by apply fire_no_throw.
  - intros [|n] p mb e m3; [done|]. cbn [call]. apply fire_no_throw.
    by apply (reactions_only_same m2).
Qed.

Lemma reactions_only_initial : reactions_only initial.
Proof. intros p pr cb Hp. cbn in Hp. by rewrite lookup_nil in Hp. Qed.

Lemma drains_never_throw_witness :
  reactions_only two_reactions_end
  /\ fire 6 1 0 m_onFulfilled two_reactions_end
     <> Some (Throw (VPrim undefined), initial).
Proof.
  assert (H1 : run_main 6 [] prog_two_reactions initial
               = Some (Ret (VPrim undefined), two_reactions_main))
    by (vm_compute; reflexivity).
  assert (H2 : run_tasks 3 6 two_reactions_main = Some two_reactions_end)
    by (vm_compute; reflexivity).
  destruct (drains_never_throw 3 6 [] prog_two_reactions initial
              (Ret (VPrim undefined)) two_reactions_main two_reactions_end
              reactions_only_initial H1 H2) as (H3 & H4 & _).
  split; [exact H3|apply H4].
Defined.

(** ** A pending instance holds no payload *)

Lemma pending_null_same m m' :
  promises m' = promises m -> pending_null m -> pending_null m'.
Proof. unfold pending_null. by intros ->. Qed.

Lemma pending_null_set_promise p pr m :
  (state pr = pending -> value pr = VPrim null) ->
  pending_null m -> pending_null (set_promise p pr m).
Proof.
  intros Hpr H q pq Hq Hs. cbn in Hq.
  apply callbacks_insert_cases in Hq as [[-> ->]|[Hne Hq]]; [by apply Hpr|by eapply H].
Qed.

Lemma pending_null_transition p st v m :
  st <> pending -> pending_null m -> pending_null (_transition p st v m).
Proof.
  intros Hst H. unfold _transition. destruct (promises m !! p) as [pr|] eqn:Hp; [|done].
  destruct (state pr); [|done..].
  eapply pending_null_same; [apply executeCallbacks_promises|].
  by apply pending_null_set_promise.
Qed.

Lemma pending_null_alloc m : pending_null m -> pending_null (snd (alloc_promise m)).
Proof.
  intros H q pq Hq Hs. cbn in Hq.
  apply lookup_app_Some in Hq as [Hq|[_ Hq]]; [by eapply H|].
  destruct (q - length (promises m)) as [|k]; [|done]. by injection Hq as <-.
Qed.

Lemma pending_null_primitive : Primitive pending_null.
Proof.
  constructor; try (intros; by eapply pending_null_same; [|eassumption]).
  - apply pending_null_alloc.
  - intros. by apply pending_null_transition.
  - intros. by apply pending_null_transition.
  - intros q onF onR m H. unfold then_. cbn [alloc_promise snd].
    pose proof (pending_null_alloc m H) as H0. cbn [alloc_promise snd] in H0.
    set (m0 := set_promises _ m) in *. unfold _addCallback.
    destruct (promises m0 !! q) as [pr|] eqn:Hq; [|done].
    eapply pending_null_same; [apply executeCallbacks_promises|].
    match goal with
    | |- pending_null (log _ ?x) => apply (pending_null_same x); [done|]
    end.
    apply pending_null_set_promise; [|done]. cbn. by apply (H0 q).
  - intros p pr cb rest m Hp Hc H.
    match goal with
    | |- pending_null (log _ ?x) => apply (pending_null_same x); [done|]
    end.
    apply pending_null_set_promise; [|done]. cbn. by apply (H p).
  - intros v m H. eapply pending_null_same; [apply get_then_promises|done].
Qed.

(** X3. The payload is written only together with a settled state: in every
    machine reached by a main script and any number of turns, an instance
    that is still pending holds the [null] the constructor stored. *)
Theorem pending_instances_hold_null turns fuel env s m o m1 m2 :
  pending_null m ->
  run_main fuel env s m = Some (o, m1) ->
  run_tasks turns fuel m1 = Some m2 ->
  pending_null m2.
Proof.
  intros Hm Hmain Hrun.
  eapply (run_tasks_keeps _ pending_null_primitive); [|exact Hrun|].
  - intros rest m0 H. by apply (pending_null_same m0).
  - by eapply (run_main_keeps _ pending_null_primitive).
Qed.

Lemma pending_instances_hold_null_witness :
  pending_null register_in_drain_end
  /\ pending_null register_in_drain_main
  /\ promises register_in_drain_main !! 1 = Some (mkPromise (VPrim null) pending []).
Proof.
  assert (H0 : pending_null initial).
  { intros p pr Hp. cbn in Hp. by rewrite lookup_nil in Hp. }
  assert (H1 : run_main 5 [] prog_register_in_drain initial
               = Some (Ret (VPrim undefined), register_in_drain_main))
    by (vm_compute; reflexivity).
  assert (H2 : run_tasks 1 5 register_in_drain_main = Some register_in_drain_end)
    by (vm_compute; reflexivity).
  split; [|split].
  - exact (pending_instances_hold_null 1 5 [] prog_register_in_drain initial
             (Ret (VPrim undefined)) register_in_drain_main register_in_drain_end
             H0 H1 H2).
  - exact (pending_instances_hold_null 0 5 [] prog_register_in_drain initial
             (Ret (VPrim undefined)) register_in_drain_main register_in_drain_main
             H0 H1 eq_refl).
  - vm_compute. reflexivity.
Defined.

(** ** No reaction is stranded *)

Lemma executeCallbacks_tasks_eq p pr m :
  promises m !! p = Some pr ->
  tasks (_executeCallbacks p m)
  = match state pr with
    | pending => tasks m
    | _ => tasks m ++ [VNative (FFire p (member_of (state pr)))]
    end.
Proof.
  intros Hp. unfold _executeCallbacks. rewrite Hp. by destruct (state pr).
Qed.

Lemma drains_pending_mono x m m' :
  promises m' = promises m -> (forall t, In t (tasks m) -> In t (tasks m')) ->
  drains_pending x m -> drains_pending x m'.
Proof.
  intros Hp Ht H q pr Hx Hq Hs Hc. rewrite Hp in Hq. apply Ht. by apply H.
Qed.

Lemma drains_pending_update x p pr m m' :
  promises m' = <[p := pr]> (promises m) ->
  (forall t, In t (tasks m) -> In t (tasks m')) ->
  (state pr <> pending -> callbacks pr <> [] ->
   x = Some p \/ In (VNative (FFire p (member_of (state pr)))) (tasks m')) ->
  drains_pending x m -> drains_pending x m'.
Proof.
  intros Hp Ht Hnew H q pq Hx Hq Hs Hc. rewrite Hp in Hq.
  apply callbacks_insert_cases in Hq as [[-> ->]|[Hne Hq]].
  - by destruct (Hnew Hs Hc).
  - apply Ht. by apply H.
Qed.

Lemma drains_pending_alloc x m :
  drains_pending x m -> drains_pending x (snd (alloc_promise m)).
Proof.
  intros H q pq Hx Hq Hs Hc. cbn in Hq.
  apply lookup_app_Some in Hq as [Hq|[_ Hq]]; [by apply H|].
  destruct (q - length (promises m)) as [|k]; [|done]. by injection Hq as <-.
Qed.

Lemma drains_pending_transition x p st v m :
  st <> pending -> drains_pending x m -> drains_pending x (_transition p st v m).
Proof.
  intros Hst H. unfold _transition. destruct (promises m !! p) as [pr|] eqn:Hp; [|done].
  destruct (state pr) eqn:Hs; [|done..].
  set (pr' := mkPromise v st (callbacks pr)).
  assert (Hp1 : promises (set_promise p pr' m) !! p = Some pr')
    by (apply lookup_set_promise; by eapply lookup_lt_Some).
  pose proof (executeCallbacks_tasks_eq p pr' _ Hp1) as Hta. cbn [state pr'] in Hta.
  apply (drains_pending_update x p pr' m); [by rewrite executeCallbacks_promises| | |done].
  - intros t Hin. rewrite Hta. destruct st; [done|apply in_or_app; by left..].
  - intros _ _. right. rewrite Hta. cbn [state pr'].
    destruct st; [done|apply in_or_app; right; by left..].
Qed.

Lemma drains_pending_addCallback x p cb m :
  drains_pending x m -> drains_pending x (_addCallback p cb m).
Proof.
  intros H. unfold _addCallback. destruct (promises m !! p) as [pr|] eqn:Hp; [|done].
  set (pr' := mkPromise (value pr) (state pr) (callbacks pr ++ [cb])).
  set (m1 := log _ _).
  assert (Hp1 : promises m1 !! p = Some pr')
    by (apply lookup_set_promise; by eapply lookup_lt_Some).
  pose proof (executeCallbacks_tasks_eq p pr' _ Hp1) as Hta. cbn [state pr'] in Hta.
  apply (drains_pending_update x p pr' m); [by rewrite executeCallbacks_promises| | |done].
  - intros t Hin. rewrite Hta. destruct (state pr); [done|apply in_or_app; by left..].
  - intros Hs _. right. rewrite Hta. cbn [state pr'].
    destruct (state pr); [done|apply in_or_app; right; by left..].
Qed.

Lemma drains_pending_primitive x : Primitive (drains_pending x).
Proof.
  constructor; try (intros; by eapply drains_pending_mono; [| |eassumption]).
  - apply drains_pending_alloc.
  - intros. by apply drains_pending_transition.
  - intros. by apply drains_pending_transition.
  - intros q onF onR m H. unfold then_. cbn [alloc_promise snd].
    apply drains_pending_addCallback.
    by apply (drains_pending_alloc x m).
  - intros p pr cb rest m Hp Hc H.
    apply (drains_pending_update x p (mkPromise (value pr) (state pr) rest) m);
      [done|done| |done].
    intros Hs Hrest. destruct (decide (x = Some p)) as [Hx|Hx]; [by left|right].
    cbn. apply (H p pr); [done|done|done|by rewrite Hc].
  - intros v m H. apply (drains_pending_mono x m); [apply get_then_promises| |done].
    intros t. unfold get_then. destruct v as [| | |ob| |]; try done.
    by destruct (objects m !! ob) as [[|w|[|r rs]]|].
  - intros fn m H. apply (drains_pending_mono x m); [done| |done].
    intros t Hin. cbn. apply in_or_app. by left.
Qed.

Lemma run_task_drains_pending fuel m m' :
  reactions_only m -> drains_pending None m ->
  run_task fuel m = Some m' ->
  reactions_only m' /\ drains_pending None m'.
Proof.
  intros Hr Hd Hrun.
  assert (Hr' : reactions_only m').
  { eapply (run_task_keeps _ reactions_only_primitive); [|exact Hrun|done].
    intros rest m0 H. by apply (reactions_only_same m0). }
  split; [exact Hr'|]. revert Hrun. unfold run_task.
  destruct (tasks m) as [|t rest] eqn:Hta; [by intros [= <-]|].
  set (m1 := set_turn S (set_tasks (fun _ => rest) m)).
  assert (Hr1 : reactions_only m1) by (by apply (reactions_only_same m)).
  destruct (call fuel 0 t [] m1) as [[o m2]|] eqn:E; [|done]. intros [= <-].
  assert (Hcases : (exists p mb, t = VNative (FFire p mb))
                   \/ (forall p mb, t <> VNative (FFire p mb))).
  { destruct t as [| | | |[| | | | |p mb]|]; try (by right). left. by eexists _, _. }
  destruct Hcases as [(p & mb & ->)|Hnot].
  - assert (Hd1 : drains_pending (Some p) m1).
    { intros q pr Hx Hq Hs Hc. cbn.
      pose proof (Hd q pr ltac:(done) Hq Hs Hc) as Hin. rewrite Hta in Hin.
      destruct Hin as [Heq|Hin]; [congruence|done]. }
    destruct fuel as [|n]; [done|]. cbn [call] in E.
    set (m0 := log _ m1) in E.
    assert (Hr0 : reactions_only m0) by (by apply (reactions_only_same m1)).
    assert (Hd0 : drains_pending (Some p) m0)
      by (by apply (drains_pending_mono _ m1)).
    pose proof (fire_keeps _ (drains_pending_primitive (Some p)) _ _ _ _ _ _ _ E Hd0)
      as Hd2.
    destruct o as [r|e]; [|by destruct (fire_no_throw n 1 p mb m0 e m2 Hr0)].
    pose proof (fire_returns_empty _ _ _ _ _ _ _ E) as Hempty.
    intros q pr _ Hq Hs Hc. destruct (decide (q = p)) as [->|Hne].
    + unfold callbacks_of in Hempty. by rewrite Hq in Hempty.
    + apply Hd2; try done. congruence.
  - assert (Hd1 : drains_pending None m1).
    { intros q pr Hx Hq Hs Hc. cbn.
      pose proof (Hd q pr Hx Hq Hs Hc) as Hin. rewrite Hta in Hin.
      destruct Hin as [Heq|Hin]; [|done]. by destruct (Hnot q (member_of (state pr))). }
    by eapply (call_keeps _ (drains_pending_primitive None)).
Qed.

(** X4. No reaction is stranded, as long as no call runs out of stack: in
    every machine reached by a main script and any number of turns that all
    ran to their end with the fuel given, each settled instance that still
    has reactions in its queue has its drain, with the member for its state,
    waiting in the task queue.  (Fuel bounds the nesting of invocations; a
    run in which it is exhausted has no result here.  The JavaScript engine
    raises a RangeError instead, and one raised inside [_executeCallbacks]
    after [_transition] has written the state is caught by an enclosing
    [_handleThen]: such runs are outside this statement.) *)
Theorem no_reaction_is_stranded turns fuel env s m o m1 m2 :
  reactions_only m -> drains_pending None m ->
  run_main fuel env s m = Some (o, m1) ->
  run_tasks turns fuel m1 = Some m2 ->
  forall q pr,
    promises m2 !! q = Some pr -> state pr <> pending -> callbacks pr <> [] ->
    In (VNative (FFire q (member_of (state pr)))) (tasks m2).
Proof.
  intros Hr Hd Hmain Hrun.
  assert (H1 : reactions_only m1 /\ drains_pending None m1).
  { split; [by eapply (run_main_keeps _ reactions_only_primitive)|].
    by eapply (run_main_keeps _ (drains_pending_primitive None)). }
  clear Hmain Hr Hd. revert m1 H1 Hrun.
  induction turns as [|k IH]; intros m1 [Hr Hd]; cbn [run_tasks].
  - intros [= <-] q pr Hq Hs Hc. by apply Hd.
  - destruct (run_task fuel m1) as [m1'|] eqn:E; [|done]. intros Hrun.
    apply (IH m1'); [|done]. by eapply run_task_drains_pending.
Qed.

Lemma drains_pending_initial : drains_pending None initial.
Proof. intros q pr _ Hq. cbn in Hq. by rewrite lookup_nil in Hq. Qed.

Lemma no_reaction_is_stranded_witness :
  In (VNative (FFire 0 m_onFulfilled)) (tasks two_reactions_main).
Proof.
  assert (H1 : run_main 6 [] prog_two_reactions initial
               = Some (Ret (VPrim undefined), two_reactions_main))
    by (vm_compute; reflexivity).
  assert (H2 : exists pr, promises two_reactions_main !! 0 = Some pr
                          /\ state pr = resolved /\ callbacks pr <> []).
  { eexists. split; [vm_compute; reflexivity|]. split; [reflexivity|discriminate]. }
  destruct H2 as (pr & Hq & Hs & Hc).
  pose proof (no_reaction_is_stranded 0 6 [] prog_two_reactions initial
                (Ret (VPrim undefined)) two_reactions_main two_reactions_main
                reactions_only_initial drains_pending_initial H1 eq_refl 0 pr Hq) as H.
  rewrite Hs in H. apply H; [discriminate|exact Hc].
Defined.

(** ** The constructor *)

Lemma step_length m m' : step m m' -> length (promises m) <= length (promises m').
Proof.
  intros [t d f args m0| m0 | q st' v' m0 | q cb m0 | q pr' cb rest m0 Hq Hc
         | m0 | l m0 | w m0 | t m0 | fn m0 | rest m0]; try done.
  - cbn. rewrite length_app. lia.
  - rewrite transition_promises. destruct (promises m0 !! q) as [pq|]; [|done].
    destruct (state pq); try done. by rewrite length_insert.
  - rewrite addCallback_promises. destruct (promises m0 !! q) as [pq|]; [|done].
    by rewrite length_insert.
  - cbn. by rewrite length_insert.
  - by rewrite get_then_promises.
Qed.

Lemma steps_length m m' : rtc step m m' -> length (promises m) <= length (promises m').
Proof.
  induction 1 as [|m m1 m2 H1 _ IH]; [done|]. apply step_length in H1. lia.
Qed.

(** X5. A throwing executor.  When the executor passed to the constructor
    throws, the constructor still returns the new instance, and that
    instance is not left pending: if the executor had not settled it, it is
    rejected with the thrown value; if the executor had settled it before
    throwing, the exception changes nothing. *)
Theorem throwing_executor_rejects fuel d ex m e m1 :
  call fuel d ex [VNative (FResolver (length (promises m)));
                  VNative (FReject (length (promises m)))]
    (snd (alloc_promise m)) = Some (Throw e, m1) ->
  let p := length (promises m) in
  exists pr1,
    promises m1 !! p = Some pr1
    /\ construct (call fuel d) ex m = Some (p, _reject p e m1)
    /\ (state pr1 = pending ->
        promises (_reject p e m1) !! p = Some (mkPromise e rejected (callbacks pr1)))
    /\ (state pr1 <> pending -> _reject p e m1 = m1)
    /\ state_of p (_reject p e m1) <> Some pending.
Proof.
  intros Hcall p.
  assert (Hlt : p < length (promises m1)).
  { pose proof (steps_length _ _ (call_steps _ _ _ _ _ _ _ Hcall)) as Hle.
    cbn in Hle. rewrite length_app in Hle. cbn in Hle. unfold p. lia. }
  destruct (lookup_lt_is_Some_2 _ _ Hlt) as [pr1 Hp1].
  exists pr1. split; [exact Hp1|]. split.
  { unfold construct. cbn [alloc_promise]. cbn [alloc_promise snd] in Hcall.
    fold p. fold p in Hcall. by rewrite Hcall. }
  split; [intros Hs; by apply transition_lookup|].
  split; [intros Hs; by apply (transition_settled _ _ _ _ pr1)|].
  unfold state_of. destruct (state pr1) eqn:Hs.
  - unfold _reject. by rewrite (transition_lookup _ _ _ _ _ Hp1 Hs).
  - unfold _reject. rewrite (transition_settled _ _ _ _ pr1 Hp1) by (by rewrite Hs).
    rewrite Hp1. cbn. by rewrite Hs.
  - unfold _reject. rewrite (transition_settled _ _ _ _ pr1 Hp1) by (by rewrite Hs).
    rewrite Hp1. cbn. by rewrite Hs.
Qed.

Lemma throwing_executor_rejects_witness :
  construct (call 3 1) resolve_then_throw initial
  = Some (0, _reject 0 (VPrim (PStr "late")) resolve_then_throw_end)
  /\ state_of 0 (_reject 0 (VPrim (PStr "late")) resolve_then_throw_end) <> Some pending.
Proof.
  assert (H : call 3 1 resolve_then_throw
                [VNative (FResolver 0); VNative (FReject 0)] (snd (alloc_promise initial))
              = Some (Throw (VPrim (PStr "late")), resolve_then_throw_end))
    by (vm_compute; reflexivity).
  destruct (throwing_executor_rejects 3 1 resolve_then_throw initial
              (VPrim (PStr "late")) resolve_then_throw_end H)
    as (pr1 & _ & H2 & _ & _ & H5).
  split; [exact H2|exact H5].
Defined.

Example settle_then_throw_keeps_first :
  promises (_reject 0 (VPrim (PStr "late")) resolve_then_throw_end)
  = [mkPromise (VPrim (PNum 1)) resolved []].
Proof. vm_compute. reflexivity. Qed.

(** ** The flag is never reset *)

Lemma flags_kept_refl m : flags_kept m m.
Proof. by split. Qed.

Lemma flags_kept_same m0 m m' :
  latches m' = latches m -> flags_kept m0 m -> flags_kept m0 m'.
Proof. unfold flags_kept, wasCalled. by intros ->. Qed.

Lemma step_flags_kept m0 m m' : step m m' -> flags_kept m0 m -> flags_kept m0 m'.
Proof.
  intros Hstep [Hlen Hset].
  destruct Hstep as [t d f args m| m | q st' v' m | q cb m | q pr' cb rest m Hq Hc
                    | m | l m | w m | t m | fn m | rest m];
    try (by apply (flags_kept_same m0 m)).
  - apply (flags_kept_same m0 m); [apply transition_latches|done].
  - apply (flags_kept_same m0 m); [|done]. unfold _addCallback.
    destruct (promises m !! q); [|done]. by rewrite executeCallbacks_latches.
  - split; [cbn; rewrite length_app; lia|]. intros l Hl. specialize (Hset l Hl).
    unfold wasCalled in *. cbn.
    destruct (latches m !! l) as [b|] eqn:E; [|done].
    by rewrite (lookup_app_l_Some _ _ _ _ E).
  - split; [cbn; by rewrite length_insert|]. intros l' Hl. specialize (Hset l' Hl).
    unfold wasCalled in *. cbn.
    destruct (decide (l = l')) as [->|Hne].
    + destruct (latches m !! l') as [b|] eqn:E; [|done].
      rewrite list_lookup_insert_eq by (by eapply lookup_lt_Some). done.
    + by rewrite list_lookup_insert_ne.
  - apply (flags_kept_same m0 m); [apply get_then_latches|done].
Qed.

Lemma steps_flags_kept m m' : rtc step m m' -> flags_kept m m'.
Proof.
  intros H. pose proof (flags_kept_refl m) as H0. revert H0.
  generalize m at 1 3. intros m0. revert H. apply steps_preserve.
  intros. by eapply step_flags_kept.
Qed.

Lemma once_sets_flag l (fn : Comp) m o m1 :
  sound fn -> l < length (latches m) ->
  once l fn m = Some (Ret o, m1) -> wasCalled l m1 = true.
Proof.
  intros Hf Hl. unfold once. destruct (wasCalled l m) eqn:Hw; [by intros [= _ <-]|].
  destruct (fn m) as [[[v|e] m']|] eqn:E; [|done..]. intros [= _ <-].
  destruct (steps_flags_kept _ _ (Hf _ _ _ E)) as [Hlen _].
  unfold wasCalled. cbn. rewrite list_lookup_insert_eq by lia. done.
Qed.

Lemma callback_returns_flag_set fuel d p l f args m o m1 :
  f = VNative (FOnceResolver p l) \/ f = VNative (FOnceReject p l) ->
  l < length (latches m) ->
  call fuel d f args m = Some (o, m1) -> wasCalled l m1 = true.
Proof.
  intros Hf Hl Hcall.
  assert (Hg : guarded f = true) by (by destruct Hf as [-> | ->]).
  destruct o as [v|e]; [|by destruct (guarded_no_throw _ _ _ _ _ _ _ Hg Hcall)].
  destruct fuel as [|n]; [done|].
  destruct Hf as [-> | ->].
  - rewrite call_once_resolver in Hcall.
    eapply once_sets_flag in Hcall; [exact Hcall| |exact Hl].
    apply sound_resolver. intros g a. apply call_fire_sound.
  - rewrite call_once_reject in Hcall.
    eapply once_sets_flag in Hcall; [exact Hcall| |exact Hl].
    apply sound_done. intros; apply rtc_once, step_transition.
Qed.

(** X6. Once one of the two callbacks handed to a thenable has returned,
    the pair is spent for good: the flag is set, no later call of any
    function and no later turn resets it, and from then on a call of either
    callback only returns, leaving the instance, the flags, the objects and
    the task queue as they are. *)
Theorem callback_pair_is_spent fuel d p l f args m o m1 :
  f = VNative (FOnceResolver p l) \/ f = VNative (FOnceReject p l) ->
  l < length (latches m) ->
  call fuel d f args m = Some (o, m1) ->
  wasCalled l m1 = true
  /\ forall m2,
       (exists fuel' d' g args' o', call fuel' d' g args' m1 = Some (o', m2))
       \/ (exists turns fuel', run_tasks turns fuel' m1 = Some m2) ->
       wasCalled l m2 = true
       /\ forall n d' args',
            call (S n) d' (VNative (FOnceResolver p l)) args' m2
              = done_ (log (EvCall (turn m2) d' (VNative (FOnceResolver p l)) args') m2)
            /\ call (S n) d' (VNative (FOnceReject p l)) args' m2
               = done_ (log (EvCall (turn m2) d' (VNative (FOnceReject p l)) args') m2).
Proof.
  intros Hf Hl Hcall.
  pose proof (callback_returns_flag_set _ _ _ _ _ _ _ _ _ Hf Hl Hcall) as Hw.
  split; [exact Hw|]. intros m2 Hlater.
  assert (Hsteps : rtc step m1 m2).
  { destruct Hlater as [(fuel' & d' & g & args' & o' & H)|(turns & fuel' & H)].
    - by eapply call_steps.
    - by eapply run_tasks_steps. }
  destruct (steps_flags_kept _ _ Hsteps) as [_ Hset].
  pose proof (Hset l Hw) as Hw2. split; [exact Hw2|].
  intros n d' args'. by apply flag_set_blocks.
Qed.

Lemma callback_pair_is_spent_witness : wasCalled 0 one_flag_end = true.
Proof.
  assert (H : call 1 0 (VNative (FOnceResolver 0 0)) [VPrim (PNum 1)] one_flag
              = Some (Ret (VPrim undefined), one_flag_end))
    by (vm_compute; reflexivity).
  destruct (callback_pair_is_spent 1 0 0 0 (VNative (FOnceResolver 0 0))
              [VPrim (PNum 1)] one_flag (Ret (VPrim undefined)) one_flag_end
              (or_introl eq_refl) (Nat.lt_0_succ 0) H) as [Hw _].
  exact Hw.
Defined.

(** ** Resolving with a pending instance of the class *)

Lemma then_pending q onF onR m pq :
  promises m !! q = Some pq -> state pq = pending ->
  let m' := snd (then_ q onF onR m) in
  tasks m' = tasks m
  /\ promises m'
     = <[q := mkPromise (value pq) pending
               (callbacks pq ++ [reaction (length (promises m)) onF onR])]>
         (promises m ++ [new_promise]).
Proof.
  intros Hq Hs m'. subst m'. split.
  - unfold then_. cbn [alloc_promise snd]. unfold _addCallback.
    cbn [promises set_promises]. rewrite lookup_app_l by (by eapply lookup_lt_Some).
    rewrite Hq. unfold _executeCallbacks.
    cbn [promises log set_promise set_promises].
    rewrite list_lookup_insert_eq
      by (rewrite length_app; apply lookup_lt_Some in Hq; lia).
    cbn [state]. by rewrite Hs.
  - rewrite (then_promises _ _ _ _ _ Hq). by rewrite Hs.
Qed.

Lemma run_tasks_idle turns fuel m : tasks m = [] -> run_tasks turns fuel m = Some m.
Proof.
  intros H. induction turns as [|k IH]; [done|]. cbn [run_tasks]. unfold run_task.
  by rewrite H.
Qed.

(** X7. The self-reference check of [_resolver] catches an instance that is
    resolved with itself, not a cycle of two.  When two distinct pending
    instances [p] and [q] are resolved with each other, both calls return
    the instance made by [then]; the first appends to the queue of [q] the
    reaction whose handlers are the settling functions of [p], the second
    appends to the queue of [p] the reaction whose handlers are the settling
    functions of [q]; both stay pending with their payload untouched, the two
    instances made by [then] are pending with empty queues, and nothing is
    handed to the scheduler.  With an empty task queue no later turn changes
    the machine, so neither instance is ever settled. *)
Theorem mutual_resolution_never_settles call p q m pp pq :
  p <> q ->
  promises m !! p = Some pp -> state pp = pending ->
  promises m !! q = Some pq -> state pq = pending ->
  let a1 := length (promises m) in
  let a2 := S (length (promises m)) in
  exists m1 m2,
    _resolver call p (VPromise q) m = Some (Ret (VPromise a1), m1)
    /\ _resolver call q (VPromise p) m1 = Some (Ret (VPromise a2), m2)
    /\ promises m2 !! p
       = Some (mkPromise (value pp) pending
                 (callbacks pp ++ [reaction a2 (VNative (FResolver q)) (VNative (FReject q))]))
    /\ promises m2 !! q
       = Some (mkPromise (value pq) pending
                 (callbacks pq ++ [reaction a1 (VNative (FResolver p)) (VNative (FReject p))]))
    /\ promises m2 !! a1 = Some new_promise
    /\ promises m2 !! a2 = Some new_promise
    /\ length (promises m2) = S (S (length (promises m)))
    /\ tasks m2 = tasks m
    /\ (tasks m = [] -> forall turns fuel, run_tasks turns fuel m2 = Some m2).
Proof.
  intros Hne Hp Hsp Hq Hsq a1 a2. subst a1 a2.
  assert (Hltp : p < length (promises m)) by (by eapply lookup_lt_Some).
  assert (Hltq : q < length (promises m)) by (by eapply lookup_lt_Some).
  destruct (then_pending q (VNative (FResolver p)) (VNative (FReject p)) m pq Hq Hsq)
    as (Hta1 & Hpr1).
  destruct (then_new_instance q (VNative (FResolver p)) (VNative (FReject p)) m pq Hq)
    as (Hfst1 & _).
  unfold _resolver at 1. rewrite (proj2 (Nat.eqb_neq q p)) by done.
  destruct (then_ q (VNative (FResolver p)) (VNative (FReject p)) m) as [p1 m1] eqn:E1.
  cbn [fst snd] in *. subst p1.
  assert (Hlen1 : length (promises m1) = S (length (promises m))).
  { rewrite Hpr1, length_insert, length_app. cbn. lia. }
  assert (Hp1 : promises m1 !! p = Some pp).
  { rewrite Hpr1, list_lookup_insert_ne by done. by rewrite lookup_app_l. }
  destruct (then_pending p (VNative (FResolver q)) (VNative (FReject q)) m1 pp Hp1 Hsp)
    as (Hta2 & Hpr2).
  destruct (then_new_instance p (VNative (FResolver q)) (VNative (FReject q)) m1 pp Hp1)
    as (Hfst2 & _).
  unfold _resolver. rewrite (proj2 (Nat.eqb_neq p q)) by done.
  destruct (then_ p (VNative (FResolver q)) (VNative (FReject q)) m1) as [p2 m2] eqn:E2.
  cbn [fst snd] in *. subst p2. rewrite Hlen1 in Hpr2, E2.
  exists m1, m2.
  split; [done|]. split; [by rewrite E2|].
  split; [|split; [|split; [|split; [|split; [|split]]]]].
  - rewrite Hpr2. apply list_lookup_insert_eq. rewrite length_app. lia.
  - rewrite Hpr2, list_lookup_insert_ne by done.
    rewrite lookup_app_l by lia. rewrite Hpr1.
    apply list_lookup_insert_eq. rewrite length_app. lia.
  - rewrite Hpr2, list_lookup_insert_ne by lia.
    rewrite lookup_app_l by lia.
    rewrite Hpr1, list_lookup_insert_ne by lia.
    rewrite lookup_app_r by lia. by rewrite Nat.sub_diag.
  - rewrite Hpr2, list_lookup_insert_ne by lia.
    rewrite lookup_app_r by lia. rewrite Hlen1.
    by rewrite Nat.sub_diag.
  - rewrite Hpr2, length_insert, length_app. cbn. lia.
  - congruence.
  - intros Hidle turns fuel. apply run_tasks_idle. congruence.
Qed.

Lemma mutual_resolution_never_settles_witness :
  exists m1 m2,
    _resolver (call 1 1) 0 (VPromise 1) two_pending = Some (Ret (VPromise 2), m1)
    /\ _resolver (call 1 1) 1 (VPromise 0) m1 = Some (Ret (VPromise 3), m2)
    /\ promises m2
       = [mkPromise (VPrim null) pending
            [reaction 3 (VNative (FResolver 1)) (VNative (FReject 1))];
          mkPromise (VPrim null) pending
            [reaction 2 (VNative (FResolver 0)) (VNative (FReject 0))];
          new_promise; new_promise]
    /\ tasks m2 = []
    /\ run_tasks 5 5 m2 = Some m2.
Proof.
  destruct (mutual_resolution_never_settles (call 1 1) 0 1 two_pending
              new_promise new_promise)
    as (m1 & m2 & H1 & H2 & H3 & H4 & H5 & H6 & H7 & H8 & H9); try done.
  exists m1, m2. split; [exact H1|]. split; [exact H2|].
  split; [|split; [exact H8|by apply H9]].
  destruct (promises m2) as [|x0 [|x1 [|x2 [|x3 [|x4 l]]]]]; try discriminate H7.
  cbn in H3, H4, H5, H6. congruence.
Defined.

(** ** One reaction, drained *)

Lemma resolver_ordinary_promises call p v t m pr :
  isPromise v = false -> fst (get_then v m) = Ret t -> isFunction t = false ->
  promises m !! p = Some pr -> state pr = pending ->
  exists m',
    _resolver call p v m = Some (Ret (VPrim undefined), m')
    /\ promises m' = <[p := mkPromise v resolved (callbacks pr)]> (promises m).
Proof.
  intros Hv Hr Ht Hp Hs.
  assert (Hdirect : exists m', done_ (_fulfill p v m) = Some (Ret (VPrim undefined), m')
            /\ promises m' = <[p := mkPromise v resolved (callbacks pr)]> (promises m)).
  { eexists. split; [reflexivity|]. by apply transition_pending. }
  assert (Hthen : exists m', _handleThen call p v m = Some (Ret (VPrim undefined), m')
            /\ promises m' = <[p := mkPromise v resolved (callbacks pr)]> (promises m)).
  { rewrite handleThen_read_once. cbv zeta. rewrite Hr, Ht.
    eexists. split; [reflexivity|]. cbn [promises set_latches].
    assert (Hp1 : promises (set_latches (fun h => h ++ [false]) (snd (get_then v m))) !! p
                  = Some pr) by (cbn; by rewrite get_then_promises).
    unfold _fulfill. rewrite (transition_pending _ _ _ _ _ Hp1 Hs).
    cbn. by rewrite get_then_promises. }
  unfold _resolver.
  destruct v as [x| |q| | |]; try done; by destruct (_ && _).
Qed.

Lemma fire_one n d q mb m pr cb :
  promises m !! q = Some pr -> callbacks pr = [cb] ->
  fire (S n) d q mb m
  = match call n d (get_member mb cb) [value pr]
            (log (EvFire (turn m) q cb)
               (set_promise q (mkPromise (value pr) (state pr) []) m)) with
    | Some (Ret _, m2) => fire n d q mb m2
    | r => r
    end.
Proof. intros Hq Hc. cbn [fire]. by rewrite Hq, Hc. Qed.

Lemma then_objects q onF onR m : objects (snd (then_ q onF onR m)) = objects m.
Proof.
  unfold then_. cbn [alloc_promise snd]. unfold _addCallback.
  destruct (promises _ !! q) as [pr|]; [|done].
  unfold _executeCallbacks. destruct (promises _ !! q) as [pr'|]; [|done].
  by destruct (state pr').
Qed.

(** What the drain of [q] does when its queue holds the single reaction
    registered by [then] for the derived instance [p'], whose handlers are
    [onF] and [onR]: the general step behind the two theorems below. *)
Lemma drain_of_one_reaction n d q onF onR m pq :
  promises m !! q = Some pq -> state pq <> pending -> callbacks pq = [] ->
  let p' := length (promises m) in
  let mb := member_of (state pq) in
  let m0 := snd (then_ q onF onR m) in
  let h := promises m ++ [new_promise] in
  exists m1,
    promises m1 = <[q := mkPromise (value pq) (state pq) []]> h
    /\ objects m1 = objects m
    /\ fire (S (S n)) d q mb m0
       = match member (call n (S d)) (handler_of mb onF onR)
                 (match mb with
                  | m_onFulfilled => VNative (FResolver p')
                  | m_onRejected => VNative (FReject p')
                  end)
                 (VNative (FResolver p')) (VNative (FReject p')) (value pq) m1 with
         | Some (Ret _, m2) => fire (S n) d q mb m2
         | r => r
         end.
Proof.
  intros Hq Hs Hc p' mb m0 h.
  assert (Hlt : q < length (promises m)) by (by eapply lookup_lt_Some).
  assert (Hpr0 : promises m0
                 = <[q := mkPromise (value pq) (state pq) [reaction p' onF onR]]> h).
  { unfold m0. rewrite (then_promises _ _ _ _ _ Hq). by rewrite Hc. }
  assert (Hq0 : promises m0 !! q
                = Some (mkPromise (value pq) (state pq) [reaction p' onF onR])).
  { rewrite Hpr0. apply list_lookup_insert_eq. unfold h. rewrite length_app. lia. }
  rewrite (fire_one _ _ _ _ _ _ _ Hq0 eq_refl). cbn [value state].
  set (m1 := log (EvFire _ _ _) _).
  set (f := get_member mb (reaction p' onF onR)).
  exists (log (EvCall (turn m1) d f [value pq]) m1).
  split; [|split].
  - cbn. rewrite Hpr0. by rewrite list_insert_insert_eq.
  - cbn. unfold m0. by rewrite then_objects.
  - assert (Hcall : call (S n) d f [value pq] m1
              = member (call n (S d)) (handler_of mb onF onR)
                  (match mb with
                   | m_onFulfilled => VNative (FResolver p')
                   | m_onRejected => VNative (FReject p')
                   end)
                  (VNative (FResolver p')) (VNative (FReject p')) (value pq)
                  (log (EvCall (turn m1) d f [value pq]) m1))
      by (unfold f; by destruct mb).
    by rewrite Hcall.
Qed.

(** X8. [then] without a callable handler for the state of the source
    passes the settlement on unchanged.  For a settled source [q] with an
    empty queue, and, when [q] is fulfilled, a value that is not an instance
    of the class and whose [then] member is read without an exception and is
    not callable: one drain of [q] after [q.then(onF, onR)] leaves the
    derived instance settled in the same state with the same payload, and
    the queue of [q] empty again.  (A fulfillment value whose [then]
    accessor throws is not covered: the derived instance is then rejected
    with the exception.) *)
Theorem then_without_handler_passes_on n d q onF onR m pq t :
  promises m !! q = Some pq -> state pq <> pending -> callbacks pq = [] ->
  isFunction (handler_of (member_of (state pq)) onF onR) = false ->
  (state pq = resolved ->
   isPromise (value pq) = false /\ fst (get_then (value pq) m) = Ret t
   /\ isFunction t = false) ->
  exists m',
    fire (3 + n) d q (member_of (state pq)) (snd (then_ q onF onR m))
      = Some (Ret (VPrim undefined), m')
    /\ promises m' !! length (promises m) = Some (mkPromise (value pq) (state pq) [])
    /\ callbacks_of q m' = [].
Proof.
  intros Hq Hs Hc Hh Hord.
  assert (Hlt : q < length (promises m)) by (by eapply lookup_lt_Some).
  destruct (drain_of_one_reaction (S n) d q onF onR m pq Hq Hs Hc)
    as (m1 & Hpr1 & Hob1 & Hfire).
  cbv zeta in Hfire. change (3 + n) with (S (S (S n))). rewrite Hfire.
  unfold member. rewrite Hh. clear Hfire.
  set (p' := length (promises m)) in *.
  assert (Hp1 : promises m1 !! p' = Some new_promise).
  { rewrite Hpr1, list_lookup_insert_ne by (unfold p'; lia).
    rewrite lookup_app_r by (unfold p'; lia). unfold p'. by rewrite Nat.sub_diag. }
  assert (Hq1 : forall x, (<[p' := x]> (promises m1)) !! q
                          = Some (mkPromise (value pq) (state pq) [])).
  { intros x. rewrite list_lookup_insert_ne by (unfold p'; lia).
    rewrite Hpr1. apply list_lookup_insert_eq. rewrite length_app. lia. }
  assert (Hlen1 : p' < length (promises m1)) by (by eapply lookup_lt_Some).
  destruct (state pq) eqn:Hst; [done| |]; cbn [member_of].
  - rewrite call_reject. cbn [lookup_var lookup list_lookup done_].
    set (m2 := _reject p' (value pq) _).
    assert (Hpr2 : promises m2
                   = <[p' := mkPromise (value pq) rejected []]> (promises m1)).
    { unfold m2, _reject. by rewrite (transition_pending _ _ _ _ new_promise). }
    exists m2.
    assert (Hcb : callbacks_of q m2 = []).
    { unfold callbacks_of. by rewrite Hpr2, Hq1. }
    split; [by apply fire_empty|]. split; [|exact Hcb].
    rewrite Hpr2. by apply list_lookup_insert_eq.
  - destruct (Hord eq_refl) as (Hv & Hr & Ht).
    rewrite call_resolver. cbn [lookup_var lookup list_lookup].
    set (m1' := log _ m1).
    destruct (resolver_ordinary_promises (call n (S (S d))) p' (value pq) t m1' new_promise)
      as (m2 & Hrun & Hpr2); try done.
    { rewrite <- Hr. by apply get_then_fst_objects. }
    rewrite Hrun. cbn [promises log] in Hpr2.
    exists m2.
    assert (Hcb : callbacks_of q m2 = []).
    { unfold callbacks_of. by rewrite Hpr2, Hq1. }
    split; [by apply fire_empty|]. split; [|exact Hcb].
    rewrite Hpr2. by apply list_lookup_insert_eq.
Qed.

Lemma then_without_handler_passes_on_witness :
  let m := snd (reject (VObject 0) throwing_getter) in
  exists m',
    fire 3 1 0 m_onRejected (snd (then_ 0 (VPrim undefined) (VPrim undefined) m))
      = Some (Ret (VPrim undefined), m')
    /\ promises m' !! 1 = Some (mkPromise (VObject 0) rejected [])
    /\ callbacks_of 0 m' = [].
Proof.
  intros m.
  apply (then_without_handler_passes_on 0 1 0 (VPrim undefined) (VPrim undefined) m
           (mkPromise (VObject 0) rejected []) (VPrim undefined)); try done.
Defined.

(** X9. Adoption.  Let [q] be a settled instance of the class whose queue
    is empty and, when [q] is fulfilled, whose value is not an instance of
    the class and has a [then] member that is read without an exception and
    is not callable.  Resolving a pending instance [p] other than [q] with
    [q] registers one reaction on [q]; one drain of [q] then gives [p] the
    state and the payload of [q], a rejection reason being taken as it is,
    and keeps the reactions of [p].  The instance that [q.then] returned on
    the way is fulfilled with [undefined].  (With reactions already queued
    on [q], an earlier one may settle [p] first.) *)
Theorem resolver_adopts_settled_instance n d call0 p q m pp pq t :
  p <> q ->
  promises m !! p = Some pp -> state pp = pending ->
  promises m !! q = Some pq -> state pq <> pending -> callbacks pq = [] ->
  (state pq = resolved ->
   isPromise (value pq) = false /\ fst (get_then (value pq) m) = Ret t
   /\ isFunction t = false) ->
  let p' := length (promises m) in
  exists m1 m2,
    _resolver call0 p (VPromise q) m = Some (Ret (VPromise p'), m1)
    /\ fire (3 + n) d q (member_of (state pq)) m1 = Some (Ret (VPrim undefined), m2)
    /\ promises m2 !! p = Some (mkPromise (value pq) (state pq) (callbacks pp))
    /\ promises m2 !! p' = Some (mkPromise (VPrim undefined) resolved [])
    /\ callbacks_of q m2 = [].
Proof.
  intros Hne Hp Hsp Hq Hs Hc Hord p'.
  assert (Hltq : q < length (promises m)) by (by eapply lookup_lt_Some).
  assert (Hltp : p < length (promises m)) by (by eapply lookup_lt_Some).
  unfold _resolver. rewrite (proj2 (Nat.eqb_neq q p)) by done.
  destruct (drain_of_one_reaction (S n) d q (VNative (FResolver p)) (VNative (FReject p))
              m pq Hq Hs Hc) as (m1 & Hpr1 & Hob1 & Hfire).
  cbv zeta in Hfire.
  destruct (then_new_instance q (VNative (FResolver p)) (VNative (FReject p)) m pq Hq)
    as (Hfst & _).
  destruct (then_ q (VNative (FResolver p)) (VNative (FReject p)) m) as [p1 m0] eqn:E.
  cbn [fst snd] in Hfst, Hfire. subst p1. fold p' in E |- *.
  exists m0. change (3 + n) with (S (S (S n))). rewrite Hfire. clear Hfire.
  assert (Hp1 : promises m1 !! p = Some pp).
  { rewrite Hpr1, list_lookup_insert_ne by done. by rewrite lookup_app_l. }
  assert (Hp1' : forall x, (<[p := x]> (promises m1)) !! p' = Some new_promise).
  { intros x. rewrite list_lookup_insert_ne by (unfold p'; lia).
    rewrite Hpr1, list_lookup_insert_ne by (unfold p'; lia).
    rewrite lookup_app_r by (unfold p'; lia). unfold p'. by rewrite Nat.sub_diag. }
  assert (Hfinal : forall x m2 m3,
            promises m2 = <[p := x]> (promises m1) ->
            _resolver (call n (S (S d))) p' (VPrim undefined)
              (log (EvCall (turn m2) (S d) (VNative (FResolver p')) [VPrim undefined]) m2)
              = Some (Ret (VPrim undefined), m3) ->
            promises m3
              = <[p' := mkPromise (VPrim undefined) resolved []]> (promises m2) ->
            fire (S (S n)) d q (member_of (state pq)) m3 = Some (Ret (VPrim undefined), m3)
            /\ promises m3 !! p = Some x
            /\ promises m3 !! p' = Some (mkPromise (VPrim undefined) resolved [])
            /\ callbacks_of q m3 = []).
  { intros x m2 m3 Hpr2 _ Hpr3.
    assert (Hcb : callbacks_of q m3 = []).
    { unfold callbacks_of. rewrite Hpr3, Hpr2.
      rewrite list_lookup_insert_ne by (unfold p'; lia).
      rewrite list_lookup_insert_ne by done.
      rewrite Hpr1, list_lookup_insert_eq by (rewrite length_app; lia). done. }
    split; [by apply fire_empty|]. split; [|split; [|exact Hcb]].
    - rewrite Hpr3, list_lookup_insert_ne by (unfold p'; lia).
      rewrite Hpr2. apply list_lookup_insert_eq. by eapply lookup_lt_Some.
    - rewrite Hpr3. apply list_lookup_insert_eq.
      rewrite Hpr2, length_insert. apply lookup_lt_Some with new_promise.
      rewrite <- (Hp1' x). by rewrite list_lookup_insert_ne by (unfold p'; lia). }
  unfold member, try_catch, bindc. fold p'.
  destruct (state pq) eqn:Hst; [done| |]; cbn [member_of handler_of isFunction].
  - rewrite call_reject. cbn [lookup_var lookup list_lookup done_].
    set (m2 := _reject p (value pq) _).
    assert (Hpr2 : promises m2
                   = <[p := mkPromise (value pq) rejected (callbacks pp)]> (promises m1)).
    { unfold m2, _reject. by rewrite (transition_pending _ _ _ _ pp). }
    rewrite call_resolver. cbn [lookup_var lookup list_lookup].
    destruct (resolver_ordinary_promises (call n (S (S d))) p' (VPrim undefined)
                (VPrim undefined)
                (log (EvCall (turn m2) (S d) (VNative (FResolver p')) [VPrim undefined]) m2)
                new_promise) as (m3 & Hrun & Hpr3); try done.
    { cbn. rewrite Hpr2. apply Hp1'. }
    rewrite Hrun. cbn [promises log] in Hpr3.
    exists m3. split; [done|]. by apply (Hfinal _ m2 m3).
  - destruct (Hord eq_refl) as (Hv & Hr & Ht).
    rewrite call_resolver. cbn [lookup_var lookup list_lookup].
    set (m1' := log _ m1).
    destruct (resolver_ordinary_promises (call n (S (S d))) p (value pq) t m1' pp)
      as (m2 & Hrun2 & Hpr2); try done.
    { rewrite <- Hr. by apply get_then_fst_objects. }
    rewrite Hrun2. cbn [promises log] in Hpr2.
    rewrite call_resolver. cbn [lookup_var lookup list_lookup].
    destruct (resolver_ordinary_promises (call n (S (S d))) p' (VPrim undefined)
                (VPrim undefined)
                (log (EvCall (turn m2) (S d) (VNative (FResolver p')) [VPrim undefined]) m2)
                new_promise) as (m3 & Hrun & Hpr3); try done.
    { cbn. rewrite Hpr2. apply Hp1'. }
    rewrite Hrun. cbn [promises log] in Hpr3.
    exists m3. split; [done|]. by apply (Hfinal _ m2 m3).
Qed.

Lemma resolver_adopts_settled_instance_witness :
  let m := snd (reject (VPrim (PStr "no")) (snd (alloc_promise initial))) in
  exists m1 m2,
    _resolver (call 0 0) 0 (VPromise 1) m = Some (Ret (VPromise 2), m1)
    /\ fire 3 1 1 m_onRejected m1 = Some (Ret (VPrim undefined), m2)
    /\ promises m2 !! 0 = Some (mkPromise (VPrim (PStr "no")) rejected [])
    /\ promises m2 !! 2 = Some (mkPromise (VPrim undefined) resolved [])
    /\ callbacks_of 1 m2 = [].
Proof.
  intros m.
  apply (resolver_adopts_settled_instance 0 1 (call 0 0) 0 1 m new_promise
           (mkPromise (VPrim (PStr "no")) rejected []) (VPrim undefined)); try done.
Defined.

(** * Scheduling, order of firing, and chains *)

(** ** A settled instance hands its drain to the scheduler *)

Lemma registered_steps p m m' :
  rtc step m m' -> exists new, registered p m' = registered p m ++ new.
Proof.
  intros H. destruct (steps_trace _ _ H) as (evs & Hevs).
  eexists. unfold registered. rewrite Hevs, omap_app. reflexivity.
Qed.

Lemma transition_schedules p st v m pr :
  promises m !! p = Some pr -> state pr = pending -> st <> pending ->
  tasks (_transition p st v m) = tasks m ++ [VNative (FFire p (member_of st))]
  /\ turn (_transition p st v m) = turn m
  /\ trace (_transition p st v m) = trace m
  /\ promises (_transition p st v m) = <[p := mkPromise v st (callbacks pr)]> (promises m).
Proof.
  intros Hp Hs Hst. rewrite (transition_pending_eq _ _ _ _ _ Hp Hs).
  by destruct st.
Qed.

Lemma then_settled_schedules q onF onR m pq :
  promises m !! q = Some pq -> state pq <> pending ->
  tasks (snd (then_ q onF onR m))
  = tasks m ++ [VNative (FFire q (member_of (state pq)))].
Proof.
  intros Hq Hs. unfold then_. cbn [alloc_promise snd]. unfold _addCallback.
  cbn [promises set_promises]. rewrite lookup_app_l by (by eapply lookup_lt_Some).
  rewrite Hq. set (m1 := log _ _).
  set (pr' := mkPromise (value pq) (state pq)
                (callbacks pq ++ [mkCallback
                   (VNative (FMember onF (VNative (FResolver (length (promises m))))
                               (VNative (FResolver (length (promises m))))
                               (VNative (FReject (length (promises m))))))
                   (VNative (FMember onR (VNative (FReject (length (promises m))))
                               (VNative (FResolver (length (promises m))))
                               (VNative (FReject (length (promises m))))))])).
  assert (Hp1 : promises m1 !! q = Some pr').
  { apply lookup_set_promise. cbn. rewrite length_app.
    apply lookup_lt_Some in Hq. lia. }
  rewrite (executeCallbacks_tasks_eq q pr' m1 Hp1). cbn [state pr'].
  by destruct (state pq).
Qed.

(** C6. Reactions fire in registration order once the instance has
    settled.

    Scheduling.  Settling a pending instance appends its drain, with the
    member for the new state, to the scheduler's queue and leaves the
    reactions in the instance's queue; registering a reaction on an instance
    that is already settled appends the reaction to the queue and the drain
    to the scheduler's queue.  A drain that finds a reaction removes it from
    the head of the queue, calls its member with the payload, and goes on
    with the queue once that call has returned.

    Order.  In every machine reached by a main script and any number of
    turns, and for every instance: the reactions registered on it are
    exactly those already fired followed by those still queued, in
    registration order, so the fired ones are a prefix of the registered
    ones and no registration fires twice.  A further drain of an empty queue
    does nothing, and a drain that returns has fired every registered
    reaction, in order.  When the next task is the drain of the instance and
    its turn runs to its end, the queue is empty and the reactions that were
    waiting have fired in queue order, followed by those registered in the
    meantime.  When the run starts from a well-formed machine with an empty
    trace, reactions have fired only on instances that are settled. *)
Theorem reactions_fire_in_order turns fuel env s m o m1 m2 :
  fifo m ->
  run_main fuel env s m = Some (o, m1) ->
  run_tasks turns fuel m1 = Some m2 ->
  (forall m0 p pr st v,
     promises m0 !! p = Some pr -> state pr = pending -> st <> pending ->
     tasks (_transition p st v m0) = tasks m0 ++ [VNative (FFire p (member_of st))]
     /\ promises (_transition p st v m0) !! p = Some (mkPromise v st (callbacks pr)))
  /\ (forall m0 q onF onR pq,
        promises m0 !! q = Some pq -> state pq <> pending ->
        tasks (snd (then_ q onF onR m0))
        = tasks m0 ++ [VNative (FFire q (member_of (state pq)))]
        /\ callbacks_of q (snd (then_ q onF onR m0))
           = callbacks pq ++ [reaction (length (promises m0)) onF onR])
  /\ (forall n d p mb m0 pr cb rest,
        promises m0 !! p = Some pr -> callbacks pr = cb :: rest ->
        fire (S n) d p mb m0
        = match call n d (get_member mb cb) [value pr]
                  (log (EvFire (turn m0) p cb)
                     (set_promise p (mkPromise (value pr) (state pr) rest) m0)) with
          | Some (Ret _, m') => fire n d p mb m'
          | r => r
          end)
  /\ forall p,
       registered p m2 = fired p m2 ++ callbacks_of p m2
       /\ fired p m2 `prefix_of` registered p m2
       /\ (callbacks_of p m2 = [] -> forall n d mb, fire (S n) d p mb m2 = done_ m2)
       /\ (forall n d mb x m3,
             fire n d p mb m2 = Some (Ret x, m3) -> registered p m3 = fired p m3)
       /\ (reactions_only m ->
           forall mb rest fuel' m3,
             tasks m2 = VNative (FFire p mb) :: rest ->
             run_task fuel' m2 = Some m3 ->
             callbacks_of p m3 = []
             /\ exists later,
                  registered p m3 = registered p m2 ++ later
                  /\ fired p m3 = fired p m2 ++ callbacks_of p m2 ++ later)
       /\ (wf m = true -> forallb clean env = true -> trace m = [] ->
           fired p m2 <> [] ->
           exists pr, promises m2 !! p = Some pr /\ state pr <> pending).
Proof.
  intros Hm Hmain Hrun.
  split; [|split; [|split]].
  - intros m0 p pr st v Hp Hs Hst.
    destruct (transition_schedules p st v m0 pr Hp Hs Hst) as (H1 & _ & _ & H2).
    split; [exact H1|]. by apply transition_lookup.
  - intros m0 q onF onR pq Hq Hs.
    split; [by apply then_settled_schedules|].
    by destruct (then_new_instance q onF onR m0 pq Hq) as (_ & _ & _ & ->);
      unfold callbacks_of; rewrite Hq.
  - intros n d p mb m0 pr cb rest Hp Hc. cbn [fire]. by rewrite Hp, Hc.
  - intros p.
    assert (H2 : fifo m2).
    { eapply steps_fifo; [eapply run_tasks_steps, Hrun|].
      eapply steps_fifo; [eapply run_main_steps, Hmain|exact Hm]. }
    split; [apply H2|]. split; [rewrite (H2 p); by eexists|].
    split; [intros He n d mb; by apply fire_empty|].
    split; [|split].
    + intros n d mb x m3 Hf.
      assert (H3 : fifo m3) by (eapply steps_fifo; [eapply fire_steps, Hf|exact H2]).
      rewrite (H3 p), (fire_returns_empty _ _ _ _ _ _ _ Hf). by rewrite app_nil_r.
    + intros Hr mb rest fuel' m3 Hta Htask.
      assert (Hr2 : reactions_only m2).
      { eapply (run_tasks_keeps _ reactions_only_primitive); [|exact Hrun|].
        - intros rest0 m0 H. by apply (reactions_only_same m0).
        - by eapply (run_main_keeps _ reactions_only_primitive). }
      pose proof (run_task_steps _ _ _ Htask) as Hsteps.
      assert (H3 : fifo m3) by (by eapply steps_fifo).
      destruct (registered_steps p _ _ Hsteps) as (later & Hlater).
      assert (Hempty : callbacks_of p m3 = []).
      { revert Htask. unfold run_task. rewrite Hta.
        destruct fuel' as [|n]; [done|]. cbn [call].
        set (m0 := log _ _).
        assert (Hr0 : reactions_only m0) by (by apply (reactions_only_same m2)).
        destruct (fire n 1 p mb m0) as [[[x|e] m']|] eqn:E; [| |done].
        - intros [= <-]. by eapply fire_returns_empty.
        - by destruct (fire_no_throw n 1 p mb m0 e m' Hr0). }
      split; [exact Hempty|]. exists later. split; [exact Hlater|].
      pose proof (H3 p) as Hf3. rewrite Hempty, app_nil_r in Hf3.
      rewrite <- Hf3, Hlater, (H2 p). by rewrite <- app_assoc.
    + intros Hwf Henv Htr Hfired.
      destruct (program_fires_in_drain_turns fuel turns env s m o m1 m2
                  Hwf Henv Htr Hmain Hrun) as (_ & Hinv).
      destruct (fired_In p m2 Hfired) as (t & cb & Hin).
      by destruct (Hinv t p cb Hin) as (_ & _ & Hset).
Qed.

Lemma reactions_fire_in_order_witness :
  (registered 0 two_reactions_end
   = fired 0 two_reactions_end ++ callbacks_of 0 two_reactions_end
   /\ fired 0 two_reactions_end `prefix_of` registered 0 two_reactions_end
   /\ exists pr, promises two_reactions_end !! 0 = Some pr /\ state pr <> pending)
  /\ tasks two_reactions_main
     = [VNative (FFire 0 m_onFulfilled); VNative (FFire 0 m_onFulfilled);
        VNative (FFire 0 m_onFulfilled)]
  /\ callbacks_of 0 two_reactions_turn1 = []
  /\ exists later,
       fired 0 two_reactions_turn1
       = fired 0 two_reactions_main ++ callbacks_of 0 two_reactions_main ++ later.
Proof.
  assert (H1 : run_main 6 [] prog_two_reactions initial
               = Some (Ret (VPrim undefined), two_reactions_main))
    by (vm_compute; reflexivity).
  assert (H2 : run_tasks 3 6 two_reactions_main = Some two_reactions_end)
    by (vm_compute; reflexivity).
  assert (H0 : run_task 6 two_reactions_main = Some two_reactions_turn1)
    by (vm_compute; reflexivity).
  split.
  - destruct (reactions_fire_in_order 3 6 [] prog_two_reactions initial
                (Ret (VPrim undefined)) two_reactions_main two_reactions_end
                fifo_initial H1 H2) as (_ & _ & _ & H).
    destruct (H 0) as (H3 & H4 & _ & _ & _ & H5).
    split; [exact H3|]. split; [exact H4|].
    apply H5; try reflexivity. vm_compute. discriminate.
  - split; [reflexivity|].
    destruct (reactions_fire_in_order 0 6 [] prog_two_reactions initial
                (Ret (VPrim undefined)) two_reactions_main two_reactions_main
                fifo_initial H1 eq_refl) as (_ & _ & _ & H).
    destruct (H 0) as (_ & _ & _ & _ & H6 & _).
    destruct (H6 reactions_only_initial m_onFulfilled
                [VNative (FFire 0 m_onFulfilled); VNative (FFire 0 m_onFulfilled)]
                6 two_reactions_turn1 eq_refl H0) as (H7 & later & _ & H8).
    split; [exact H7|]. exists later. exact H8.
Defined.

(** ** Registration during a drain, in general *)

Lemma fired_fire_events p m :
  fired p m
  = omap (fun e => match e with
                   | EvFire _ q cb => if Nat.eqb q p then Some cb else None
                   | _ => None
                   end) (fire_events m).
Proof.
  unfold fired, fire_events. induction (trace m) as [|e l IH]; [done|].
  destruct e as [t q cb|t q cb|t d f args|t o]; cbn; try exact IH.
  destruct (q =? p); cbn; by rewrite IH.
Qed.

Lemma fired_same_events p m m' :
  fire_events m' = fire_events m -> fired p m' = fired p m.
Proof. intros H. by rewrite !fired_fire_events, H. Qed.

Lemma fired_events_app p t m m' cbs :
  fire_events m' = fire_events m ++ map (EvFire t p) cbs ->
  fired p m' = fired p m ++ cbs.
Proof.
  intros H. rewrite !fired_fire_events, H, omap_app. f_equal. clear H.
  induction cbs as [|cb cbs IH]; [done|]. cbn. rewrite Nat.eqb_refl. cbn. by rewrite IH.
Qed.

Lemma get_then_turn v m : turn (snd (get_then v m)) = turn m.
Proof.
  unfold get_then. destruct v as [| | |o| |]; try done.
  destruct (objects m !! o) as [[|t|[|r rs]]|]; done.
Qed.

Lemma registers_in_turn_same t0 old m m' :
  turn m' = turn m -> trace m' = trace m ->
  registers_in_turn t0 old m -> registers_in_turn t0 old m'.
Proof. unfold registers_in_turn. by intros -> ->. Qed.

Lemma registers_in_turn_log t0 old e m :
  (forall t p cb, e = EvRegister t p cb -> t = t0) ->
  registers_in_turn t0 old m -> registers_in_turn t0 old (log e m).
Proof.
  intros He [Ht H]. split; [done|]. intros t p cb Hin. cbn in Hin.
  apply in_app_or in Hin as [Hin|[Heq|[]]]; [by apply H|]. right. by eapply He.
Qed.

Lemma registers_in_turn_primitive t0 old : Primitive (registers_in_turn t0 old).
Proof.
  constructor; try (intros; by eapply registers_in_turn_same; [| |eassumption]).
  - intros t d f args m H. by apply registers_in_turn_log.
  - intros p v m H. eapply registers_in_turn_same; [|apply transition_trace|done].
    apply transition_turn.
  - intros p v m H. eapply registers_in_turn_same; [|apply transition_trace|done].
    apply transition_turn.
  - intros q onF onR m [Ht H]. unfold then_. cbn [alloc_promise snd].
    set (m0 := set_promises _ m). split.
    + unfold _addCallback. destruct (promises m0 !! q); [|done].
      by rewrite executeCallbacks_turn.
    + intros t p cb. rewrite addCallback_trace.
      destruct (promises m0 !! q); [|apply H].
      intros Hin. apply in_app_or in Hin as [Hin|[Heq|[]]]; [by apply H|].
      right. injection Heq as <- _ _. exact Ht.
  - intros p pr cb rest m Hp Hc H. apply registers_in_turn_log; [done|].
    by apply (registers_in_turn_same t0 old m).
  - intros v m [Ht H]. split; [by rewrite get_then_turn|].
    intros t p cb. rewrite get_then_trace. destruct v; try apply H.
    intros Hin. apply in_app_or in Hin as [Hin|[Heq|[]]]; [by apply H|done].
Qed.

(** What a drain does after the member of the reaction at the head of the
    queue has returned: it goes on, in the same turn, with the queue as the
    member left it, which holds the rest of the queue followed by the
    reactions registered on the instance while the member ran. *)
Lemma fire_continues_with_registered n d q mb m0 pr cb rest r ma x mz :
  wf m0 = true -> fifo m0 ->
  promises m0 !! q = Some pr -> callbacks pr = cb :: rest ->
  call n d (get_member mb cb) [value pr]
    (log (EvFire (turn m0) q cb)
       (set_promise q (mkPromise (value pr) (state pr) rest) m0)) = Some (Ret r, ma) ->
  fire n d q mb ma = Some (Ret x, mz) ->
  fire (S n) d q mb m0 = Some (Ret x, mz)
  /\ turn ma = turn m0 /\ turn mz = turn m0
  /\ fire_events ma = fire_events m0 ++ [EvFire (turn m0) q cb]
  /\ (forall t p' cb', In (EvRegister t p' cb') (trace ma) ->
        In (EvRegister t p' cb') (trace m0) \/ t = turn m0)
  /\ exists new later,
       registered q ma = registered q m0 ++ new
       /\ callbacks_of q ma = rest ++ new
       /\ fire_events mz
          = fire_events ma ++ map (EvFire (turn m0) q) (rest ++ new ++ later).
Proof.
  intros Hwf Hfifo Hp Hc Hcall Hfire.
  assert (Hlt : q < length (promises m0)) by (by eapply lookup_lt_Some).
  split; [cbn [fire]; by rewrite Hp, Hc, Hcall|].
  pose proof (wf_lookup _ _ _ Hwf Hp) as Hpr. unfold clean_promise in Hpr.
  rewrite Hc in Hpr. cbn in Hpr.
  apply andb_true_iff in Hpr as [Hv Hcbs]. apply andb_true_iff in Hcbs as [Hcb Hrest].
  set (m1 := log (EvFire (turn m0) q cb)
               (set_promise q (mkPromise (value pr) (state pr) rest) m0)) in *.
  assert (Hm1 : wf m1 = true).
  { apply (quiet_set_promise q pr (mkPromise (value pr) (state pr) rest) m0 Hwf Hp);
      [by left|].
    unfold clean_promise. cbn. by rewrite Hv, Hrest. }
  assert (Hfe1 : fire_events m1 = fire_events m0 ++ [EvFire (turn m0) q cb]).
  { unfold fire_events, m1. cbn. by rewrite List.filter_app. }
  assert (Hh : clean (get_member mb cb) = true).
  { unfold clean_cb in Hcb. apply andb_true_iff in Hcb as [? ?]. by destruct mb. }
  destruct (call_quiet n d _ [value pr] Hh ltac:(cbn; by rewrite Hv) _ _ _ Hm1 Hcall)
    as (Hwfa & _ & Hfea & Htua).
  destruct (fire_drains n d q mb ma _ mz Hwfa Hfire) as (_ & Htuz & cbs & Hfez).
  assert (Htu1 : turn m1 = turn m0) by done.
  split; [congruence|]. split; [congruence|]. split; [congruence|].
  assert (Hreg1 : registers_in_turn (turn m0) (trace m0) m1).
  { split; [done|]. intros t p' cb' Hin. cbn in Hin.
    apply in_app_or in Hin as [Hin|[Heq|[]]]; [by left|done]. }
  pose proof (call_keeps _ (registers_in_turn_primitive (turn m0) (trace m0))
                _ _ _ _ _ _ _ Hcall Hreg1) as [_ Hrega].
  split; [exact Hrega|].
  assert (Hf1 : fifo m1).
  { eapply step_fifo; [|exact Hfifo]. by apply (step_shift q pr cb rest m0). }
  assert (Hfa : fifo ma) by (eapply steps_fifo; [eapply call_steps, Hcall|exact Hf1]).
  assert (Hfz : fifo mz) by (eapply steps_fifo; [eapply fire_steps, Hfire|exact Hfa]).
  destruct (registered_steps q _ _ (call_steps _ _ _ _ _ _ _ Hcall)) as (new & Hnew).
  destruct (registered_steps q _ _ (fire_steps _ _ _ _ _ _ _ Hfire)) as (later & Hlater).
  assert (Hr1 : registered q m1 = registered q m0).
  { unfold m1. rewrite registered_log, app_nil_r. by apply registered_trace. }
  assert (Hq1 : callbacks_of q m1 = rest).
  { unfold callbacks_of, m1. cbn. by rewrite list_lookup_insert_eq. }
  assert (Hcba : callbacks_of q ma = rest ++ new).
  { pose proof (Hfa q) as Ha. pose proof (Hf1 q) as H1.
    rewrite Hnew, H1, Hq1, (fired_same_events q m1 ma Hfea), <- app_assoc in Ha.
    by apply app_inv_head in Ha. }
  exists new, later. split; [by rewrite Hnew, Hr1|]. split; [exact Hcba|].
  rewrite Htua, Htu1 in Hfez. rewrite Hfez. do 2 f_equal.
  pose proof (Hfz q) as Hz.
  rewrite (fire_returns_empty _ _ _ _ _ _ _ Hfire), app_nil_r in Hz.
  rewrite Hlater, (Hfa q), Hcba, (fired_events_app q _ ma mz cbs Hfez) in Hz.
  rewrite <- !app_assoc in Hz. apply app_inv_head in Hz. by rewrite <- Hz.
Qed.

(** C3 (amended).  The call that registers a reaction ([then]) and the call
    that settles an instance ([_transition]) run no handler and no other
    code: they add at most the registration to the trace, stay in the turn,
    and hand at most one drain closure to the scheduler.  In every run of a
    main script followed by any number of turns, no reaction fires during the
    main script, and every reaction that fires does so in a later turn whose
    task is the drain closure of its own instance, which is settled.

    A registration made from inside a drain of the same instance: when the
    member of the reaction at the head of the queue has returned, the
    reactions registered on the instance while it ran were all registered in
    the turn of the drain and wait in the queue behind the reactions that
    were there before; the drain goes on from there, and when it runs to its
    end it has fired them in that same turn, in this order, each after the
    member that registered it had returned. *)
Theorem handlers_run_in_drain_turns fuel turns env s m o m1 m2 :
  wf m = true -> forallb clean env = true -> trace m = [] ->
  run_main fuel env s m = Some (o, m1) ->
  run_tasks turns fuel m1 = Some m2 ->
  (forall m0 q onF onR pq,
     promises m0 !! q = Some pq ->
     let m' := snd (then_ q onF onR m0) in
     List.filter runs_code (trace m') = List.filter runs_code (trace m0)
     /\ turn m' = turn m0
     /\ (tasks m' = tasks m0 \/ exists mb, tasks m' = tasks m0 ++ [VNative (FFire q mb)]))
  /\ (forall m0 p st v,
        let m' := _transition p st v m0 in
        trace m' = trace m0
        /\ turn m' = turn m0
        /\ (tasks m' = tasks m0 \/ exists mb, tasks m' = tasks m0 ++ [VNative (FFire p mb)]))
  /\ fire_events m1 = []
  /\ fired_in_drain_turns (turn m) m2
  /\ (forall n d q mb m0 pr cb rest r ma x mz,
        wf m0 = true -> fifo m0 ->
        promises m0 !! q = Some pr -> callbacks pr = cb :: rest ->
        call n d (get_member mb cb) [value pr]
          (log (EvFire (turn m0) q cb)
             (set_promise q (mkPromise (value pr) (state pr) rest) m0))
          = Some (Ret r, ma) ->
        fire n d q mb ma = Some (Ret x, mz) ->
        fire (S n) d q mb m0 = Some (Ret x, mz)
        /\ turn ma = turn m0 /\ turn mz = turn m0
        /\ fire_events ma = fire_events m0 ++ [EvFire (turn m0) q cb]
        /\ (forall t p' cb', In (EvRegister t p' cb') (trace ma) ->
              In (EvRegister t p' cb') (trace m0) \/ t = turn m0)
        /\ exists new later,
             registered q ma = registered q m0 ++ new
             /\ callbacks_of q ma = rest ++ new
             /\ fire_events mz
                = fire_events ma ++ map (EvFire (turn m0) q) (rest ++ new ++ later)).
Proof.
  intros Hm Henv Htr Hmain Hrun.
  split; [|split; [|split; [|split]]].
  - intros m0 q onF onR pq Hq m'.
    destruct (then_no_code_runs q onF onR m0 pq Hq) as (H1 & H2 & H3).
    split; [|by split]. subst m'. rewrite H1. apply filter_runs_code_register.
  - intros m0 p st v m'. split; [apply transition_trace|].
    split; [apply transition_turn|apply transition_tasks].
  - by destruct (program_fires_in_drain_turns fuel turns env s m o m1 m2).
  - by destruct (program_fires_in_drain_turns fuel turns env s m o m1 m2).
  - intros n d q mb m0 pr cb rest r ma x mz. apply fire_continues_with_registered.
Qed.

Lemma handlers_run_in_drain_turns_witness :
  fire_events register_in_drain_main = []
  /\ fired_in_drain_turns 0 register_in_drain_end
  /\ exists new later,
       registered 0 register_in_drain_handled
       = registered 0 register_in_drain_start ++ new
       /\ callbacks_of 0 register_in_drain_handled = [] ++ new
       /\ new <> []
       /\ fire_events register_in_drain_end
          = fire_events register_in_drain_handled
            ++ map (EvFire 1 0) ([] ++ new ++ later).
Proof.
  assert (H1 : run_main 5 [] prog_register_in_drain initial
               = Some (Ret (VPrim undefined), register_in_drain_main))
    by (vm_compute; reflexivity).
  assert (H2 : run_tasks 1 5 register_in_drain_main = Some register_in_drain_end)
    by (vm_compute; reflexivity).
  destruct (handlers_run_in_drain_turns 5 1 [] prog_register_in_drain initial
              (Ret (VPrim undefined)) register_in_drain_main register_in_drain_end
              eq_refl eq_refl eq_refl H1 H2) as (_ & _ & H3 & H4 & H5).
  split; [exact H3|]. split; [exact H4|].
  assert (Hstart : register_in_drain_start
                   = log (EvCall 1 0 (VNative (FFire 0 m_onFulfilled)) [])
                       (set_turn S (set_tasks (fun _ => [VNative (FFire 0 m_onFulfilled)])
                                      register_in_drain_main)))
    by (vm_compute; reflexivity).
  assert (Hfifo : fifo register_in_drain_start).
  { rewrite Hstart. eapply steps_fifo; [|apply fifo_initial].
    eapply rtc_trans; [eapply run_main_steps, H1|].
    eapply rtc_l; [apply (step_turn [VNative (FFire 0 m_onFulfilled)])|].
    apply rtc_once, step_call. }
  assert (Hwf : wf register_in_drain_start = true) by (vm_compute; reflexivity).
  assert (Hp : promises register_in_drain_start !! 0
               = Some (mkPromise (VPrim (PNum 1)) resolved [register_in_drain_cb]))
    by (vm_compute; reflexivity).
  assert (Hcall : call 3 1 (get_member m_onFulfilled register_in_drain_cb)
                    [value (mkPromise (VPrim (PNum 1)) resolved [register_in_drain_cb])]
                    (log (EvFire (turn register_in_drain_start) 0 register_in_drain_cb)
                       (set_promise 0
                          (mkPromise
                             (value (mkPromise (VPrim (PNum 1)) resolved
                                       [register_in_drain_cb]))
                             (state (mkPromise (VPrim (PNum 1)) resolved
                                       [register_in_drain_cb])) [])
                          register_in_drain_start))
                  = Some (Ret (VPrim undefined), register_in_drain_handled))
    by (vm_compute; reflexivity).
  assert (Hfire : fire 3 1 0 m_onFulfilled register_in_drain_handled
                  = Some (Ret (VPrim undefined), register_in_drain_end))
    by (vm_compute; reflexivity).
  destruct (H5 3 1 0 m_onFulfilled register_in_drain_start _ _ _ _ _ _ _
              Hwf Hfifo Hp eq_refl Hcall Hfire)
    as (_ & _ & _ & _ & _ & new & later & H6 & H7 & H8).
  exists new, later. split; [exact H6|]. split; [exact H7|]. split; [|exact H8].
  intros ->. revert H7. vm_compute. discriminate.
Defined.

(** ** One link of a chain of instances *)




(** ** A chain of instances of any length *)












